(** * A shallow embedding of the tagged interval tree of [treeInterval.c]

    The C program keeps a tree of [IntervalNode]s.  Every node owns an
    interval [interval[0], interval[1]), an optional tag and an array of
    children; the operations [addTag], [removeTag], [hasTag] and
    [getFormattedText] walk that tree from the root.

    Modelling choices.
    - [int] coordinates are [Z].  The tree operations only compare and copy
      coordinates, so no wrap-around can occur there; the one subtraction
      of the program ([compareMarkers]) is modelled with its 32-bit
      wrap-around written out.
    - [char*] tags are [string]; a [NULL] tag of a node is [None].
    - a children array together with [numChildren] is a [list]; array
      indices are [nat].  Capacity bookkeeping and allocation failure are
      not modelled.
    - a node mutated through a pointer is returned as a new value by the
      function that mutates it; every caller of the C code goes on with
      either the mutated node or the nodes handed back in a rehook list,
      never with both, so no node is reachable twice. *)

From Stdlib Require Import String ZArith List Bool Lia Arith.
From Stdlib Require Import Permutation Sorted.
Import ListNotations.
Set Warnings "-register-all".
Open Scope Z_scope.

(** ** Data model *)

Inductive IntervalNode : Type :=
| mkNode (interval0 interval1 : Z) (tag : option string)
         (children : list IntervalNode).

Definition interval0 (n : IntervalNode) : Z :=
  match n with mkNode a _ _ _ => a end.

Definition interval1 (n : IntervalNode) : Z :=
  match n with mkNode _ b _ _ => b end.

Definition tag (n : IntervalNode) : option string :=
  match n with mkNode _ _ t _ => t end.

Definition children (n : IntervalNode) : list IntervalNode :=
  match n with mkNode _ _ _ cs => cs end.

Definition numChildren (n : IntervalNode) : nat := length (children n).

Definition set_interval0 (n : IntervalNode) (a : Z) : IntervalNode :=
  mkNode a (interval1 n) (tag n) (children n).

Definition set_interval1 (n : IntervalNode) (b : Z) : IntervalNode :=
  mkNode (interval0 n) b (tag n) (children n).

Definition set_children (n : IntervalNode) (cs : list IntervalNode)
  : IntervalNode :=
  mkNode (interval0 n) (interval1 n) (tag n) cs.

Record TaggedIntervalTree : Type := mkTree { root : IntervalNode }.

(** [createIntervalNode]: a node without children. *)
Definition createIntervalNode (start end_ : Z) (t : option string)
  : IntervalNode :=
  mkNode start end_ t [].

Definition createTaggedIntervalTree (start end_ : Z) : TaggedIntervalTree :=
  mkTree (createIntervalNode start end_ None).

(** [node->tag && strcmp(node->tag, tag) == 0] *)
Definition tag_is (t : option string) (tg : string) : bool :=
  match t with
  | Some s => String.eqb s tg
  | None => false
  end.

(** ** Array helpers *)

Definition dummyNode : IntervalNode := mkNode 0 0 None [].

(** [children[i]] *)
Definition child_at (cs : list IntervalNode) (i : nat) : IntervalNode :=
  nth i cs dummyNode.

(** [children[i] = x] for a node mutated in place *)
Fixpoint replace_at (i : nat) (x : IntervalNode) (cs : list IntervalNode)
         {struct cs} : list IntervalNode :=
  match cs with
  | [] => []
  | c :: rest =>
      match i with
      | O => x :: rest
      | S j => c :: replace_at j x rest
      end
  end.

(** the shift loop that deletes the element at [i] *)
Definition remove_at (i : nat) (cs : list IntervalNode)
  : list IntervalNode :=
  firstn i cs ++ skipn (S i) cs.

(** the shift loop that opens a slot at [i] and stores [x] there *)
Definition insert_at (i : nat) (x : IntervalNode) (cs : list IntervalNode)
  : list IntervalNode :=
  firstn i cs ++ x :: skipn i cs.

(** [addChildToNode] *)
Definition addChildToNode (n child : IntervalNode) : IntervalNode :=
  set_children n (children n ++ [child]).

(** ** Binary search for the insertion point *)

(** The [while (left <= right)] loop of [findInsertionPoint]; [fuel] bounds
    the number of iterations. *)
Fixpoint bsearch (fuel : nat) (cs : list IntervalNode) (start : Z)
         (left right : Z) : Z :=
  match fuel with
  | O => left
  | S f =>
      if left <=? right then
        let mid := Z.quot (left + right) 2 in
        let m := interval0 (child_at cs (Z.to_nat mid)) in
        if m =? start then mid
        else if m <? start then bsearch f cs start (mid + 1) right
        else bsearch f cs start left (mid - 1)
      else left
  end.

Definition findInsertionPoint (cs : list IntervalNode) (start : Z) : nat :=
  match cs with
  | [] => O
  | _ =>
      Z.to_nat (bsearch (S (length cs)) cs start 0 (Z.of_nat (length cs) - 1))
  end.

(** ** Merging with neighbours *)

Definition tryMergeWithNeighbors (node : IntervalNode)
           (newStart newEnd : Z) (tg : string) : bool * IntervalNode :=
  let cs := children node in
  match cs with
  | [] => (false, node)
  | _ =>
      let index := findInsertionPoint cs newStart in
      let leftNeighbor := child_at cs (index - 1) in
      if (0 <? index)%nat
         && tag_is (tag leftNeighbor) tg
         && (interval1 leftNeighbor >=? newStart)
      then
        let left1 :=
          set_interval1 leftNeighbor (Z.max (interval1 leftNeighbor) newEnd) in
        let rightNeighbor := child_at cs index in
        if (index <? length cs)%nat
           && tag_is (tag rightNeighbor) tg
           && (interval1 left1 >=? interval0 rightNeighbor)
        then
          let left2 :=
            set_interval1 left1
              (Z.max (interval1 left1) (interval1 rightNeighbor)) in
          let left3 :=
            set_children left2 (children left2 ++ children rightNeighbor) in
          (true,
           set_children node
             (remove_at index (replace_at (index - 1) left3 cs)))
        else
          (true, set_children node (replace_at (index - 1) left1 cs))
      else
        let rightNeighbor := child_at cs index in
        if (index <? length cs)%nat
           && tag_is (tag rightNeighbor) tg
           && (newEnd >=? interval0 rightNeighbor)
        then
          (true,
           set_children node
             (replace_at index
                (set_interval0 rightNeighbor
                   (Z.min (interval0 rightNeighbor) newStart)) cs))
        else (false, node)
  end.

(** ** Insertion *)

Record InsertPoint : Type :=
  mkPoint { ip_index : nat; ip_start : Z; ip_end : Z }.

(** The first child that may overlap [pos]: the insertion point, stepped
    back by one when the previous child reaches past [pos]. *)
Definition firstRelevant (cs : list IntervalNode) (pos : Z) : nat :=
  let i := findInsertionPoint cs pos in
  if (0 <? i)%nat && (interval1 (child_at cs (i - 1)) >? pos)
  then (i - 1)%nat else i.

(** The final loop of [addTagDFS]: the insert points are visited from the
    last to the first; each one is merged into a neighbour or becomes a
    new child at its index. *)
Fixpoint applyInsertPoints (node : IntervalNode) (tg : string)
         (rpoints : list InsertPoint) : IntervalNode :=
  match rpoints with
  | [] => node
  | p :: rest =>
      let (merged, node1) :=
        tryMergeWithNeighbors node (ip_start p) (ip_end p) tg in
      let node2 :=
        if merged then node1
        else set_children node
               (insert_at (ip_index p)
                  (createIntervalNode (ip_start p) (ip_end p) (Some tg))
                  (children node)) in
      applyInsertPoints node2 tg rest
  end.

(** The [while] loop of [addTagDFS] over the relevant children.  [rec]
    stands for the recursive call on a child from a position on, [i0] is
    the index the loop starts at, [l] the part of the array from index [i]
    on, [pos] is [currentPos]; the loop returns the children as it leaves
    them, the last [currentPos] and the insert points. *)
Section AddLoop.

Variable rec : IntervalNode -> Z -> IntervalNode.
Variable i0 : nat.
Variable end_ : Z.

Fixpoint addLoop (l : list IntervalNode) (i : nat) (pos : Z)
         (points : list InsertPoint) {struct l}
  : list IntervalNode * Z * list InsertPoint :=
  match l with
  | [] => ([], pos, points)
  | child :: rest =>
      if (i <? i0)%nat then
        let '(rest', pos', points') := addLoop rest (S i) pos points in
        (child :: rest', pos', points')
      else if pos <? end_ then
        let '(child1, pos1) :=
          if pos <? interval1 child then
            let c := rec child pos in (c, interval1 c)
          else (child, pos) in
        let '(points1, pos2) :=
          match rest with
          | next :: _ =>
              if (pos1 <? end_) && (pos1 <? interval0 next) then
                let e := Z.min (interval0 next) end_ in
                (points ++ [mkPoint (S i) pos1 e], e)
              else (points, pos1)
          | [] => (points, pos1)
          end in
        let '(rest', pos', points') := addLoop rest (S i) pos2 points1 in
        (child1 :: rest', pos', points')
      else (l, pos, points)
  end.

End AddLoop.

Fixpoint addTagDFS (node : IntervalNode) (tg : string) (start end_ : Z)
         {struct node} : IntervalNode :=
  match node with
  | mkNode n0 n1 ntag cs =>
      let start := Z.max start n0 in
      let end_ := Z.min end_ n1 in
      if start >=? end_ then node
      else if tag_is ntag tg then node
      else
        match cs with
        | [] =>
            addChildToNode node (createIntervalNode start end_ (Some tg))
        | _ :: _ =>
            let (merged, node1) :=
              tryMergeWithNeighbors node start end_ tg in
            if merged then node1
            else
              let i0 := firstRelevant cs start in
              (* gap before the first relevant child *)
              let '(points0, pos0) :=
                if (i0 <? length cs)%nat
                   && (start <? interval0 (child_at cs i0))
                then
                  let e := Z.min (interval0 (child_at cs i0)) end_ in
                  ([mkPoint i0 start e], e)
                else ([], start) in
              let '(cs1, pos1, points1) :=
                addLoop (fun child pos => addTagDFS child tg pos end_)
                  i0 end_ cs O pos0 points0 in
              let points2 :=
                if pos1 <? end_
                then points1 ++ [mkPoint (length cs1) pos1 end_]
                else points1 in
              applyInsertPoints (mkNode n0 n1 ntag cs1) tg (rev points2)
        end
  end.

Definition addTag (tree : TaggedIntervalTree) (tg : string)
           (start end_ : Z) : TaggedIntervalTree :=
  if start >=? end_ then tree
  else mkTree (addTagDFS (root tree) tg start end_).

(** ** Membership *)

(** The [while] loop of [checkTagDFS]: [rec] stands for the recursive
    call on a child, [i0] is the index the loop starts at and [l] the part
    of the array from index [i] on. *)
Section CheckLoop.

Variable rec : IntervalNode -> bool.
Variable i0 : nat.
Variables start end_ : Z.

Fixpoint checkLoop (l : list IntervalNode) (i : nat) {struct l} : bool :=
  match l with
  | [] => false
  | child :: rest =>
      if (i <? i0)%nat then checkLoop rest (S i)
      else if (end_ <=? interval0 child) || (start >=? interval1 child)
      then checkLoop rest (S i)
      else if rec child then true
      else checkLoop rest (S i)
  end.

End CheckLoop.

Fixpoint checkTagDFS (node : IntervalNode) (tg : string) (start end_ : Z)
         {struct node} : bool :=
  match node with
  | mkNode n0 n1 ntag cs =>
      if tag_is ntag tg && (n0 <=? start) && (n1 >=? end_) then true
      else
        checkLoop (fun child => checkTagDFS child tg start end_)
          (firstRelevant cs start) start end_ cs O
  end.

Definition hasTag (tree : TaggedIntervalTree) (tg : string)
           (start end_ : Z) : bool :=
  checkTagDFS (root tree) tg start end_.

(** ** Removal *)

Inductive RemoveState : Type :=
| NO_OVERLAP
| REMOVE_INTERVAL_INSIDE
| REMOVE_INTERVAL_LEFT
| REMOVE_INTERVAL_RIGHT
| REMOVE_ENTIRE_NODE
| PROCESSED_CHILDREN.

Definition RemoveState_eqb (a b : RemoveState) : bool :=
  match a, b with
  | NO_OVERLAP, NO_OVERLAP
  | REMOVE_INTERVAL_INSIDE, REMOVE_INTERVAL_INSIDE
  | REMOVE_INTERVAL_LEFT, REMOVE_INTERVAL_LEFT
  | REMOVE_INTERVAL_RIGHT, REMOVE_INTERVAL_RIGHT
  | REMOVE_ENTIRE_NODE, REMOVE_ENTIRE_NODE
  | PROCESSED_CHILDREN, PROCESSED_CHILDREN => true
  | _, _ => false
  end.

Record RemoveResult : Type :=
  mkResult {
      removed : bool;
      state : RemoveState;
      remainingInterval : Z * Z;
      rehookNodeList : list IntervalNode
    }.

(** [state == REMOVE_ENTIRE_NODE || state == REMOVE_INTERVAL_INSIDE] *)
Definition entireOrInside (s : RemoveState) : bool :=
  RemoveState_eqb s REMOVE_ENTIRE_NODE
  || RemoveState_eqb s REMOVE_INTERVAL_INSIDE.

(** Every rehook node that passes [keep] is stored at its insertion point. *)
Fixpoint insertRehooks (keep : IntervalNode -> bool)
         (rehooks cs : list IntervalNode) : list IntervalNode :=
  match rehooks with
  | [] => cs
  | r :: rest =>
      insertRehooks keep rest
        (if keep r
         then insert_at (findInsertionPoint cs (interval0 r)) r cs
         else cs)
  end.

(** The positions marked for removal are deleted from the last one marked
    to the first. *)
Fixpoint removeIndices (marked : list nat) (cs : list IntervalNode)
  : list IntervalNode :=
  match marked with
  | [] => cs
  | i :: rest => removeIndices rest (remove_at i cs)
  end.

(** The defensive loop that clips a child to its parent's interval. *)
Definition clipChild (parent c : IntervalNode) : IntervalNode :=
  let c1 :=
    if interval0 c <? interval0 parent
    then set_interval0 c (interval0 parent) else c in
  if interval1 c1 >? interval1 parent
  then set_interval1 c1 (interval1 parent) else c1.

(** [removeTagDFS] calls itself on the node it was given (with the interval
    that a child left over), so it is not structurally recursive.  Its body
    is written once over the function [rec] that stands for the recursive
    calls; [removeTagDFS] then ties the knot with a [fuel] that bounds the
    depth of calls, and [None] means that the fuel ran out.  Every function
    returns the node (or the children array) as the C code leaves it. *)
Section RemoveBody.

Variable rec :
  IntervalNode -> string -> Z -> Z -> option (IntervalNode * RemoveResult).

Variable tg : string.

(** Case 1, the loop over the children: the children as the loop leaves
    them, [beforeNodes], [insideNodes], [afterNodes] and the rehook nodes
    taken over from removed children. *)
Fixpoint insideLoop (effectiveStart effectiveEnd : Z)
         (l : list IntervalNode)
  : option (list IntervalNode * list IntervalNode * list IntervalNode
            * list IntervalNode * list IntervalNode) :=
  match l with
  | [] => Some ([], [], [], [], [])
  | child :: rest =>
      if interval1 child <=? effectiveStart then
        match insideLoop effectiveStart effectiveEnd rest with
        | None => None
        | Some (cs, before, inside, after, rehooks) =>
            Some (child :: cs, child :: before, inside, after, rehooks)
        end
      else if interval0 child >=? effectiveEnd then
        match insideLoop effectiveStart effectiveEnd rest with
        | None => None
        | Some (cs, before, inside, after, rehooks) =>
            Some (child :: cs, before, inside, child :: after, rehooks)
        end
      else
        match rec child tg effectiveStart effectiveEnd with
        | None => None
        | Some (child1, r) =>
            match insideLoop effectiveStart effectiveEnd rest with
            | None => None
            | Some (cs, before, inside, after, rehooks) =>
                if removed r && entireOrInside (state r) then
                  Some (child1 :: cs, before, inside, after,
                        rehookNodeList r ++ rehooks)
                else
                  Some (child1 :: cs, before, child1 :: inside, after,
                        rehooks)
            end
        end
  end.

(** Case 4, the loop over the children: the rehook list. *)
Fixpoint coverLoop (effectiveStart effectiveEnd : Z)
         (l : list IntervalNode) : option (list IntervalNode) :=
  match l with
  | [] => Some []
  | child :: rest =>
      if (interval0 child <? effectiveEnd)
         && (interval1 child >? effectiveStart)
      then
        match rec child tg effectiveStart effectiveEnd with
        | None => None
        | Some (child1, r) =>
            match coverLoop effectiveStart effectiveEnd rest with
            | None => None
            | Some rehooks =>
                if removed r
                then Some (rehookNodeList r ++ rehooks)
                else Some (child1 :: rehooks)
            end
        end
      else
        match coverLoop effectiveStart effectiveEnd rest with
        | None => None
        | Some rehooks => Some (child :: rehooks)
        end
  end.

(** Case 2, the [for] loop over the children.  Its bound [numChildren]
    grows while rehook nodes are stored, so the iterations are counted
    by [k].  [marked] is [childrenToRemove], last mark first.  A child
    that was freed stays in the array until the marks are applied; the
    model reads it with the values it had. *)
Fixpoint removeLeftLoop (k : nat) (cs : list IntervalNode)
         (effectiveStart effectiveEnd : Z) (i : nat) (marked : list nat)
  : option (list IntervalNode * list nat) :=
  match k with
  | O => None
  | S k' =>
      if (i <? length cs)%nat then
        let child := child_at cs i in
        if interval1 child <=? effectiveEnd then
          removeLeftLoop k' cs effectiveStart effectiveEnd (S i)
            (i :: marked)
        else if interval0 child <? effectiveEnd then
          match rec child tg effectiveStart effectiveEnd with
          | None => None
          | Some (child1, r) =>
              let cs1 := replace_at i child1 cs in
              if removed r && RemoveState_eqb (state r) REMOVE_ENTIRE_NODE
              then
                removeLeftLoop k'
                  (insertRehooks (fun n => interval0 n >=? effectiveEnd)
                     (rehookNodeList r) cs1)
                  effectiveStart effectiveEnd (S i) (i :: marked)
              else
                removeLeftLoop k' cs1 effectiveStart effectiveEnd (S i)
                  marked
          end
        else
          removeLeftLoop k' cs effectiveStart effectiveEnd (S i) marked
      else Some (cs, marked)
  end.

(** Case 3, the [for] loop over the children. *)
Fixpoint removeRightLoop (k : nat) (cs : list IntervalNode)
         (effectiveStart : Z) (i : nat) (marked : list nat)
  : option (list IntervalNode * list nat) :=
  match k with
  | O => None
  | S k' =>
      if (i <? length cs)%nat then
        let child := child_at cs i in
        if interval0 child >=? effectiveStart then
          removeRightLoop k' cs effectiveStart (S i) (i :: marked)
        else if interval1 child >? effectiveStart then
          match rec child tg effectiveStart (interval1 child) with
          | None => None
          | Some (child1, r) =>
              let cs1 := replace_at i child1 cs in
              if removed r && RemoveState_eqb (state r) REMOVE_ENTIRE_NODE
              then
                removeRightLoop k'
                  (insertRehooks (fun n => interval1 n <=? effectiveStart)
                     (rehookNodeList r) cs1)
                  effectiveStart (S i) (i :: marked)
              else
                removeRightLoop k' cs1 effectiveStart (S i) marked
          end
        else
          removeRightLoop k' cs effectiveStart (S i) marked
      else Some (cs, marked)
  end.

(** The [while] loop over the children of a node that does not carry the
    tag; [rem] is the local [removed]. *)
Fixpoint removeChildrenLoop (k : nat) (node : IntervalNode)
         (start end_ effectiveStart effectiveEnd : Z) (i : nat)
         (rem : bool) : option (IntervalNode * bool) :=
  match k with
  | O => None
  | S k' =>
      if (i <? numChildren node)%nat then
        let child := child_at (children node) i in
        if (effectiveEnd <=? interval0 child)
           || (effectiveStart >=? interval1 child)
        then
          removeChildrenLoop k' node start end_ effectiveStart
            effectiveEnd (S i) rem
        else
          match rec child tg start end_ with
          | None => None
          | Some (child1, r) =>
              let node1 :=
                set_children node (replace_at i child1 (children node)) in
              if removed r then
                let '(node2, i2) :=
                  if entireOrInside (state r) then
                    let cs :=
                      insertRehooks (fun _ => true) (rehookNodeList r)
                        (remove_at i (children node1)) in
                    (set_children node1 cs,
                     firstRelevant cs effectiveStart)
                  else (node1, S i) in
                if fst (remainingInterval r) <? snd (remainingInterval r)
                then
                  match rec node2 tg (fst (remainingInterval r))
                          (snd (remainingInterval r))
                  with
                  | None => None
                  | Some (node3, _) =>
                      removeChildrenLoop k' node3 start end_
                        effectiveStart effectiveEnd i2 true
                  end
                else
                  removeChildrenLoop k' node2 start end_ effectiveStart
                    effectiveEnd i2 true
              else
                removeChildrenLoop k' node1 start end_ effectiveStart
                  effectiveEnd (S i) rem
          end
      else Some (node, rem)
  end.

(** The body of [removeTagDFS]; [k] bounds the iterations of its loops. *)
Definition removeTagBody (k : nat) (node : IntervalNode) (start end_ : Z)
  : option (IntervalNode * RemoveResult) :=
  let effectiveStart := Z.max start (interval0 node) in
  let effectiveEnd := Z.min end_ (interval1 node) in
  if effectiveStart >=? effectiveEnd then
    Some (node, mkResult false NO_OVERLAP (start, end_) [])
  else
    let originalStart := interval0 node in
    let originalEnd := interval1 node in
    if tag_is (tag node) tg
       && (effectiveStart >? originalStart)
       && (effectiveEnd <? originalEnd)
    then
      (* Case 1: the removal lies strictly inside the node *)
      match insideLoop effectiveStart effectiveEnd (children node) with
      | None => None
      | Some (cs, before, inside, after, rehooks) =>
          let pre :=
            if effectiveStart >? originalStart then
              [mkNode originalStart effectiveStart (Some tg) before]
            else before in
          let post :=
            if effectiveEnd <? originalEnd then
              [mkNode effectiveEnd originalEnd (Some tg) after]
            else after in
          Some (set_children node cs,
                mkResult true REMOVE_INTERVAL_INSIDE (end_, end_)
                  (rehooks ++ pre ++ inside ++ post))
      end
    else if tag_is (tag node) tg
            && (effectiveStart <=? originalStart)
            && (effectiveEnd <? originalEnd)
    then
      (* Case 2: the removal cuts off the left part of the node *)
      let node1 := set_interval0 node effectiveEnd in
      match removeLeftLoop k (children node1) effectiveStart
              effectiveEnd O []
      with
      | None => None
      | Some (cs, marked) =>
          Some (set_children node1 (removeIndices marked cs),
                mkResult true REMOVE_INTERVAL_LEFT (effectiveEnd, end_) [])
      end
    else if tag_is (tag node) tg
            && (effectiveStart >? originalStart)
            && (effectiveEnd >=? originalEnd)
    then
      (* Case 3: the removal cuts off the right part of the node *)
      let node1 := set_interval1 node effectiveStart in
      match removeRightLoop k (children node1) effectiveStart O [] with
      | None => None
      | Some (cs, marked) =>
          Some (set_children node1 (removeIndices marked cs),
                mkResult true REMOVE_INTERVAL_RIGHT
                  (start, effectiveStart) [])
      end
    else if tag_is (tag node) tg
            && (effectiveStart <=? originalStart)
            && (effectiveEnd >=? originalEnd)
    then
      (* Case 4: the removal covers the node *)
      match coverLoop effectiveStart effectiveEnd (children node) with
      | None => None
      | Some rehooks =>
          Some (set_children node [],
                mkResult true REMOVE_ENTIRE_NODE (effectiveEnd, end_)
                  rehooks)
      end
    else
      (* the node does not carry the tag: process the children *)
      match removeChildrenLoop k node start end_ effectiveStart
              effectiveEnd
              (firstRelevant (children node) effectiveStart) false
      with
      | None => None
      | Some (node1, rem) =>
          Some (set_children node1
                  (map (clipChild node1) (children node1)),
                mkResult rem PROCESSED_CHILDREN
                  (Z.max effectiveEnd start, end_) [])
      end.

End RemoveBody.

Fixpoint removeTagDFS (fuel : nat) (node : IntervalNode) (tg : string)
         (start end_ : Z) {struct fuel}
  : option (IntervalNode * RemoveResult) :=
  match fuel with
  | O => None
  | S f => removeTagBody (removeTagDFS f) tg f node start end_
  end.

Definition removeTag (fuel : nat) (tree : TaggedIntervalTree) (tg : string)
           (start end_ : Z) : option (TaggedIntervalTree * bool) :=
  if start >=? end_ then Some (tree, false)
  else
    match removeTagDFS fuel (root tree) tg start end_ with
    | None => None
    | Some (node, r) => Some (mkTree node, removed r)
    end.

(** ** Rendering *)

Record TagMarker : Type :=
  mkMarker { position : Z; markerTag : string; isOpening : bool }.

(** A C [int] is 32 bits wide; [wrap32] is the value an [int] holds after
    an arithmetic result left its range. *)
Definition INT_MIN : Z := - 2 ^ 31.
Definition INT_MAX : Z := 2 ^ 31 - 1.

Definition wrap32 (z : Z) : Z := (z + 2 ^ 31) mod 2 ^ 32 - 2 ^ 31.

(** [compareMarkers]: at equal positions the answer depends on the first
    marker only; otherwise it is the [int] difference of the positions. *)
Definition compareMarkers (a b : TagMarker) : Z :=
  if position a =? position b then
    if isOpening a then 1 else -1
  else wrap32 (position a - position b).

(** The nested function [collectMarkers]: an opening and a closing marker
    for every node that has a tag, parents before children. *)
Fixpoint collectMarkers (n : IntervalNode) : list TagMarker :=
  match n with
  | mkNode a b t cs =>
      match t with
      | Some s => [mkMarker a s true; mkMarker b s false]
      | None => []
      end ++ flat_map collectMarkers cs
  end.

(** The nested function [countNodes], which sizes the marker array. *)
Fixpoint countNodes (n : IntervalNode) : nat :=
  match n with
  | mkNode _ _ t cs =>
      (match t with Some _ => 2 | None => 0 end
       + list_sum (map countNodes cs))%nat
  end.

Definition markerText (m : TagMarker) : string :=
  if isOpening m
  then String.append "<" (String.append (markerTag m) ">")
  else String.append "</" (String.append (markerTag m) ">").

(** The loop that copies the text between two markers and then the marker
    itself; the tail of the text follows the last marker.  Positions are
    read as indices into [text]. *)
Fixpoint spliceMarkers (text : string) (markers : list TagMarker)
         (lastPosition : Z) : string :=
  match markers with
  | [] =>
      substring (Z.to_nat lastPosition)
        (String.length text - Z.to_nat lastPosition) text
  | m :: rest =>
      let textToAdd := wrap32 (position m - lastPosition) in
      String.append
        (if textToAdd >? 0
         then substring (Z.to_nat lastPosition) (Z.to_nat textToAdd) text
         else EmptyString)
        (String.append (markerText m)
           (spliceMarkers text rest (position m)))
  end.

(** [qsort] belongs to the C library, not to the program.  The rendering
    functions take it as a parameter. *)
Section Rendering.

Variable qsort :
  (TagMarker -> TagMarker -> Z) -> list TagMarker -> list TagMarker.

(** The marker array of [getFormattedText] after the call of [qsort]. *)
Definition sortedMarkers (tree : TaggedIntervalTree) : list TagMarker :=
  qsort compareMarkers (collectMarkers (root tree)).

Definition getFormattedText (tree : TaggedIntervalTree) (text : string)
  : string :=
  spliceMarkers text (sortedMarkers tree) 0.

End Rendering.

(** What a sorting routine guarantees when it is driven by a comparator
    whose answers are sound for a transitive relation [le]: a non-positive
    answer for [x], [y] means that [x] may precede [y], a non-negative one
    that [y] may precede [x].  The result is then a rearrangement of the
    input in which every element may precede all later ones. *)
Definition SoundComparatorSort
           (sortfn : (TagMarker -> TagMarker -> Z)
                     -> list TagMarker -> list TagMarker) : Prop :=
  forall (cmp : TagMarker -> TagMarker -> Z)
         (le : TagMarker -> TagMarker -> Prop) (l : list TagMarker),
    (forall x y z, le x y -> le y z -> le x z) ->
    (forall x y, In x l -> In y l -> cmp x y <= 0 -> le x y) ->
    (forall x y, In x l -> In y l -> 0 <= cmp x y -> le y x) ->
    Permutation l (sortfn cmp l)
    /\ StronglySorted le (sortfn cmp l).

(** One sorting routine of that kind: insertion sort. *)
Fixpoint insertSorted (cmp : TagMarker -> TagMarker -> Z) (x : TagMarker)
         (l : list TagMarker) : list TagMarker :=
  match l with
  | [] => [x]
  | y :: rest =>
      if cmp x y <=? 0 then x :: y :: rest
      else y :: insertSorted cmp x rest
  end.

Fixpoint insertionSort (cmp : TagMarker -> TagMarker -> Z)
         (l : list TagMarker) : list TagMarker :=
  match l with
  | [] => []
  | x :: rest => insertSorted cmp x (insertionSort cmp rest)
  end.

(** The order the markers are meant to have: ascending positions, and at
    one position a closing marker before an opening one. *)
Definition markerBefore (a b : TagMarker) : Prop :=
  position a < position b
  \/ (position a = position b /\ (isOpening a = true -> isOpening b = true)).

Definition markersOrdered (ms : list TagMarker) : Prop :=
  forall i j d, (i < j < length ms)%nat ->
    position (nth i ms d) <= position (nth j ms d)
    /\ (position (nth i ms d) = position (nth j ms d) ->
        ~ (isOpening (nth i ms d) = true /\ isOpening (nth j ms d) = false)).

(** The subtraction of [compareMarkers] stays inside the [int] range for
    all markers of the list; this holds when the positions are indices
    into a text. *)
Definition differencesFit (ms : list TagMarker) : Prop :=
  forall a b, In a ms -> In b ms ->
    INT_MIN <= position a - position b <= INT_MAX.


(** ** The invariants of the data model *)

Definition overlaps (a b : IntervalNode) : bool :=
  (interval0 a <? interval1 b) && (interval0 b <? interval1 a).

(** Siblings are sorted by start and pairwise disjoint. *)
Fixpoint siblingsOrdered (cs : list IntervalNode) : bool :=
  match cs with
  | [] => true
  | c :: rest =>
      forallb (fun d => (interval0 c <=? interval0 d) && negb (overlaps c d))
        rest
      && siblingsOrdered rest
  end.

Definition within (a b : Z) (c : IntervalNode) : bool :=
  (a <=? interval0 c) && (interval1 c <=? b).

(** Every child lies inside its parent. *)
Fixpoint nested (n : IntervalNode) : bool :=
  match n with
  | mkNode a b _ cs => forallb (fun c => within a b c && nested c) cs
  end.

(** Sortedness and nesting at every node of the tree. *)
Fixpoint invariants (n : IntervalNode) : bool :=
  match n with
  | mkNode a b _ cs =>
      siblingsOrdered cs
      && forallb (fun c => within a b c && invariants c) cs
  end.

(** Trees as the public operations build them. *)
Inductive reachable : TaggedIntervalTree -> Prop :=
| reach_create (a b : Z) : reachable (createTaggedIntervalTree a b)
| reach_add (t : TaggedIntervalTree) (tg : string) (a b : Z) :
    reachable t -> reachable (addTag t tg a b)
| reach_remove (t t' : TaggedIntervalTree) (tg : string) (a b : Z)
               (fuel : nat) (r : bool) :
    reachable t -> removeTag fuel t tg a b = Some (t', r) -> reachable t'.

(** ** Auxiliary notions for the proofs *)

Definition RecFun : Type :=
  IntervalNode -> string -> Z -> Z -> option (IntervalNode * RemoveResult).

(** [rec2] returns whatever [rec1] returns. *)
Definition rec_le (rec1 rec2 : RecFun) : Prop :=
  forall node tg s e r, rec1 node tg s e = Some r -> rec2 node tg s e = Some r.

(** The tree of the example in [main]: "b" on [2,10), "i" on [5,15) and
    "u" on [8,12) over the domain [0,20). *)
Definition demoTree : TaggedIntervalTree :=
  addTag
    (addTag (addTag (createTaggedIntervalTree 0 20) "b" 2 10) "i" 5 15)
    "u" 8 12.


(** [rec] hands a nested node back as it was whenever it reports that
    nothing was removed. *)
Definition KeepsUnremoved (rec : RecFun) : Prop :=
  forall node tg s e node' r,
    nested node = true -> rec node tg s e = Some (node', r) ->
    removed r = false -> node' = node.

(** No node of the tree carries the tag. *)
Fixpoint tagAbsent (tg : string) (n : IntervalNode) : bool :=
  match n with
  | mkNode _ _ t cs => negb (tag_is t tg) && forallb (tagAbsent tg) cs
  end.

(** [rec] reports [false] on nested nodes without the tag. *)
Definition ReportsAbsent (rec : RecFun) : Prop :=
  forall node tg s e node' r,
    nested node = true -> tagAbsent tg node = true ->
    rec node tg s e = Some (node', r) -> removed r = false.

(** ** Measures for the termination of the removal *)

(** One more than the height of the highest child. *)
Fixpoint height (n : IntervalNode) : nat :=
  match n with
  | mkNode _ _ _ cs => S (fold_right (fun c m => Nat.max (height c) m) O cs)
  end.

(** All nodes of the list have height at most [hb]. *)
Definition Below (hb : nat) (cs : list IntervalNode) : Prop :=
  Forall (fun c => (height c <= hb)%nat) cs.

(** How much of [p,q) a node covers with the tag [tg]. *)
Definition coverage (tg : string) (p q : Z) (n : IntervalNode) : nat :=
  if tag_is (tag n) tg
  then Z.to_nat (Z.min q (interval1 n) - Z.max p (interval0 n))
  else O.

(** The coverage summed over all nodes of a tree, and of a list of trees. *)
Fixpoint weight (tg : string) (p q : Z) (n : IntervalNode) : nat :=
  match n with
  | mkNode a b t cs =>
      (coverage tg p q (mkNode a b t []) + list_sum (map (weight tg p q) cs))%nat
  end.

Definition forestWeight (tg : string) (p q : Z) (cs : list IntervalNode)
  : nat :=
  list_sum (map (weight tg p q) cs).

(** The children that can still hand rehook nodes to the loop of case 2
    (of case 3): they have children and start before [effectiveEnd]
    (end after [effectiveStart]). *)
Definition hasChildren (n : IntervalNode) : bool :=
  match children n with [] => false | _ :: _ => true end.

Definition pendingLeft (effectiveEnd : Z) (cs : list IntervalNode) : nat :=
  length (filter (fun c => hasChildren c && (interval0 c <? effectiveEnd)) cs).

Definition pendingRight (effectiveStart : Z) (cs : list IntervalNode) : nat :=
  length
    (filter (fun c => hasChildren c && (interval1 c >? effectiveStart)) cs).

(** What every terminated call of [removeTagDFS] guarantees about the node
    [node'] it leaves and its result [r]. *)
Record CallOk (tg : string) (node : IntervalNode) (s e : Z)
       (node' : IntervalNode) (r : RemoveResult) : Prop :=
  mkCallOk {
      ok_start : interval0 node <= interval0 node';
      ok_end : interval1 node' <= interval1 node;
      ok_leaf : children node = [] -> children node' = [];
      ok_height : (height node' <= height node)%nat;
      ok_rehook_height :
        Forall (fun x => (height x <= height node)%nat) (rehookNodeList r);
      ok_weight : forall p q, (weight tg p q node' <= weight tg p q node)%nat;
      ok_rehook_weight :
        forall p q,
          (forestWeight tg p q (rehookNodeList r) <= weight tg p q node)%nat;
      ok_entire :
        state r = REMOVE_ENTIRE_NODE ->
        children node' = []
        /\ (children node = [] -> rehookNodeList r = [])
        /\ Forall (fun x => (height x < height node)%nat) (rehookNodeList r)
        /\ forall p q,
            (weight tg p q node' + forestWeight tg p q (rehookNodeList r)
             <= weight tg p q node)%nat;
      ok_strict :
        removed r = true ->
        if entireOrInside (state r)
        then (forestWeight tg s e (rehookNodeList r) < weight tg s e node)%nat
        else (weight tg s e node' < weight tg s e node)%nat;
      ok_remaining :
        removed r = true ->
        fst (remainingInterval r) < snd (remainingInterval r) ->
        s < fst (remainingInterval r) /\ snd (remainingInterval r) = e
    }.

(** The call terminates: from some fuel on it returns one result, and the
    result is as [CallOk] says. *)
Definition Total (tg : string) (node : IntervalNode) (s e : Z) : Prop :=
  exists F node' r,
    (forall f, (F <= f)%nat -> removeTagDFS f node tg s e = Some (node', r))
    /\ CallOk tg node s e node' r.

(** ** Insertion followed by membership *)

(** The starts of the children ascend strictly. *)
Definition StartsIncreasing (cs : list IntervalNode) : Prop :=
  StronglySorted (fun c d => interval0 c < interval0 d) cs.

(** [k] is where a child starting at [x] belongs: the children before
    index [k] start before [x], the others do not. *)
Definition InsertionPoint (cs : list IntervalNode) (x : Z) (k : nat) : Prop :=
  (k <= length cs)%nat
  /\ (forall j, (j < k)%nat -> interval0 (child_at cs j) < x)
  /\ (forall j, (k <= j < length cs)%nat -> x <= interval0 (child_at cs j)).

(** Every node has a non-empty interval. *)
Fixpoint proper (n : IntervalNode) : bool :=
  match n with
  | mkNode a b _ cs => (a <? b) && forallb proper cs
  end.

(** No node below [n] cuts [a,b): each one contains it or is disjoint from
    it. *)
Fixpoint uncut (a b : Z) (n : IntervalNode) : bool :=
  match n with
  | mkNode _ _ _ cs =>
      forallb
        (fun c =>
           (((interval0 c <=? a) && (b <=? interval1 c))
            || (interval1 c <=? a) || (b <=? interval0 c))
           && uncut a b c) cs
  end.

(** The same about one array of children, by index. *)
Record Laminar (a b : Z) (cs : list IntervalNode) : Prop :=
  mkLaminar {
      lam_chain :
        forall i j, (i < j < length cs)%nat ->
                    interval1 (child_at cs i) <= interval0 (child_at cs j);
      lam_proper :
        forall j, (j < length cs)%nat ->
                  interval0 (child_at cs j) < interval1 (child_at cs j);
      lam_uncut :
        forall j, (j < length cs)%nat ->
                  (interval0 (child_at cs j) <= a
                   /\ b <= interval1 (child_at cs j))
                  \/ interval1 (child_at cs j) <= a
                  \/ b <= interval0 (child_at cs j)
    }.

(** Some child from the first relevant one on meets [a,b) and passes the
    test for it: what the scan of [checkTagDFS] needs. *)
Definition Covered (tg : string) (a b : Z) (cs : list IntervalNode) : Prop :=
  exists j,
    (j < length cs)%nat /\ (firstRelevant cs a <= j)%nat
    /\ interval0 (child_at cs j) < b /\ a < interval1 (child_at cs j)
    /\ checkTagDFS (child_at cs j) tg a b = true.

(** A tree with nested and adjacent nodes: "y" on [3,6) with "z" on
    [4,6) inside it, and "w" on [6,8). *)
Definition demoLayers : TaggedIntervalTree :=
  addTag (addTag (addTag (createTaggedIntervalTree 0 10) "y" 3 6) "z" 4 6)
    "w" 6 8.

(** ** Notions for the further properties *)

(** All nodes of a tree, parents before children. *)
Fixpoint subnodes (n : IntervalNode) : list IntervalNode :=
  match n with
  | mkNode a b t cs => mkNode a b t cs :: flat_map subnodes cs
  end.

(** Some node of the tree carries the tag [tg] and contains [s,e). *)
Definition tagCovers (n : IntervalNode) (tg : string) (s e : Z) : Prop :=
  exists x, In x (subnodes n)
            /\ tag_is (tag x) tg = true
            /\ interval0 x <= s /\ e <= interval1 x.

(** The nodes of a tree that do not carry the tag [tg], parents before
    children, each with its interval and its tag. *)
Fixpoint others (tg : string) (n : IntervalNode)
  : list (Z * Z * option string) :=
  match n with
  | mkNode a b t cs =>
      (if tag_is t tg then [] else [(a, b, t)]) ++ flat_map (others tg) cs
  end.

(** An insert point names a non-empty interval. *)
Definition pointProper (p : InsertPoint) : Prop := ip_start p < ip_end p.

(** On a node that does not carry the tag, [rec] keeps the node's own
    interval and tag and asks the caller neither to delete nor to split
    the node. *)
Definition KeepsFrame (rec : RecFun) : Prop :=
  forall node tg s e node' r,
    tag_is (tag node) tg = false ->
    rec node tg s e = Some (node', r) ->
    interval0 node' = interval0 node
    /\ interval1 node' = interval1 node
    /\ tag node' = tag node
    /\ entireOrInside (state r) = false.

(** What one marker adds to [resultSize]: the length of its tag and two
    characters for an opening, three for a closing marker. *)
Definition markerSize (m : TagMarker) : Z :=
  Z.of_nat (String.length (markerTag m)) + (if isOpening m then 2 else 3).

(** The [int resultSize] that [getFormattedText] computes for its buffer:
    the length of the text and one for the terminator, then the loop over
    the markers. *)
Definition resultSize (text : string) (markers : list TagMarker) : Z :=
  fold_left (fun size m => wrap32 (size + markerSize m)) markers
    (wrap32 (wrap32 (Z.of_nat (String.length text)) + 1)).

(** The same sum without the limits of [int]. *)
Definition exactSize (text : string) (markers : list TagMarker) : Z :=
  Z.of_nat (String.length text) + 1
  + fold_right (fun m acc => markerSize m + acc) 0 markers.

(** [c] carries the tag and shares a point with [s,e). *)
Definition touched (tg : string) (s e : Z) (c : IntervalNode) : bool :=
  tag_is (tag c) tg && (s <? interval1 c) && (interval0 c <? e).

(** What is left of a childless node when the tag is removed on [s,e):
    a node that is not touched stays; of a touched node the part before
    [s] and the part from [e] on stay, each as a node of its own. *)
Definition remains (tg : string) (s e : Z) (c : IntervalNode)
  : list IntervalNode :=
  if touched tg s e c then
    (if interval0 c <? s then [mkNode (interval0 c) s (Some tg) []] else [])
    ++ (if e <? interval1 c then [mkNode e (interval1 c) (Some tg) []] else [])
  else [c].

(** What is left of a row of childless nodes: the remains of every child,
    in the order of the children. *)
Definition cut (tg : string) (s e : Z) (cs : list IntervalNode)
  : list IntervalNode :=
  flat_map (remains tg s e) cs.

(** A childless node with a non-empty interval inside [n0,n1). *)
Definition slotLeaf (n0 n1 : Z) (c : IntervalNode) : Prop :=
  children c = []
  /\ n0 <= interval0 c /\ interval0 c < interval1 c /\ interval1 c <= n1.

(** The children of a flat node: childless nodes inside [n0,n1), each
    ending where the next one starts or before. *)
Definition Row (n0 n1 : Z) (cs : list IntervalNode) : Prop :=
  Forall (slotLeaf n0 n1) cs
  /\ StronglySorted (fun c d => interval1 c <= interval0 d) cs.

(** A tree of depth one in good order: the invariants hold, no node is
    empty and the children of the root have no children. *)
Definition flat (n : IntervalNode) : bool :=
  invariants n && proper n
  && forallb (fun c => negb (hasChildren c)) (children n).

(** [c] leaves [a,b) free for the tag: it does not meet [a,b), and when it
    carries the tag it does not even touch it. *)
Definition clearOf (tg : string) (a b : Z) (c : IntervalNode) : bool :=
  if tag_is (tag c) tg
  then (interval1 c <? a) || (b <? interval0 c)
  else (interval1 c <=? a) || (b <=? interval0 c).
(** * Properties *)

(** ** Boolean comparisons *)

Lemma geb_true (a b : Z) : (a >=? b) = true <-> b <= a.
Proof. rewrite Z.geb_leb. apply Z.leb_le. Qed.

Lemma geb_false (a b : Z) : (a >=? b) = false <-> a < b.
Proof. rewrite Z.geb_leb. apply Z.leb_gt. Qed.

Lemma gtb_true (a b : Z) : (a >? b) = true <-> b < a.
Proof. rewrite Z.gtb_ltb. apply Z.ltb_lt. Qed.

Lemma gtb_false (a b : Z) : (a >? b) = false <-> a <= b.
Proof. rewrite Z.gtb_ltb. apply Z.ltb_ge. Qed.

(** Turns the boolean tests among the hypotheses into inequalities. *)
Ltac zbool :=
  repeat match goal with
    | H : (_ && _) = true |- _ => apply andb_true_iff in H; destruct H
    | H : (_ || _) = false |- _ => apply orb_false_iff in H; destruct H
    | H : (_ >=? _) = true |- _ => apply geb_true in H
    | H : (_ >=? _) = false |- _ => apply geb_false in H
    | H : (_ >? _) = true |- _ => apply gtb_true in H
    | H : (_ >? _) = false |- _ => apply gtb_false in H
    | H : (_ <=? _) = true |- _ => apply Z.leb_le in H
    | H : (_ <=? _) = false |- _ => apply Z.leb_gt in H
    | H : (_ <? _) = true |- _ => apply Z.ltb_lt in H
    | H : (_ <? _) = false |- _ => apply Z.ltb_ge in H
    | H : (_ =? _) = true |- _ => apply Z.eqb_eq in H
    | H : (_ =? _) = false |- _ => apply Z.eqb_neq in H
    | H : (_ <? _)%nat = true |- _ => apply Nat.ltb_lt in H
    | H : (_ <? _)%nat = false |- _ => apply Nat.ltb_ge in H
    | H : (_ <=? _)%nat = true |- _ => apply Nat.leb_le in H
    | H : (_ <=? _)%nat = false |- _ => apply Nat.leb_gt in H
    end.

(** ** Induction over nodes *)

Lemma IntervalNode_rect_list (P : IntervalNode -> Prop) :
  (forall a b t cs, Forall P cs -> P (mkNode a b t cs)) ->
  forall n, P n.
Proof.
  intros H. fix IH 1. intros [a b t cs]. apply H.
  induction cs as [|c rest IHcs]; constructor; [apply IH|exact IHcs].
Qed.

(** ** More fuel never changes a result *)

Lemma removeTagDFS_S f n t s e :
  removeTagDFS (S f) n t s e = removeTagBody (removeTagDFS f) t f n s e.
Proof. reflexivity. Qed.

Section FuelMonotone.
Variables rec1 rec2 : RecFun.
Hypothesis Hle : rec_le rec1 rec2.
Variable tg : string.

Lemma insideLoop_mono es ee l r :
  insideLoop rec1 tg es ee l = Some r -> insideLoop rec2 tg es ee l = Some r.
Proof.
  revert r; induction l as [|c rest IH]; intros r H; simpl in *; [assumption|].
  destruct (interval1 c <=? es).
  - destruct (insideLoop rec1 tg es ee rest) as [p|]; [|discriminate].
    rewrite (IH _ eq_refl). assumption.
  - destruct (interval0 c >=? ee).
    + destruct (insideLoop rec1 tg es ee rest) as [p|]; [|discriminate].
      rewrite (IH _ eq_refl). assumption.
    + destruct (rec1 c tg es ee) as [p|] eqn:E; [|discriminate].
      rewrite (Hle _ _ _ _ _ E). destruct p as [c1 rr].
      destruct (insideLoop rec1 tg es ee rest) as [p|]; [|discriminate].
      rewrite (IH _ eq_refl). assumption.
Qed.

Lemma coverLoop_mono es ee l r :
  coverLoop rec1 tg es ee l = Some r -> coverLoop rec2 tg es ee l = Some r.
Proof.
  revert r; induction l as [|c rest IH]; intros r H; simpl in *; [assumption|].
  destruct ((interval0 c <? ee) && (interval1 c >? es)).
  - destruct (rec1 c tg es ee) as [p|] eqn:E; [|discriminate].
    rewrite (Hle _ _ _ _ _ E). destruct p as [c1 rr].
    destruct (coverLoop rec1 tg es ee rest) as [p|]; [|discriminate].
    rewrite (IH _ eq_refl). assumption.
  - destruct (coverLoop rec1 tg es ee rest) as [p|]; [|discriminate].
    rewrite (IH _ eq_refl). assumption.
Qed.

Lemma removeLeftLoop_mono k k' cs es ee i marked r :
  (k <= k')%nat ->
  removeLeftLoop rec1 tg k cs es ee i marked = Some r ->
  removeLeftLoop rec2 tg k' cs es ee i marked = Some r.
Proof.
  revert k' cs i marked r; induction k as [|k IH]; intros k' cs i marked r Hk H;
    [discriminate|].
  destruct k' as [|k']; [lia|]. assert (Hk' : (k <= k')%nat) by lia.
  simpl in *.
  destruct (i <? length cs)%nat; [|assumption].
  destruct (interval1 (child_at cs i) <=? ee); [now apply IH|].
  destruct (interval0 (child_at cs i) <? ee); [|now apply IH].
  destruct (rec1 (child_at cs i) tg es ee) as [[c1 rr]|] eqn:E; [|discriminate].
  rewrite (Hle _ _ _ _ _ E).
  destruct (removed rr && RemoveState_eqb (state rr) REMOVE_ENTIRE_NODE);
    now apply IH.
Qed.

Lemma removeRightLoop_mono k k' cs es i marked r :
  (k <= k')%nat ->
  removeRightLoop rec1 tg k cs es i marked = Some r ->
  removeRightLoop rec2 tg k' cs es i marked = Some r.
Proof.
  revert k' cs i marked r; induction k as [|k IH]; intros k' cs i marked r Hk H;
    [discriminate|].
  destruct k' as [|k']; [lia|]. assert (Hk' : (k <= k')%nat) by lia.
  simpl in *.
  destruct (i <? length cs)%nat; [|assumption].
  destruct (interval0 (child_at cs i) >=? es); [now apply IH|].
  destruct (interval1 (child_at cs i) >? es); [|now apply IH].
  destruct (rec1 (child_at cs i) tg es (interval1 (child_at cs i)))
    as [[c1 rr]|] eqn:E; [|discriminate].
  rewrite (Hle _ _ _ _ _ E).
  destruct (removed rr && RemoveState_eqb (state rr) REMOVE_ENTIRE_NODE);
    now apply IH.
Qed.

Lemma removeChildrenLoop_mono k k' node s e es ee i rem r :
  (k <= k')%nat ->
  removeChildrenLoop rec1 tg k node s e es ee i rem = Some r ->
  removeChildrenLoop rec2 tg k' node s e es ee i rem = Some r.
Proof.
  revert k' node i rem r; induction k as [|k IH]; intros k' node i rem r Hk H;
    [discriminate|].
  destruct k' as [|k']; [lia|]. assert (Hk' : (k <= k')%nat) by lia.
  simpl in *.
  destruct (i <? numChildren node)%nat; [|assumption].
  destruct ((ee <=? interval0 (child_at (children node) i))
            || (es >=? interval1 (child_at (children node) i)));
    [now apply IH|].
  destruct (rec1 (child_at (children node) i) tg s e) as [[c1 rr]|] eqn:E;
    [|discriminate].
  rewrite (Hle _ _ _ _ _ E).
  destruct (removed rr); [|now apply IH].
  destruct (entireOrInside (state rr)).
  - destruct (fst (remainingInterval rr) <? snd (remainingInterval rr));
      [|now apply IH].
    match type of H with
    | match ?x with _ => _ end = _ => destruct x as [[n3 r3]|] eqn:E2; [|discriminate]
    end.
    rewrite (Hle _ _ _ _ _ E2). now apply IH.
  - destruct (fst (remainingInterval rr) <? snd (remainingInterval rr));
      [|now apply IH].
    match type of H with
    | match ?x with _ => _ end = _ => destruct x as [[n3 r3]|] eqn:E2; [|discriminate]
    end.
    rewrite (Hle _ _ _ _ _ E2). now apply IH.
Qed.

Lemma removeTagBody_mono k k' node s e r :
  (k <= k')%nat ->
  removeTagBody rec1 tg k node s e = Some r ->
  removeTagBody rec2 tg k' node s e = Some r.
Proof.
  intros Hk H. unfold removeTagBody in *.
  destruct (Z.max s (interval0 node) >=? Z.min e (interval1 node)); [assumption|].
  destruct (tag_is (tag node) tg && (Z.max s (interval0 node) >? interval0 node)
            && (Z.min e (interval1 node) <? interval1 node)).
  { destruct (insideLoop rec1 tg _ _ _) as [p|] eqn:E; [|discriminate].
    rewrite (insideLoop_mono _ _ _ _ E). assumption. }
  destruct (tag_is (tag node) tg && (Z.max s (interval0 node) <=? interval0 node)
            && (Z.min e (interval1 node) <? interval1 node)).
  { destruct (removeLeftLoop rec1 tg _ _ _ _ _ _) as [p|] eqn:E; [|discriminate].
    rewrite (removeLeftLoop_mono _ _ _ _ _ _ _ _ Hk E). assumption. }
  destruct (tag_is (tag node) tg && (Z.max s (interval0 node) >? interval0 node)
            && (Z.min e (interval1 node) >=? interval1 node)).
  { destruct (removeRightLoop rec1 tg _ _ _ _ _) as [p|] eqn:E; [|discriminate].
    rewrite (removeRightLoop_mono _ _ _ _ _ _ _ Hk E). assumption. }
  destruct (tag_is (tag node) tg && (Z.max s (interval0 node) <=? interval0 node)
            && (Z.min e (interval1 node) >=? interval1 node)).
  { destruct (coverLoop rec1 tg _ _ _) as [p|] eqn:E; [|discriminate].
    rewrite (coverLoop_mono _ _ _ _ E). assumption. }
  destruct (removeChildrenLoop rec1 tg _ _ _ _ _ _ _ _) as [p|] eqn:E; [|discriminate].
  rewrite (removeChildrenLoop_mono _ _ _ _ _ _ _ _ _ _ Hk E). assumption.
Qed.
End FuelMonotone.

Lemma removeTagDFS_mono fuel fuel' :
  (fuel <= fuel')%nat -> rec_le (removeTagDFS fuel) (removeTagDFS fuel').
Proof.
  revert fuel'; induction fuel as [|f IH]; intros fuel' Hf node tg s e r H;
    [discriminate|].
  destruct fuel' as [|f']; [lia|]. simpl in *.
  eapply removeTagBody_mono; [apply IH with (fuel' := f')| |exact H]; lia.
Qed.

Lemma removeTag_mono fuel fuel' tree tg s e r :
  (fuel <= fuel')%nat ->
  removeTag fuel tree tg s e = Some r -> removeTag fuel' tree tg s e = Some r.
Proof.
  intros Hf. unfold removeTag. destruct (s >=? e); [trivial|].
  destruct (removeTagDFS fuel (root tree) tg s e) as [[n rr]|] eqn:E;
    [|discriminate].
  rewrite (removeTagDFS_mono fuel fuel' Hf _ _ _ _ _ E). trivial.
Qed.

(** ** Insertion on a childless node, and the merge law *)

Lemma findInsertionPoint_single (c : IntervalNode) :
  findInsertionPoint [c] (interval0 c) = O.
Proof.
  unfold findInsertionPoint. cbn. unfold child_at. cbn.
  rewrite Z.eqb_refl. reflexivity.
Qed.

Lemma addTagDFS_childless (n0 n1 : Z) (t : option string) (tg : string)
      (a b : Z) :
  tag_is t tg = false -> n0 <= a -> a < b -> b <= n1 ->
  addTagDFS (mkNode n0 n1 t []) tg a b
  = mkNode n0 n1 t [mkNode a b (Some tg) []].
Proof.
  intros Ht H0 Hab H1. cbn.
  rewrite (Z.max_l a n0), (Z.min_l b n1) by lia.
  destruct (a >=? b) eqn:E; [zbool; lia|].
  rewrite Ht. reflexivity.
Qed.

(** C6.  Merge law: in a fresh tree whose domain contains [0,20), adding
    "x" on [0,10) and then on [10,20) leaves the root with exactly one
    child, the node [0,20) tagged "x". *)
Theorem merge_law_adjacent_spans (A B : Z) :
  A <= 0 -> 20 <= B ->
  root (addTag (addTag (createTaggedIntervalTree A B) "x" 0 10) "x" 10 20)
  = mkNode A B None [mkNode 0 20 (Some "x"%string) []].
Proof.
  intros HA HB.
  unfold addTag, createTaggedIntervalTree, createIntervalNode. cbn.
  rewrite (Z.max_l 0 A), (Z.min_l 10 B) by lia. cbn.
  rewrite (Z.max_l 10 A), (Z.min_l 20 B) by lia. cbn.
  reflexivity.
Qed.

Lemma merge_law_adjacent_spans_witness :
  0 <= 0 /\ 20 <= 20
  /\ root (addTag (addTag (createTaggedIntervalTree 0 20) "x" 0 10) "x" 10 20)
     = mkNode 0 20 None [mkNode 0 20 (Some "x"%string) []].
Proof.
  split; [lia|]. split; [lia|].
  apply (merge_law_adjacent_spans 0 20); lia.
Defined.

(** C9.  An insertion with [start >= end], or with an interval that does
    not meet the domain of the tree, returns the tree as it was. *)
Theorem addTag_invalid_interval_is_noop
        (t : TaggedIntervalTree) (tg : string) (start end_ : Z) :
  start >= end_
  \/ end_ <= interval0 (root t) \/ interval1 (root t) <= start ->
  addTag t tg start end_ = t.
Proof.
  intros H. unfold addTag.
  destruct (start >=? end_) eqn:E; [reflexivity|].
  destruct t as [[n0 n1 nt cs]]. cbn in *.
  destruct (Z.max start n0 >=? Z.min end_ n1) eqn:E2; [reflexivity|].
  zbool. lia.
Qed.

Lemma addTag_invalid_interval_is_noop_witness :
  (7 >= 3 \/ 3 <= interval0 (root (createTaggedIntervalTree 0 10))
   \/ interval1 (root (createTaggedIntervalTree 0 10)) <= 7)
  /\ addTag (createTaggedIntervalTree 0 10) "x" 7 3
     = createTaggedIntervalTree 0 10.
Proof.
  split; [left; lia|].
  apply (addTag_invalid_interval_is_noop
           (createTaggedIntervalTree 0 10) "x" 7 3).
  left; lia.
Defined.

(** ** Where the code leaves the data model *)

(** C2.  On the domain [0,4): after "x" on [0,1) and "y" on [0,2) the tree
    satisfies the invariants; adding "x" on [1,2) extends the node
    x[0,1) to [0,2) across its sibling y[1,2), so two siblings overlap. *)
Theorem siblings_overlap_after_left_merge :
  let t2 := addTag (addTag (createTaggedIntervalTree 0 4) "x" 0 1) "y" 0 2 in
  let t3 := addTag t2 "x" 1 2 in
  reachable t3
  /\ invariants (root t2) = true
  /\ root t3
     = mkNode 0 4 None
         [mkNode 0 2 (Some "x"%string) [mkNode 0 1 (Some "y"%string) []];
          mkNode 1 2 (Some "y"%string) []]
  /\ invariants (root t3) = false.
Proof.
  cbv zeta. split; [repeat constructor|].
  split; [reflexivity|]. split; reflexivity.
Qed.

(** C7.  On the domain [0,4) with "x" on [0,2): the first [addTag] of "y"
    on [1,3) creates y[1,2) under x and y[2,3) beside it; the second one
    stretches y[2,3) to [1,3) across x[0,2). *)
Theorem second_addTag_changes_tree :
  let t := addTag (createTaggedIntervalTree 0 4) "x" 0 2 in
  reachable t
  /\ root (addTag t "y" 1 3)
     = mkNode 0 4 None
         [mkNode 0 2 (Some "x"%string) [mkNode 1 2 (Some "y"%string) []];
          mkNode 2 3 (Some "y"%string) []]
  /\ root (addTag (addTag t "y" 1 3) "y" 1 3)
     = mkNode 0 4 None
         [mkNode 0 2 (Some "x"%string) [mkNode 1 2 (Some "y"%string) []];
          mkNode 1 3 (Some "y"%string) []]
  /\ addTag (addTag t "y" 1 3) "y" 1 3 <> addTag t "y" 1 3.
Proof.
  cbv zeta. split; [repeat constructor|].
  split; [reflexivity|]. split; [reflexivity|].
  intros H. apply (f_equal root) in H. vm_compute in H. discriminate H.
Qed.

(** C4.  The tree [x[1,2) [ y[1,1) ]] on the domain [0,4) is built by four
    operations.  There [addTag] of "y" on [1,2) merges into the empty node
    y[1,1) without stretching its end, and [removeTag] of "y" on [1,2)
    finds nothing to remove. *)
Theorem round_trip_fails_after_right_merge :
  let t := mkTree (mkNode 0 4 None
                     [mkNode 1 2 (Some "x"%string)
                        [mkNode 1 1 (Some "y"%string) []]]) in
  reachable t
  /\ addTag t "y" 1 2 = t
  /\ forall fuel, (4 <= fuel)%nat ->
       removeTag fuel (addTag t "y" 1 2) "y" 1 2 = Some (t, false).
Proof.
  cbv zeta. split.
  - apply (reach_remove
             (mkTree (mkNode 0 4 None
                        [mkNode 1 2 (Some "x"%string)
                           [mkNode 0 2 (Some "y"%string) []]]))
             _ "y" 1 2 5 true).
    + apply (reach_remove
               (addTag (addTag (createTaggedIntervalTree 0 4) "x" 0 2)
                  "y" 0 2)
               _ "x" 0 1 5 true).
      * repeat constructor.
      * reflexivity.
    + reflexivity.
  - split; [reflexivity|].
    intros fuel Hf. apply (removeTag_mono 4 fuel); [exact Hf|reflexivity].
Qed.

(** ** Partial removal *)

(** At a node without a tag that contains [s,e) the body of [removeTagDFS]
    is the loop over the children followed by the clipping loop. *)
Lemma removeTagBody_untagged (rec : RecFun) (tg : string) (k : nat)
      (node : IntervalNode) (s e : Z) :
  tag node = None -> interval0 node <= s -> e <= interval1 node -> s < e ->
  removeTagBody rec tg k node s e =
  match removeChildrenLoop rec tg k node s e s e
          (firstRelevant (children node) s) false with
  | None => None
  | Some (node1, rem) =>
      Some (set_children node1 (map (clipChild node1) (children node1)),
            mkResult rem PROCESSED_CHILDREN (e, e) [])
  end.
Proof.
  intros Ht H0 H1 Hlt. unfold removeTagBody.
  rewrite (Z.max_l s (interval0 node)), (Z.min_l e (interval1 node)) by lia.
  rewrite Ht. cbn [tag_is andb].
  destruct (s >=? e) eqn:E; [zbool; lia|].
  rewrite (Z.max_l e s) by lia. reflexivity.
Qed.

(** C5.  In a fresh tree whose domain contains [0,100), after "x" was
    added on [0,100) and removed on [40,60), the removal has returned
    true, and "x" is found on [0,40) and on [60,100) but not on [40,60). *)
Theorem partial_removal_keeps_outer_coverage (A B : Z) :
  A <= 0 -> 100 <= B ->
  exists t2,
    (forall fuel, (5 <= fuel)%nat ->
       removeTag fuel (addTag (createTaggedIntervalTree A B) "x" 0 100)
         "x" 40 60 = Some (t2, true))
    /\ hasTag t2 "x" 0 40 = true
    /\ hasTag t2 "x" 60 100 = true
    /\ hasTag t2 "x" 40 60 = false.
Proof.
  intros HA HB.
  exists (mkTree (mkNode A B None
                    [mkNode 0 40 (Some "x"%string) [];
                     mkNode 60 100 (Some "x"%string) []])).
  split.
  - intros fuel Hf. apply (removeTag_mono 5 fuel); [exact Hf|].
    assert (Hadd : addTag (createTaggedIntervalTree A B) "x" 0 100
                   = mkTree (mkNode A B None
                               [mkNode 0 100 (Some "x"%string) []])).
    { unfold addTag, createTaggedIntervalTree, createIntervalNode. cbn.
      rewrite (Z.max_l 0 A), (Z.min_l 100 B) by lia. reflexivity. }
    rewrite Hadd. unfold removeTag.
    cbn [Z.geb Z.compare Pos.compare Pos.compare_cont root].
    rewrite removeTagDFS_S, removeTagBody_untagged
      by (cbn; first [reflexivity | lia]).
    match goal with
    | |- context [removeChildrenLoop ?r ?t ?k ?n ?s ?e ?es ?ee ?i ?b] =>
        let v :=
          eval vm_compute in (removeChildrenLoop r t k n s e es ee i b) in
        change (removeChildrenLoop r t k n s e es ee i b) with v
    end.
    unfold clipChild. cbn.
    replace (0 <? A) with false by (symmetry; apply Z.ltb_ge; lia).
    replace (60 <? A) with false by (symmetry; apply Z.ltb_ge; lia).
    cbn.
    replace (40 >? B) with false by (symmetry; apply gtb_false; lia).
    replace (100 >? B) with false by (symmetry; apply gtb_false; lia).
    reflexivity.
  - vm_compute. auto.
Qed.

Lemma partial_removal_keeps_outer_coverage_witness :
  0 <= 0 /\ 100 <= 100
  /\ exists t2,
      (forall fuel, (5 <= fuel)%nat ->
         removeTag fuel (addTag (createTaggedIntervalTree 0 100) "x" 0 100)
           "x" 40 60 = Some (t2, true))
      /\ hasTag t2 "x" 0 40 = true
      /\ hasTag t2 "x" 60 100 = true
      /\ hasTag t2 "x" 40 60 = false.
Proof.
  split; [lia|]. split; [lia|].
  apply (partial_removal_keeps_outer_coverage 0 100); lia.
Defined.

(** ** The order of the markers *)

Lemma wrap32_in_range (z : Z) : INT_MIN <= z <= INT_MAX -> wrap32 z = z.
Proof.
  unfold INT_MIN, INT_MAX, wrap32. intros H.
  rewrite Z.mod_small by lia. lia.
Qed.

Lemma markerBefore_trans (x y z : TagMarker) :
  markerBefore x y -> markerBefore y z -> markerBefore x z.
Proof.
  unfold markerBefore. intros [Hxy|[Exy Oxy]] [Hyz|[Eyz Oyz]].
  - left; lia.
  - left; lia.
  - left; lia.
  - right. split; [lia|]. intros H; apply Oyz, Oxy, H.
Qed.

Lemma compareMarkers_nonpositive (a b : TagMarker) :
  INT_MIN <= position a - position b <= INT_MAX ->
  compareMarkers a b <= 0 -> markerBefore a b.
Proof.
  unfold compareMarkers, markerBefore. intros Hfit H.
  destruct (position a =? position b) eqn:E; zbool.
  - right. split; [assumption|]. intros Ho. rewrite Ho in H. lia.
  - left. rewrite wrap32_in_range in H by assumption. lia.
Qed.

Lemma compareMarkers_nonnegative (a b : TagMarker) :
  INT_MIN <= position a - position b <= INT_MAX ->
  0 <= compareMarkers a b -> markerBefore b a.
Proof.
  unfold compareMarkers, markerBefore. intros Hfit H.
  destruct (position a =? position b) eqn:E; zbool.
  - right. split; [lia|]. intros _.
    destruct (isOpening a); [reflexivity|lia].
  - left. rewrite wrap32_in_range in H by assumption. lia.
Qed.

Lemma insertSorted_perm cmp x l : Permutation (x :: l) (insertSorted cmp x l).
Proof.
  induction l as [|y rest IH]; cbn; [reflexivity|].
  destruct (cmp x y <=? 0); [reflexivity|].
  rewrite perm_swap. apply perm_skip, IH.
Qed.

Lemma insertionSort_perm cmp l : Permutation l (insertionSort cmp l).
Proof.
  induction l as [|x rest IH]; cbn; [constructor|].
  rewrite <- insertSorted_perm. apply perm_skip, IH.
Qed.

Section SoundInsertion.
Variable cmp : TagMarker -> TagMarker -> Z.
Variable le : TagMarker -> TagMarker -> Prop.
Hypothesis le_trans : forall x y z, le x y -> le y z -> le x z.

Lemma insertSorted_sorted x l :
  (forall y, In y l -> cmp x y <= 0 -> le x y) ->
  (forall y, In y l -> 0 <= cmp x y -> le y x) ->
  StronglySorted le l -> StronglySorted le (insertSorted cmp x l).
Proof.
  intros Hneg Hpos Hs. induction Hs as [|y rest Hs IH Hall]; cbn.
  - repeat constructor.
  - destruct (cmp x y <=? 0) eqn:E; zbool.
    + assert (Hxy : le x y) by (apply Hneg; [left; reflexivity|assumption]).
      constructor; [constructor; assumption|].
      constructor; [assumption|].
      rewrite Forall_forall in *. intros z Hz. apply (le_trans x y z); auto.
    + assert (Hyx : le y x) by (apply Hpos; [left; reflexivity|lia]).
      constructor.
      * apply IH; intros z Hz; [apply Hneg|apply Hpos]; right; assumption.
      * rewrite Forall_forall in *. intros z Hz.
        apply (Permutation_in _ (Permutation_sym (insertSorted_perm cmp x rest)))
          in Hz.
        destruct Hz as [<-|Hz]; auto.
Qed.

Lemma insertionSort_sorted l :
  (forall x y, In x l -> In y l -> cmp x y <= 0 -> le x y) ->
  (forall x y, In x l -> In y l -> 0 <= cmp x y -> le y x) ->
  StronglySorted le (insertionSort cmp l).
Proof.
  induction l as [|x rest IH]; intros Hneg Hpos; cbn; [constructor|].
  apply insertSorted_sorted.
  - intros y Hy. apply Hneg; [left; reflexivity|right].
    apply (Permutation_in _ (Permutation_sym (insertionSort_perm cmp rest))), Hy.
  - intros y Hy. apply Hpos; [left; reflexivity|right].
    apply (Permutation_in _ (Permutation_sym (insertionSort_perm cmp rest))), Hy.
  - apply IH; intros a b Ha Hb; [apply Hneg|apply Hpos]; right; assumption.
Qed.
End SoundInsertion.

Lemma insertionSort_sound : SoundComparatorSort insertionSort.
Proof.
  intros cmp le l Htrans Hneg Hpos. split.
  - apply insertionSort_perm.
  - apply insertionSort_sorted; assumption.
Qed.

Lemma StronglySorted_nth (le : TagMarker -> TagMarker -> Prop) ms :
  StronglySorted le ms ->
  forall i j d, (i < j < length ms)%nat -> le (nth i ms d) (nth j ms d).
Proof.
  induction 1 as [|x rest Hs IH Hall]; intros i j d Hij; cbn in Hij; [lia|].
  destruct j as [|j]; [lia|]. destruct i as [|i]; cbn.
  - rewrite Forall_forall in Hall. apply Hall, nth_In. lia.
  - apply IH. lia.
Qed.

Lemma sorted_markers_ordered ms :
  StronglySorted markerBefore ms -> markersOrdered ms.
Proof.
  intros Hs i j d Hij.
  pose proof (StronglySorted_nth _ _ Hs i j d Hij) as H.
  unfold markerBefore in H. destruct H as [H|[He Ho]].
  - split; [lia|]. intros E; lia.
  - split; [lia|]. intros _ [Hi Hj]. rewrite (Ho Hi) in Hj. discriminate.
Qed.

Lemma positions_in_text_fit ms :
  Forall (fun m => 0 <= position m <= INT_MAX) ms -> differencesFit ms.
Proof.
  rewrite Forall_forall. intros H a b Ha Hb.
  pose proof (H a Ha). pose proof (H b Hb).
  unfold INT_MIN, INT_MAX in *. lia.
Qed.

Lemma collectMarkers_length n : length (collectMarkers n) = countNodes n.
Proof.
  induction n as [a b t cs IH] using IntervalNode_rect_list. cbn.
  rewrite length_app. f_equal; [destruct t; reflexivity|].
  induction IH as [|c rest Hc _ IHrest]; cbn; [reflexivity|].
  rewrite length_app, Hc, IHrest. reflexivity.
Qed.

(** Where the order of the markers does hold.  Let [qsort] be a sorting
    routine that is sound for comparators (as insertion sort is), and let
    the positions of the markers be such that their differences fit in an
    [int].  Then the marker list of [getFormattedText] is a rearrangement
    of the collected markers, its positions ascend, and of two markers at
    one position an opening one never precedes a closing one. *)
Lemma markers_sorted_closing_first
        (qsort : (TagMarker -> TagMarker -> Z) -> list TagMarker -> list TagMarker)
        (tree : TaggedIntervalTree) :
  SoundComparatorSort qsort ->
  differencesFit (collectMarkers (root tree)) ->
  Permutation (collectMarkers (root tree)) (sortedMarkers qsort tree)
  /\ markersOrdered (sortedMarkers qsort tree).
Proof.
  intros Hq Hfit. unfold sortedMarkers.
  destruct (Hq compareMarkers markerBefore (collectMarkers (root tree)))
    as [Hperm Hsorted].
  - exact markerBefore_trans.
  - intros x y Hx Hy. apply compareMarkers_nonpositive, Hfit; assumption.
  - intros x y Hx Hy. apply compareMarkers_nonnegative, Hfit; assumption.
  - split; [exact Hperm|]. apply sorted_markers_ordered, Hsorted.
Qed.

Lemma markers_sorted_closing_first_witness :
  SoundComparatorSort insertionSort
  /\ differencesFit (collectMarkers (root demoTree))
  /\ Permutation (collectMarkers (root demoTree)) (sortedMarkers insertionSort demoTree)
  /\ markersOrdered (sortedMarkers insertionSort demoTree).
Proof.
  assert (Hfit : differencesFit (collectMarkers (root demoTree))).
  { apply positions_in_text_fit.
    let v := eval vm_compute in (collectMarkers (root demoTree)) in
    change (collectMarkers (root demoTree)) with v.
    repeat (apply Forall_cons; [cbn; unfold INT_MAX; lia|]).
    apply Forall_nil. }
  split; [exact insertionSort_sound|]. split; [exact Hfit|].
  apply (markers_sorted_closing_first insertionSort demoTree);
    [exact insertionSort_sound | exact Hfit].
Defined.


(** ** A removal that reports [false] leaves the tree alone *)

Lemma set_children_same n : set_children n (children n) = n.
Proof. destruct n; reflexivity. Qed.

Lemma replace_at_same i cs :
  (i < length cs)%nat -> replace_at i (child_at cs i) cs = cs.
Proof.
  revert i; induction cs as [|c rest IH]; intros i Hi; cbn in *; [lia|].
  destruct i as [|i]; [reflexivity|].
  unfold child_at in *. cbn. rewrite IH by lia. reflexivity.
Qed.

Lemma child_at_In i cs : (i < length cs)%nat -> In (child_at cs i) cs.
Proof. intros Hi. apply nth_In, Hi. Qed.

Lemma nested_children n c :
  nested n = true -> In c (children n) ->
  within (interval0 n) (interval1 n) c = true /\ nested c = true.
Proof.
  destruct n as [a b t cs]. cbn. rewrite forallb_forall.
  intros H Hc. apply andb_true_iff, H, Hc.
Qed.

Lemma invariants_nested n : invariants n = true -> nested n = true.
Proof.
  induction n as [a b t cs IH] using IntervalNode_rect_list. cbn.
  intros H. apply andb_true_iff in H. destruct H as [_ H].
  rewrite forallb_forall in *. rewrite Forall_forall in IH.
  intros c Hc. specialize (H c Hc). apply andb_true_iff in H.
  destruct H as [Hw Hi]. rewrite Hw. cbn. apply IH; assumption.
Qed.

Lemma clipChild_within parent c :
  within (interval0 parent) (interval1 parent) c = true ->
  clipChild parent c = c.
Proof.
  unfold within, clipChild. intros H. zbool.
  replace (interval0 c <? interval0 parent) with false
    by (symmetry; apply Z.ltb_ge; lia).
  replace (interval1 c >? interval1 parent) with false
    by (symmetry; apply gtb_false; lia).
  reflexivity.
Qed.

Lemma clip_nested n :
  nested n = true -> map (clipChild n) (children n) = children n.
Proof.
  intros Hn. rewrite <- (map_id (children n)) at 2.
  apply map_ext_in. intros c Hc.
  apply clipChild_within, (nested_children n c Hn Hc).
Qed.

Section Unremoved.
Variable rec : RecFun.
Variable tg : string.
Hypothesis Hrec : KeepsUnremoved rec.

Lemma removeChildrenLoop_flag_stays k node s e es ee i n' b :
  removeChildrenLoop rec tg k node s e es ee i true = Some (n', b) ->
  b = true.
Proof.
  revert node i; induction k as [|k IH]; intros node i H; [discriminate|].
  simpl in H.
  destruct (i <? numChildren node)%nat; [|congruence].
  destruct ((ee <=? interval0 (child_at (children node) i))
            || (es >=? interval1 (child_at (children node) i)));
    [exact (IH _ _ H)|].
  destruct (rec (child_at (children node) i) tg s e) as [[c1 r]|];
    [|discriminate].
  destruct (removed r); [|exact (IH _ _ H)].
  destruct (entireOrInside (state r));
    (destruct (fst (remainingInterval r) <? snd (remainingInterval r));
     [|exact (IH _ _ H)]);
    match type of H with
    | match ?x with _ => _ end = _ => destruct x as [[n3 r3]|]; [|discriminate]
    end; exact (IH _ _ H).
Qed.

Lemma removeChildrenLoop_unremoved k node s e es ee i n' :
  nested node = true ->
  removeChildrenLoop rec tg k node s e es ee i false = Some (n', false) ->
  n' = node.
Proof.
  revert i; induction k as [|k IH]; intros i Hn H; [discriminate|].
  simpl in H.
  destruct (i <? numChildren node)%nat eqn:Hi; [|congruence].
  destruct ((ee <=? interval0 (child_at (children node) i))
            || (es >=? interval1 (child_at (children node) i)));
    [exact (IH _ Hn H)|].
  destruct (rec (child_at (children node) i) tg s e) as [[c1 r]|] eqn:Ec;
    [|discriminate].
  destruct (removed r) eqn:Er.
  - exfalso.
    destruct (entireOrInside (state r));
      (destruct (fst (remainingInterval r) <? snd (remainingInterval r));
       [match type of H with
        | match ?x with _ => _ end = _ =>
            destruct x as [[n3 r3]|]; [|discriminate]
        end|]);
      apply removeChildrenLoop_flag_stays in H; discriminate.
  - zbool. unfold numChildren in Hi.
    assert (Hc : c1 = child_at (children node) i).
    { apply (Hrec _ _ _ _ _ _ (proj2 (nested_children node _ Hn
                                        (child_at_In _ _ Hi))) Ec Er). }
    subst c1. rewrite replace_at_same, set_children_same in H by assumption.
    exact (IH _ Hn H).
Qed.

Lemma removeTagBody_unremoved k node s e node' r :
  nested node = true ->
  removeTagBody rec tg k node s e = Some (node', r) ->
  removed r = false -> node' = node.
Proof.
  intros Hn H Hr. unfold removeTagBody in H.
  destruct (Z.max s (interval0 node) >=? Z.min e (interval1 node));
    [congruence|].
  repeat match type of H with
    | (if ?b then _ else _) = _ => destruct b
    | match ?x with Some _ => _ | None => _ end = _ =>
        destruct x as [p|] eqn:E; [|discriminate]
    | (let '(_, _) := ?p in _) = _ => destruct p
    | Some _ = Some _ => injection H as <- <-
    end; try discriminate Hr.
  cbn in Hr. subst b.
  apply removeChildrenLoop_unremoved in E; [|assumption]. subst i.
  rewrite clip_nested, set_children_same by assumption. reflexivity.
Qed.
End Unremoved.

Lemma removeTagDFS_unremoved fuel : KeepsUnremoved (removeTagDFS fuel).
Proof.
  induction fuel as [|f IH]; intros node tg s e node' r Hn H Hr;
    [discriminate|].
  cbn in H. eapply removeTagBody_unremoved; eauto.
Qed.

(** On a tree that satisfies the invariants a removal that reports
    [false] has changed nothing. *)
Lemma removeTag_unremoved
      (fuel : nat) (tree tree' : TaggedIntervalTree) (tg : string)
      (start end_ : Z) :
  invariants (root tree) = true ->
  removeTag fuel tree tg start end_ = Some (tree', false) ->
  tree' = tree.
Proof.
  intros Hinv H. unfold removeTag in H.
  destruct (start >=? end_); [congruence|].
  destruct (removeTagDFS fuel (root tree) tg start end_) as [[n r]|] eqn:E;
    [|discriminate].
  injection H as <- Hr.
  rewrite (removeTagDFS_unremoved fuel _ _ _ _ _ _
             (invariants_nested _ Hinv) E Hr).
  destruct tree; reflexivity.
Qed.

Lemma tagAbsent_children tg n c :
  tagAbsent tg n = true -> In c (children n) -> tagAbsent tg c = true.
Proof.
  destruct n as [a b t cs]. cbn. intros H Hc.
  apply andb_true_iff in H. destruct H as [_ H].
  rewrite forallb_forall in H. apply H, Hc.
Qed.

Lemma tagAbsent_tag tg n : tagAbsent tg n = true -> tag_is (tag n) tg = false.
Proof.
  destruct n as [a b t cs]. cbn. intros H.
  apply andb_true_iff in H. destruct H as [H _].
  apply negb_true_iff, H.
Qed.

Section Absent.
Variable rec : RecFun.
Variable tg : string.
Hypothesis Hkeep : KeepsUnremoved rec.
Hypothesis Habs : ReportsAbsent rec.

Lemma removeChildrenLoop_absent k node s e es ee i n' b :
  nested node = true -> tagAbsent tg node = true ->
  removeChildrenLoop rec tg k node s e es ee i false = Some (n', b) ->
  b = false.
Proof.
  revert i; induction k as [|k IH]; intros i Hn Ha H; [discriminate|].
  simpl in H.
  destruct (i <? numChildren node)%nat eqn:Hi; [|congruence].
  destruct ((ee <=? interval0 (child_at (children node) i))
            || (es >=? interval1 (child_at (children node) i)));
    [exact (IH _ Hn Ha H)|].
  destruct (rec (child_at (children node) i) tg s e) as [[c1 r]|] eqn:Ec;
    [|discriminate].
  zbool. unfold numChildren in Hi.
  pose proof (child_at_In _ _ Hi) as Hin.
  pose proof (proj2 (nested_children node _ Hn Hin)) as Hcn.
  pose proof (Habs _ _ _ _ _ _ Hcn (tagAbsent_children _ _ _ Ha Hin) Ec) as Er.
  rewrite Er in H.
  rewrite (Hkeep _ _ _ _ _ _ Hcn Ec Er) in H.
  rewrite replace_at_same, set_children_same in H by assumption.
  exact (IH _ Hn Ha H).
Qed.

Lemma removeTagBody_absent k node s e node' r :
  nested node = true -> tagAbsent tg node = true ->
  removeTagBody rec tg k node s e = Some (node', r) -> removed r = false.
Proof.
  intros Hn Ha H. unfold removeTagBody in H.
  rewrite (tagAbsent_tag _ _ Ha) in H. cbn [andb] in H.
  destruct (Z.max s (interval0 node) >=? Z.min e (interval1 node)).
  - injection H as <- <-. reflexivity.
  - destruct (removeChildrenLoop rec tg k node s e _ _ _ false)
      as [[n1 b]|] eqn:E; [|discriminate].
    injection H as <- <-. cbn.
    exact (removeChildrenLoop_absent _ _ _ _ _ _ _ _ _ Hn Ha E).
Qed.
End Absent.

Lemma removeTagDFS_absent fuel : ReportsAbsent (removeTagDFS fuel).
Proof.
  induction fuel as [|f IH]; intros node tg s e node' r Hn Ha H;
    [discriminate|].
  simpl in H.
  eapply removeTagBody_absent; eauto using removeTagDFS_unremoved.
Qed.

(** With an empty interval, an interval outside the domain or a tag that
    no node carries, [removeTag] reports [false]. *)
Lemma removeTag_reports_false fuel tree tree' tg s e b :
  invariants (root tree) = true ->
  s >= e \/ e <= interval0 (root tree) \/ interval1 (root tree) <= s
  \/ tagAbsent tg (root tree) = true ->
  removeTag fuel tree tg s e = Some (tree', b) -> b = false.
Proof.
  intros Hinv Hcase H. unfold removeTag in H.
  destruct (s >=? e) eqn:E; [congruence|]. zbool.
  destruct (removeTagDFS fuel (root tree) tg s e) as [[n r]|] eqn:Er;
    [|discriminate].
  injection H as _ <-.
  destruct Hcase as [Hc|[Hc|[Hc|Hc]]]; [lia| | |].
  - destruct fuel as [|f]; [discriminate|]. simpl in Er.
    unfold removeTagBody in Er.
    replace (Z.max s (interval0 (root tree))
             >=? Z.min e (interval1 (root tree))) with true in Er
      by (symmetry; apply geb_true; lia).
    injection Er as _ <-. reflexivity.
  - destruct fuel as [|f]; [discriminate|]. simpl in Er.
    unfold removeTagBody in Er.
    replace (Z.max s (interval0 (root tree))
             >=? Z.min e (interval1 (root tree))) with true in Er
      by (symmetry; apply geb_true; lia).
    injection Er as _ <-. reflexivity.
  - exact (removeTagDFS_absent fuel _ _ _ _ _ _
             (invariants_nested _ Hinv) Hc Er).
Qed.

(** * Termination of the removal *)

(** ** The array operations rearrange the children *)

Lemma insert_at_perm i x cs : Permutation (x :: cs) (insert_at i x cs).
Proof.
  unfold insert_at. rewrite <- (firstn_skipn i cs) at 1.
  apply Permutation_middle.
Qed.

Lemma replace_at_perm i x cs :
  (i < length cs)%nat ->
  Permutation (child_at cs i :: replace_at i x cs) (x :: cs).
Proof.
  revert i; induction cs as [|c rest IH]; intros i Hi; cbn in *; [lia|].
  destruct i as [|i]; unfold child_at; cbn.
  - apply perm_swap.
  - eapply perm_trans; [apply perm_swap|].
    eapply perm_trans; [|apply perm_swap].
    apply perm_skip. apply (IH i). lia.
Qed.

Lemma replace_at_length i x cs : length (replace_at i x cs) = length cs.
Proof.
  revert i; induction cs as [|c rest IH]; intros i; cbn; [reflexivity|].
  destruct i; cbn; [reflexivity|]. rewrite IH. reflexivity.
Qed.

Lemma replace_at_beyond i x cs :
  (length cs <= i)%nat -> replace_at i x cs = cs.
Proof.
  revert i; induction cs as [|c rest IH]; intros i Hi; cbn in *;
    [reflexivity|].
  destruct i; [lia|]. rewrite IH by lia. reflexivity.
Qed.

Lemma remove_at_perm i cs :
  (i < length cs)%nat -> Permutation (child_at cs i :: remove_at i cs) cs.
Proof.
  revert i; induction cs as [|c rest IH]; intros i Hi; cbn in *; [lia|].
  destruct i as [|i]; unfold child_at, remove_at; cbn.
  - reflexivity.
  - eapply perm_trans; [apply perm_swap|].
    apply perm_skip. apply (IH i). lia.
Qed.

Lemma remove_at_beyond i cs : (length cs <= i)%nat -> remove_at i cs = cs.
Proof.
  intros Hi. unfold remove_at.
  rewrite firstn_all2, skipn_all2 by lia. apply app_nil_r.
Qed.

Lemma insertRehooks_perm keep rs cs :
  Permutation (filter keep rs ++ cs) (insertRehooks keep rs cs).
Proof.
  revert cs; induction rs as [|r rest IH]; intros cs; cbn; [reflexivity|].
  destruct (keep r); cbn.
  - rewrite <- IH. rewrite <- insert_at_perm.
    apply Permutation_middle.
  - apply IH.
Qed.

(** ** Heights *)

Lemma height_node a b t cs hb :
  (height (mkNode a b t cs) <= S hb)%nat <-> Below hb cs.
Proof.
  unfold Below. cbn. split.
  - intros H. apply Nat.succ_le_mono in H. revert H.
    induction cs as [|c rest IH]; cbn; intros H; constructor.
    + lia.
    + apply IH. lia.
  - intros H. apply -> Nat.succ_le_mono.
    induction H as [|c rest Hc _ IH]; cbn; lia.
Qed.

Lemma height_children n hb :
  (height n <= S hb)%nat <-> Below hb (children n).
Proof. destruct n. apply height_node. Qed.

Lemma height_positive n : (1 <= height n)%nat.
Proof. destruct n. cbn. lia. Qed.

Lemma height_set_children n cs hb :
  Below hb cs -> (height (set_children n cs) <= S hb)%nat.
Proof. intros H. apply height_node, H. Qed.

Lemma Below_children n : Below (height n - 1) (children n).
Proof.
  apply height_children. pose proof (height_positive n). lia.
Qed.

Lemma Below_perm hb l l' : Permutation l l' -> Below hb l -> Below hb l'.
Proof. intros Hp. apply Permutation_Forall, Hp. Qed.

Lemma Below_weaken hb hb' l : (hb <= hb')%nat -> Below hb l -> Below hb' l.
Proof.
  intros Hle H. unfold Below in *. rewrite Forall_forall in *.
  intros c Hc. specialize (H c Hc). lia.
Qed.

Lemma Below_child_at hb cs i :
  Below hb cs -> (i < length cs)%nat -> (height (child_at cs i) <= hb)%nat.
Proof.
  unfold Below. rewrite Forall_forall. intros H Hi. apply H, nth_In, Hi.
Qed.

Lemma Below_replace_at hb i x cs :
  Below hb cs -> (height x <= hb)%nat -> Below hb (replace_at i x cs).
Proof.
  intros H Hx. destruct (Nat.lt_ge_cases i (length cs)) as [Hi|Hi].
  - assert (Hb : Below hb (child_at cs i :: replace_at i x cs)).
    { apply (Below_perm _ _ _ (Permutation_sym (replace_at_perm i x cs Hi))).
      constructor; assumption. }
    inversion Hb; assumption.
  - rewrite replace_at_beyond by assumption. assumption.
Qed.

Lemma Below_remove_at hb i cs : Below hb cs -> Below hb (remove_at i cs).
Proof.
  intros H. destruct (Nat.lt_ge_cases i (length cs)) as [Hi|Hi].
  - assert (Hb : Below hb (child_at cs i :: remove_at i cs)).
    { apply (Below_perm _ _ _ (Permutation_sym (remove_at_perm i cs Hi))).
      assumption. }
    inversion Hb; assumption.
  - rewrite remove_at_beyond by assumption. assumption.
Qed.

Lemma Below_removeIndices hb marked cs :
  Below hb cs -> Below hb (removeIndices marked cs).
Proof.
  revert cs; induction marked as [|i rest IH]; intros cs H; cbn;
    [assumption|].
  apply IH, Below_remove_at, H.
Qed.

Lemma Below_filter hb keep l : Below hb l -> Below hb (filter keep l).
Proof.
  unfold Below. rewrite !Forall_forall. intros H c Hc.
  apply filter_In in Hc. apply H, Hc.
Qed.

Lemma Below_insertRehooks hb keep rs cs :
  Below hb rs -> Below hb cs -> Below hb (insertRehooks keep rs cs).
Proof.
  intros Hr Hc. apply (Below_perm _ _ _ (insertRehooks_perm keep rs cs)).
  apply Forall_app. split; [apply Below_filter, Hr|exact Hc].
Qed.

Lemma height_clipChild parent c : height (clipChild parent c) = height c.
Proof.
  unfold clipChild, set_interval0, set_interval1.
  destruct c as [a b t cs]. cbn.
  destruct (a <? interval0 parent); cbn;
    destruct (_ >? interval1 parent); reflexivity.
Qed.

Lemma Below_clip hb parent cs :
  Below hb cs -> Below hb (map (clipChild parent) cs).
Proof.
  unfold Below. intros H. apply Forall_map.
  rewrite Forall_forall in *. intros c Hc. rewrite height_clipChild.
  apply H, Hc.
Qed.

(** ** Weights *)

Section Weights.
Variable tg : string.
Variables p q : Z.

Lemma weight_unfold n :
  weight tg p q n
  = (coverage tg p q n + forestWeight tg p q (children n))%nat.
Proof. destruct n; reflexivity. Qed.

Lemma forestWeight_cons c cs :
  forestWeight tg p q (c :: cs)
  = (weight tg p q c + forestWeight tg p q cs)%nat.
Proof. reflexivity. Qed.

Lemma forestWeight_app l l' :
  forestWeight tg p q (l ++ l')
  = (forestWeight tg p q l + forestWeight tg p q l')%nat.
Proof.
  unfold forestWeight. rewrite map_app, list_sum_app. reflexivity.
Qed.

Lemma forestWeight_perm l l' :
  Permutation l l' -> forestWeight tg p q l = forestWeight tg p q l'.
Proof.
  induction 1 as [|x l l' _ IH|x y l|l l' l'' _ IH1 _ IH2];
    rewrite ?forestWeight_cons; lia.
Qed.

Lemma forestWeight_insert_at i x cs :
  forestWeight tg p q (insert_at i x cs)
  = (weight tg p q x + forestWeight tg p q cs)%nat.
Proof.
  rewrite <- (forestWeight_perm _ _ (insert_at_perm i x cs)). reflexivity.
Qed.

Lemma forestWeight_replace_at i x cs :
  (i < length cs)%nat ->
  (weight tg p q (child_at cs i) + forestWeight tg p q (replace_at i x cs)
   = weight tg p q x + forestWeight tg p q cs)%nat.
Proof.
  intros Hi.
  pose proof (forestWeight_perm _ _ (replace_at_perm i x cs Hi)) as H.
  rewrite !forestWeight_cons in H. exact H.
Qed.

Lemma forestWeight_remove_at i cs :
  (i < length cs)%nat ->
  (weight tg p q (child_at cs i) + forestWeight tg p q (remove_at i cs)
   = forestWeight tg p q cs)%nat.
Proof.
  intros Hi.
  pose proof (forestWeight_perm _ _ (remove_at_perm i cs Hi)) as H.
  rewrite forestWeight_cons in H. exact H.
Qed.

Lemma forestWeight_remove_at_le i cs :
  (forestWeight tg p q (remove_at i cs) <= forestWeight tg p q cs)%nat.
Proof.
  destruct (Nat.lt_ge_cases i (length cs)) as [Hi|Hi].
  - pose proof (forestWeight_remove_at i cs Hi). lia.
  - rewrite remove_at_beyond by assumption. lia.
Qed.

Lemma forestWeight_removeIndices marked cs :
  (forestWeight tg p q (removeIndices marked cs)
   <= forestWeight tg p q cs)%nat.
Proof.
  revert cs; induction marked as [|i rest IH]; intros cs; cbn [removeIndices];
    [apply Nat.le_refl|].
  eapply Nat.le_trans; [apply IH|apply forestWeight_remove_at_le].
Qed.

Lemma forestWeight_filter keep l :
  (forestWeight tg p q (filter keep l) <= forestWeight tg p q l)%nat.
Proof.
  induction l as [|c rest IH]; cbn [filter]; [apply Nat.le_refl|].
  destruct (keep c); rewrite ?forestWeight_cons; lia.
Qed.

Lemma forestWeight_insertRehooks keep rs cs :
  (forestWeight tg p q (insertRehooks keep rs cs)
   <= forestWeight tg p q rs + forestWeight tg p q cs)%nat.
Proof.
  rewrite <- (forestWeight_perm _ _ (insertRehooks_perm keep rs cs)).
  rewrite forestWeight_app. pose proof (forestWeight_filter keep rs). lia.
Qed.

Lemma forestWeight_insertRehooks_all rs cs :
  forestWeight tg p q (insertRehooks (fun _ => true) rs cs)
  = (forestWeight tg p q rs + forestWeight tg p q cs)%nat.
Proof.
  rewrite <- (forestWeight_perm _ _ (insertRehooks_perm _ rs cs)).
  rewrite forestWeight_app. f_equal. f_equal.
  induction rs as [|r rest IH]; cbn [filter]; [reflexivity|].
  rewrite IH. reflexivity.
Qed.

Lemma weight_set_children n cs :
  weight tg p q (set_children n cs)
  = (coverage tg p q n + forestWeight tg p q cs)%nat.
Proof. destruct n; reflexivity. Qed.

Lemma coverage_shrink n n' :
  tag n' = tag n -> interval0 n <= interval0 n' ->
  interval1 n' <= interval1 n ->
  (coverage tg p q n' <= coverage tg p q n)%nat.
Proof.
  unfold coverage. intros -> H0 H1. destruct (tag_is (tag n) tg); lia.
Qed.

Lemma weight_clipChild parent c :
  (weight tg p q (clipChild parent c) <= weight tg p q c)%nat.
Proof.
  rewrite !weight_unfold.
  assert (Hc : children (clipChild parent c) = children c).
  { unfold clipChild, set_interval0, set_interval1. destruct c; cbn.
    destruct (_ <? _); cbn; destruct (_ >? _); reflexivity. }
  rewrite Hc.
  assert (Hcov : (coverage tg p q (clipChild parent c)
                  <= coverage tg p q c)%nat).
  { apply coverage_shrink; unfold clipChild, set_interval0, set_interval1;
      destruct c as [a b t cs]; cbn;
      destruct (a <? interval0 parent) eqn:E1; cbn;
      destruct (_ >? interval1 parent) eqn:E2; cbn; zbool; try reflexivity;
      lia. }
  lia.
Qed.

Lemma forestWeight_clip parent cs :
  (forestWeight tg p q (map (clipChild parent) cs)
   <= forestWeight tg p q cs)%nat.
Proof.
  induction cs as [|c rest IH]; cbn [map]; [apply Nat.le_refl|].
  rewrite !forestWeight_cons. pose proof (weight_clipChild parent c). lia.
Qed.

End Weights.

(** ** The loops over the children terminate *)

Section ChildLoops.
Variable tg : string.
Variable h : nat.
Hypothesis IHh :
  forall c, (height c <= h)%nat -> forall s e, Total tg c s e.

Lemma insideLoop_total hb es ee l :
  (hb <= h)%nat -> Below hb l ->
  exists F cs before inside after rehooks,
    (forall f, (F <= f)%nat ->
       insideLoop (removeTagDFS f) tg es ee l
       = Some (cs, before, inside, after, rehooks))
    /\ Below hb cs /\ Below hb before /\ Below hb inside /\ Below hb after
    /\ Below hb rehooks
    /\ (l = [] -> cs = [])
    /\ (forall p q, (forestWeight tg p q cs <= forestWeight tg p q l)%nat)
    /\ (forall p q,
          (forestWeight tg p q before + forestWeight tg p q inside
           + forestWeight tg p q after + forestWeight tg p q rehooks
           <= forestWeight tg p q l)%nat).
Proof.
  intros Hhb Hl. induction Hl as [|c rest Hc Hrest IH].
  - exists O, [], [], [], [], []. cbn.
    repeat split; try constructor; intros; reflexivity.
  - destruct IH as (F1 & cs & before & inside & after & rehooks & Hrun
                    & Bcs & Bb & Bi & Ba & Br & _ & Wcs & Wsum).
    destruct (interval1 c <=? es) eqn:E1;
      [|destruct (interval0 c >=? ee) eqn:E2].
    + exists F1, (c :: cs), (c :: before), inside, after, rehooks.
      split; [intros f Hf; cbn; rewrite E1, (Hrun f Hf); reflexivity|].
      repeat split; try assumption; try (constructor; assumption);
        try discriminate.
      * intros p q. rewrite !forestWeight_cons. specialize (Wcs p q). lia.
      * intros p q. rewrite !forestWeight_cons. specialize (Wsum p q). lia.
    + exists F1, (c :: cs), before, inside, (c :: after), rehooks.
      split; [intros f Hf; cbn; rewrite E1, E2, (Hrun f Hf); reflexivity|].
      repeat split; try assumption; try (constructor; assumption);
        try discriminate.
      * intros p q. rewrite !forestWeight_cons. specialize (Wcs p q). lia.
      * intros p q. rewrite !forestWeight_cons. specialize (Wsum p q). lia.
    + destruct (IHh c (Nat.le_trans _ _ _ Hc Hhb) es ee)
        as (F2 & c1 & r & Hcall & Hok).
      assert (Hc1 : (height c1 <= hb)%nat)
        by (pose proof (ok_height _ _ _ _ _ _ Hok); lia).
      assert (Hrh : Below hb (rehookNodeList r)).
      { pose proof (ok_rehook_height _ _ _ _ _ _ Hok) as H.
        unfold Below. rewrite Forall_forall in *. intros x Hx.
        specialize (H x Hx). lia. }
      destruct (removed r && entireOrInside (state r)) eqn:E3.
      * exists (Nat.max F1 F2), (c1 :: cs), before, inside, after,
          (rehookNodeList r ++ rehooks).
        split.
        { intros f Hf. cbn.
          rewrite E1, E2, (Hcall f), (Hrun f), E3 by lia. reflexivity. }
        repeat split; try assumption; try (constructor; assumption);
          try discriminate.
        -- apply Forall_app; split; assumption.
        -- intros p q. rewrite !forestWeight_cons. specialize (Wcs p q).
           pose proof (ok_weight _ _ _ _ _ _ Hok p q). lia.
        -- intros p q. rewrite forestWeight_app, !forestWeight_cons.
           specialize (Wsum p q).
           pose proof (ok_rehook_weight _ _ _ _ _ _ Hok p q). lia.
      * exists (Nat.max F1 F2), (c1 :: cs), before, (c1 :: inside), after,
          rehooks.
        split.
        { intros f Hf. cbn.
          rewrite E1, E2, (Hcall f), (Hrun f), E3 by lia. reflexivity. }
        repeat split; try assumption; try (constructor; assumption);
          try discriminate.
        -- intros p q. rewrite !forestWeight_cons. specialize (Wcs p q).
           pose proof (ok_weight _ _ _ _ _ _ Hok p q). lia.
        -- intros p q. rewrite !forestWeight_cons. specialize (Wsum p q).
           pose proof (ok_weight _ _ _ _ _ _ Hok p q). lia.
Qed.

Lemma coverLoop_total hb es ee l :
  (hb <= h)%nat -> Below hb l ->
  exists F rehooks,
    (forall f, (F <= f)%nat ->
       coverLoop (removeTagDFS f) tg es ee l = Some rehooks)
    /\ Below hb rehooks
    /\ (l = [] -> rehooks = [])
    /\ (forall p q,
          (forestWeight tg p q rehooks <= forestWeight tg p q l)%nat).
Proof.
  intros Hhb Hl. induction Hl as [|c rest Hc Hrest IH].
  - exists O, []. cbn. repeat split; try constructor; intros; reflexivity.
  - destruct IH as (F1 & rehooks & Hrun & Br & _ & Wr).
    destruct ((interval0 c <? ee) && (interval1 c >? es)) eqn:E1.
    + destruct (IHh c (Nat.le_trans _ _ _ Hc Hhb) es ee)
        as (F2 & c1 & r & Hcall & Hok).
      assert (Hc1 : (height c1 <= hb)%nat)
        by (pose proof (ok_height _ _ _ _ _ _ Hok); lia).
      assert (Hrh : Below hb (rehookNodeList r)).
      { pose proof (ok_rehook_height _ _ _ _ _ _ Hok) as H.
        unfold Below. rewrite Forall_forall in *. intros x Hx.
        specialize (H x Hx). lia. }
      destruct (removed r) eqn:E2.
      * exists (Nat.max F1 F2), (rehookNodeList r ++ rehooks).
        split.
        { intros f Hf. cbn.
          rewrite E1, (Hcall f), (Hrun f), E2 by lia. reflexivity. }
        repeat split; try discriminate.
        -- apply Forall_app; split; assumption.
        -- intros p q. rewrite forestWeight_app, forestWeight_cons.
           specialize (Wr p q).
           pose proof (ok_rehook_weight _ _ _ _ _ _ Hok p q). lia.
      * exists (Nat.max F1 F2), (c1 :: rehooks).
        split.
        { intros f Hf. cbn.
          rewrite E1, (Hcall f), (Hrun f), E2 by lia. reflexivity. }
        repeat split; try discriminate.
        -- constructor; assumption.
        -- intros p q. rewrite !forestWeight_cons. specialize (Wr p q).
           pose proof (ok_weight _ _ _ _ _ _ Hok p q). lia.
    + exists F1, (c :: rehooks).
      split; [intros f Hf; cbn; rewrite E1, (Hrun f Hf); reflexivity|].
      repeat split; try discriminate.
      * constructor; assumption.
      * intros p q. rewrite !forestWeight_cons. specialize (Wr p q). lia.
Qed.

End ChildLoops.

(** ** Counting the children that can still hand over rehook nodes *)

Section Counting.
Variable act : IntervalNode -> bool.

Lemma count_cons c l :
  length (filter act (c :: l))
  = ((if act c then 1 else 0) + length (filter act l))%nat.
Proof. cbn. destruct (act c); reflexivity. Qed.

Lemma count_perm l l' :
  Permutation l l' -> length (filter act l) = length (filter act l').
Proof.
  induction 1 as [|x l l' _ IH|x y l|l l' l'' _ IH1 _ IH2];
    rewrite ?count_cons; lia.
Qed.

Lemma count_replace_at i x cs :
  (i < length cs)%nat ->
  ((if act (child_at cs i) then 1 else 0)
   + length (filter act (replace_at i x cs))
   = (if act x then 1 else 0) + length (filter act cs))%nat.
Proof.
  intros Hi. pose proof (count_perm _ _ (replace_at_perm i x cs Hi)) as H.
  rewrite !count_cons in H. exact H.
Qed.

Lemma count_insertRehooks keep rs cs :
  (forall r, keep r = true -> act r = false) ->
  length (filter act (insertRehooks keep rs cs)) = length (filter act cs).
Proof.
  intros Hk.
  rewrite <- (count_perm _ _ (insertRehooks_perm keep rs cs)).
  rewrite filter_app, length_app.
  assert (H0 : length (filter act (filter keep rs)) = O).
  { induction rs as [|r rest IH]; cbn [filter]; [reflexivity|].
    destruct (keep r) eqn:E; [|exact IH].
    rewrite count_cons, (Hk r E), IH. reflexivity. }
  rewrite H0. reflexivity.
Qed.
End Counting.

Lemma RemoveState_eqb_eq a b : RemoveState_eqb a b = true -> a = b.
Proof. destruct a, b; cbn; congruence. Qed.

Lemma hasChildren_false n : children n = [] -> hasChildren n = false.
Proof. unfold hasChildren. intros ->. reflexivity. Qed.

Lemma hasChildren_true n : children n <> [] -> hasChildren n = true.
Proof. unfold hasChildren. destruct (children n); congruence. Qed.

Lemma removeLeftLoop_S rec tg k cs es ee i marked :
  removeLeftLoop rec tg (S k) cs es ee i marked =
  if (i <? length cs)%nat then
    if interval1 (child_at cs i) <=? ee then
      removeLeftLoop rec tg k cs es ee (S i) (i :: marked)
    else if interval0 (child_at cs i) <? ee then
      match rec (child_at cs i) tg es ee with
      | None => None
      | Some (child1, r) =>
          if removed r && RemoveState_eqb (state r) REMOVE_ENTIRE_NODE
          then
            removeLeftLoop rec tg k
              (insertRehooks (fun n => interval0 n >=? ee)
                 (rehookNodeList r) (replace_at i child1 cs))
              es ee (S i) (i :: marked)
          else
            removeLeftLoop rec tg k (replace_at i child1 cs) es ee (S i)
              marked
      end
    else removeLeftLoop rec tg k cs es ee (S i) marked
  else Some (cs, marked).
Proof. reflexivity. Qed.

Lemma removeRightLoop_S rec tg k cs es i marked :
  removeRightLoop rec tg (S k) cs es i marked =
  if (i <? length cs)%nat then
    if interval0 (child_at cs i) >=? es then
      removeRightLoop rec tg k cs es (S i) (i :: marked)
    else if interval1 (child_at cs i) >? es then
      match rec (child_at cs i) tg es (interval1 (child_at cs i)) with
      | None => None
      | Some (child1, r) =>
          if removed r && RemoveState_eqb (state r) REMOVE_ENTIRE_NODE
          then
            removeRightLoop rec tg k
              (insertRehooks (fun n => interval1 n <=? es)
                 (rehookNodeList r) (replace_at i child1 cs))
              es (S i) (i :: marked)
          else
            removeRightLoop rec tg k (replace_at i child1 cs) es (S i)
              marked
      end
    else removeRightLoop rec tg k cs es (S i) marked
  else Some (cs, marked).
Proof. reflexivity. Qed.

Section SideLoops.
Variable tg : string.
Variable h : nat.
Hypothesis IHh :
  forall c, (height c <= h)%nat -> forall s e, Total tg c s e.

Lemma removeLeftLoop_total hb es ee :
  (hb <= h)%nat ->
  forall a d cs i marked,
    (pendingLeft ee cs <= a)%nat -> (length cs - i <= d)%nat ->
    Below hb cs ->
    exists F cs' marked',
      (forall f k, (F <= f)%nat -> (F <= k)%nat ->
         removeLeftLoop (removeTagDFS f) tg k cs es ee i marked
         = Some (cs', marked'))
      /\ Below hb cs'
      /\ (cs = [] -> cs' = [])
      /\ (forall p q,
            (forestWeight tg p q cs' <= forestWeight tg p q cs)%nat).
Proof.
  intros Hhb.
  induction a as [a IHa] using lt_wf_ind.
  induction d as [d IHd] using lt_wf_ind.
  intros cs i marked Ha Hd HB.
  destruct (i <? length cs)%nat eqn:Ei.
  2:{ exists 1%nat, cs, marked. split; [|auto].
      intros f k _ Hk. destruct k as [|k]; [lia|].
      rewrite removeLeftLoop_S, Ei. reflexivity. }
  zbool.
  (* what one more iteration on an array of the same length gives *)
  assert (Hnext : forall cs1 marked1,
             length cs1 = length cs ->
             (pendingLeft ee cs1 <= pendingLeft ee cs)%nat ->
             Below hb cs1 ->
             exists F cs' marked',
               (forall f k, (F <= f)%nat -> (F <= k)%nat ->
                  removeLeftLoop (removeTagDFS f) tg k cs1 es ee (S i) marked1
                  = Some (cs', marked'))
               /\ Below hb cs'
               /\ (forall p q,
                     (forestWeight tg p q cs' <= forestWeight tg p q cs1)%nat)).
  { intros cs1 marked1 Hlen Hp HB1.
    destruct (IHd (length cs1 - S i)%nat ltac:(lia) cs1 (S i) marked1
                ltac:(lia) (Nat.le_refl _) HB1)
      as (F1 & cs' & m' & Hrun & HB' & _ & HW).
    exists F1, cs', m'. auto. }
  assert (Hne : cs = [] -> False) by (intros ->; cbn in Ei; lia).
  destruct (interval1 (child_at cs i) <=? ee) eqn:E1.
  { destruct (Hnext cs (i :: marked) eq_refl (Nat.le_refl _) HB)
      as (F1 & cs' & m' & Hrun & HB' & HW).
    exists (S F1), cs', m'. split; [|split; [assumption|split]].
    - intros f k Hf Hk. destruct k as [|k]; [lia|].
      rewrite removeLeftLoop_S. apply Nat.ltb_lt in Ei. rewrite Ei, E1.
      apply Hrun; lia.
    - intros H; destruct (Hne H).
    - exact HW. }
  destruct (interval0 (child_at cs i) <? ee) eqn:E2.
  2:{ destruct (Hnext cs marked eq_refl (Nat.le_refl _) HB)
        as (F1 & cs' & m' & Hrun & HB' & HW).
      exists (S F1), cs', m'. split; [|split; [assumption|split]].
      - intros f k Hf Hk. destruct k as [|k]; [lia|].
        rewrite removeLeftLoop_S. apply Nat.ltb_lt in Ei. rewrite Ei, E1, E2.
        apply Hrun; lia.
      - intros H; destruct (Hne H).
      - exact HW. }
  pose proof (Below_child_at _ _ _ HB Ei) as Hch.
  destruct (IHh (child_at cs i) (Nat.le_trans _ _ _ Hch Hhb) es ee)
    as (F2 & c1 & r & Hcall & Hok).
  assert (Hc1 : (height c1 <= hb)%nat)
    by (pose proof (ok_height _ _ _ _ _ _ Hok); lia).
  pose proof (Below_replace_at hb i c1 cs HB Hc1) as HB1.
  pose proof (replace_at_length i c1 cs) as Hlen1.
  assert (HW1 : forall p q,
             (forestWeight tg p q (replace_at i c1 cs)
              <= forestWeight tg p q cs)%nat).
  { intros p q. pose proof (forestWeight_replace_at tg p q i c1 cs Ei).
    pose proof (ok_weight _ _ _ _ _ _ Hok p q). lia. }
  pose proof (count_replace_at
                (fun c => hasChildren c && (interval0 c <? ee)) i c1 cs Ei)
    as Hcount.
  cbv beta in Hcount.
  destruct (removed r && RemoveState_eqb (state r) REMOVE_ENTIRE_NODE)
    eqn:E3.
  - apply andb_true_iff in E3. destruct E3 as [Er Es].
    apply RemoveState_eqb_eq in Es.
    destruct (ok_entire _ _ _ _ _ _ Hok Es) as (Hleaf1 & Hnil & Hrh & Hsum).
    assert (Hrb : Below hb (rehookNodeList r)).
    { unfold Below. rewrite Forall_forall in *. intros x Hx.
      specialize (Hrh x Hx). lia. }
    pose proof (Below_insertRehooks hb (fun n => interval0 n >=? ee)
                  _ _ Hrb HB1) as HB2.
    assert (HW2 : forall p q,
               (forestWeight tg p q
                  (insertRehooks (fun n => interval0 n >=? ee)
                     (rehookNodeList r) (replace_at i c1 cs))
                <= forestWeight tg p q cs)%nat).
    { intros p q.
      pose proof (forestWeight_insertRehooks tg p q
                    (fun n => interval0 n >=? ee) (rehookNodeList r)
                    (replace_at i c1 cs)).
      pose proof (forestWeight_replace_at tg p q i c1 cs Ei).
      specialize (Hsum p q). lia. }
    assert (Hcount2 :
             length (filter (fun c => hasChildren c && (interval0 c <? ee))
                       (insertRehooks (fun n => interval0 n >=? ee)
                          (rehookNodeList r) (replace_at i c1 cs)))
             = length (filter (fun c => hasChildren c && (interval0 c <? ee))
                         (replace_at i c1 cs))).
    { apply count_insertRehooks. intros x Hx. zbool.
      replace (interval0 x <? ee) with false
        by (symmetry; apply Z.ltb_ge; lia).
      apply andb_false_r. }
    rewrite (hasChildren_false c1 Hleaf1) in Hcount. cbn [andb] in Hcount.
    destruct (children (child_at cs i)) as [|g gs] eqn:Ech.
    + (* nothing to hand over: the array keeps its length *)
      destruct (Hnext (replace_at i c1 cs) (i :: marked) Hlen1
                  ltac:(unfold pendingLeft; lia) HB1)
        as (F1 & cs' & m' & Hrun & HB' & HW).
      exists (S (Nat.max F1 F2)), cs', m'.
      split; [|split; [assumption|split]].
      * intros f k Hf Hk. destruct k as [|k]; [lia|].
        rewrite removeLeftLoop_S. apply Nat.ltb_lt in Ei.
        rewrite Ei, E1, E2, (Hcall f) by lia.
        rewrite Er, Es. cbn [andb RemoveState_eqb].
        rewrite (Hnil eq_refl). cbn [insertRehooks].
        apply Hrun; lia.
      * intros H; destruct (Hne H).
      * intros p q. specialize (HW p q). specialize (HW1 p q). lia.
    + (* the child was pending and is no longer *)
      assert (Hact : hasChildren (child_at cs i) = true)
        by (apply hasChildren_true; rewrite Ech; discriminate).
      rewrite Hact, E2 in Hcount. cbn [andb] in Hcount.
      destruct (IHa (pendingLeft ee
                       (insertRehooks (fun n => interval0 n >=? ee)
                          (rehookNodeList r) (replace_at i c1 cs)))
                  ltac:(unfold pendingLeft in *; lia)
                  (length (insertRehooks (fun n => interval0 n >=? ee)
                             (rehookNodeList r) (replace_at i c1 cs)) - S i)%nat
                  _ (S i) (i :: marked)
                  (Nat.le_refl _) (Nat.le_refl _) HB2)
        as (F1 & cs' & m' & Hrun & HB' & _ & HW).
      exists (S (Nat.max F1 F2)), cs', m'.
      split; [|split; [assumption|split]].
      * intros f k Hf Hk. destruct k as [|k]; [lia|].
        rewrite removeLeftLoop_S. apply Nat.ltb_lt in Ei.
        rewrite Ei, E1, E2, (Hcall f) by lia.
        rewrite Er, Es. cbn [andb RemoveState_eqb].
        apply Hrun; lia.
      * intros H; destruct (Hne H).
      * intros p q. specialize (HW p q). specialize (HW2 p q). lia.
  - assert (Hp1 : (pendingLeft ee (replace_at i c1 cs)
                   <= pendingLeft ee cs)%nat).
    { unfold pendingLeft.
      destruct (hasChildren c1 && (interval0 c1 <? ee)) eqn:Eact;
        [|destruct (hasChildren (child_at cs i)
                    && (interval0 (child_at cs i) <? ee)); lia].
      apply andb_true_iff in Eact. destruct Eact as [Hh1 Hs1].
      assert (Hh : hasChildren (child_at cs i) = true).
      { apply hasChildren_true. intros Hnil.
        rewrite (hasChildren_false c1 (ok_leaf _ _ _ _ _ _ Hok Hnil)) in Hh1.
        discriminate. }
      rewrite Hh, E2 in Hcount. cbn [andb] in Hcount. lia. }
    destruct (Hnext (replace_at i c1 cs) marked Hlen1 Hp1 HB1)
      as (F1 & cs' & m' & Hrun & HB' & HW).
    exists (S (Nat.max F1 F2)), cs', m'.
    split; [|split; [assumption|split]].
    + intros f k Hf Hk. destruct k as [|k]; [lia|].
      rewrite removeLeftLoop_S. apply Nat.ltb_lt in Ei.
      rewrite Ei, E1, E2, (Hcall f) by lia.
      rewrite E3. apply Hrun; lia.
    + intros H; destruct (Hne H).
    + intros p q. specialize (HW p q). specialize (HW1 p q). lia.
Qed.

Lemma removeRightLoop_total hb es :
  (hb <= h)%nat ->
  forall a d cs i marked,
    (pendingRight es cs <= a)%nat -> (length cs - i <= d)%nat ->
    Below hb cs ->
    exists F cs' marked',
      (forall f k, (F <= f)%nat -> (F <= k)%nat ->
         removeRightLoop (removeTagDFS f) tg k cs es i marked
         = Some (cs', marked'))
      /\ Below hb cs'
      /\ (cs = [] -> cs' = [])
      /\ (forall p q,
            (forestWeight tg p q cs' <= forestWeight tg p q cs)%nat).
Proof.
  intros Hhb.
  induction a as [a IHa] using lt_wf_ind.
  induction d as [d IHd] using lt_wf_ind.
  intros cs i marked Ha Hd HB.
  destruct (i <? length cs)%nat eqn:Ei.
  2:{ exists 1%nat, cs, marked. split; [|auto].
      intros f k _ Hk. destruct k as [|k]; [lia|].
      rewrite removeRightLoop_S, Ei. reflexivity. }
  zbool.
  (* what one more iteration on an array of the same length gives *)
  assert (Hnext : forall cs1 marked1,
             length cs1 = length cs ->
             (pendingRight es cs1 <= pendingRight es cs)%nat ->
             Below hb cs1 ->
             exists F cs' marked',
               (forall f k, (F <= f)%nat -> (F <= k)%nat ->
                  removeRightLoop (removeTagDFS f) tg k cs1 es (S i) marked1
                  = Some (cs', marked'))
               /\ Below hb cs'
               /\ (forall p q,
                     (forestWeight tg p q cs' <= forestWeight tg p q cs1)%nat)).
  { intros cs1 marked1 Hlen Hp HB1.
    destruct (IHd (length cs1 - S i)%nat ltac:(lia) cs1 (S i) marked1
                ltac:(lia) (Nat.le_refl _) HB1)
      as (F1 & cs' & m' & Hrun & HB' & _ & HW).
    exists F1, cs', m'. auto. }
  assert (Hne : cs = [] -> False) by (intros ->; cbn in Ei; lia).
  destruct (interval0 (child_at cs i) >=? es) eqn:E1.
  { destruct (Hnext cs (i :: marked) eq_refl (Nat.le_refl _) HB)
      as (F1 & cs' & m' & Hrun & HB' & HW).
    exists (S F1), cs', m'. split; [|split; [assumption|split]].
    - intros f k Hf Hk. destruct k as [|k]; [lia|].
      rewrite removeRightLoop_S. apply Nat.ltb_lt in Ei. rewrite Ei, E1.
      apply Hrun; lia.
    - intros H; destruct (Hne H).
    - exact HW. }
  destruct (interval1 (child_at cs i) >? es) eqn:E2.
  2:{ destruct (Hnext cs marked eq_refl (Nat.le_refl _) HB)
        as (F1 & cs' & m' & Hrun & HB' & HW).
      exists (S F1), cs', m'. split; [|split; [assumption|split]].
      - intros f k Hf Hk. destruct k as [|k]; [lia|].
        rewrite removeRightLoop_S. apply Nat.ltb_lt in Ei. rewrite Ei, E1, E2.
        apply Hrun; lia.
      - intros H; destruct (Hne H).
      - exact HW. }
  pose proof (Below_child_at _ _ _ HB Ei) as Hch.
  destruct (IHh (child_at cs i) (Nat.le_trans _ _ _ Hch Hhb) es
              (interval1 (child_at cs i)))
    as (F2 & c1 & r & Hcall & Hok).
  assert (Hc1 : (height c1 <= hb)%nat)
    by (pose proof (ok_height _ _ _ _ _ _ Hok); lia).
  pose proof (Below_replace_at hb i c1 cs HB Hc1) as HB1.
  pose proof (replace_at_length i c1 cs) as Hlen1.
  assert (HW1 : forall p q,
             (forestWeight tg p q (replace_at i c1 cs)
              <= forestWeight tg p q cs)%nat).
  { intros p q. pose proof (forestWeight_replace_at tg p q i c1 cs Ei).
    pose proof (ok_weight _ _ _ _ _ _ Hok p q). lia. }
  pose proof (count_replace_at
                (fun c => hasChildren c && (interval1 c >? es)) i c1 cs Ei)
    as Hcount.
  cbv beta in Hcount.
  destruct (removed r && RemoveState_eqb (state r) REMOVE_ENTIRE_NODE)
    eqn:E3.
  - apply andb_true_iff in E3. destruct E3 as [Er Es].
    apply RemoveState_eqb_eq in Es.
    destruct (ok_entire _ _ _ _ _ _ Hok Es) as (Hleaf1 & Hnil & Hrh & Hsum).
    assert (Hrb : Below hb (rehookNodeList r)).
    { unfold Below. rewrite Forall_forall in *. intros x Hx.
      specialize (Hrh x Hx). lia. }
    pose proof (Below_insertRehooks hb (fun n => (interval1 n <=? es)%Z)
                  _ _ Hrb HB1) as HB2.
    assert (HW2 : forall p q,
               (forestWeight tg p q
                  (insertRehooks (fun n => (interval1 n <=? es)%Z)
                     (rehookNodeList r) (replace_at i c1 cs))
                <= forestWeight tg p q cs)%nat).
    { intros p q.
      pose proof (forestWeight_insertRehooks tg p q
                    (fun n => (interval1 n <=? es)%Z) (rehookNodeList r)
                    (replace_at i c1 cs)).
      pose proof (forestWeight_replace_at tg p q i c1 cs Ei).
      specialize (Hsum p q). lia. }
    assert (Hcount2 :
             length (filter (fun c => hasChildren c && (interval1 c >? es))
                       (insertRehooks (fun n => (interval1 n <=? es)%Z)
                          (rehookNodeList r) (replace_at i c1 cs)))
             = length (filter (fun c => hasChildren c && (interval1 c >? es))
                         (replace_at i c1 cs))).
    { apply count_insertRehooks. intros x Hx. zbool.
      replace (interval1 x >? es) with false
        by (symmetry; apply gtb_false; lia).
      apply andb_false_r. }
    rewrite (hasChildren_false c1 Hleaf1) in Hcount. cbn [andb] in Hcount.
    destruct (children (child_at cs i)) as [|g gs] eqn:Ech.
    + (* nothing to hand over: the array keeps its length *)
      destruct (Hnext (replace_at i c1 cs) (i :: marked) Hlen1
                  ltac:(unfold pendingRight; lia) HB1)
        as (F1 & cs' & m' & Hrun & HB' & HW).
      exists (S (Nat.max F1 F2)), cs', m'.
      split; [|split; [assumption|split]].
      * intros f k Hf Hk. destruct k as [|k]; [lia|].
        rewrite removeRightLoop_S. apply Nat.ltb_lt in Ei.
        rewrite Ei, E1, E2, (Hcall f) by lia.
        rewrite Er, Es. cbn [andb RemoveState_eqb].
        rewrite (Hnil eq_refl). cbn [insertRehooks].
        apply Hrun; lia.
      * intros H; destruct (Hne H).
      * intros p q. specialize (HW p q). specialize (HW1 p q). lia.
    + (* the child was pending and is no longer *)
      assert (Hact : hasChildren (child_at cs i) = true)
        by (apply hasChildren_true; rewrite Ech; discriminate).
      rewrite Hact, E2 in Hcount. cbn [andb] in Hcount.
      destruct (IHa (pendingRight es
                       (insertRehooks (fun n => (interval1 n <=? es)%Z)
                          (rehookNodeList r) (replace_at i c1 cs)))
                  ltac:(unfold pendingRight in *; lia)
                  (length (insertRehooks (fun n => (interval1 n <=? es)%Z)
                             (rehookNodeList r) (replace_at i c1 cs)) - S i)%nat
                  _ (S i) (i :: marked)
                  (Nat.le_refl _) (Nat.le_refl _) HB2)
        as (F1 & cs' & m' & Hrun & HB' & _ & HW).
      exists (S (Nat.max F1 F2)), cs', m'.
      split; [|split; [assumption|split]].
      * intros f k Hf Hk. destruct k as [|k]; [lia|].
        rewrite removeRightLoop_S. apply Nat.ltb_lt in Ei.
        rewrite Ei, E1, E2, (Hcall f) by lia.
        rewrite Er, Es. cbn [andb RemoveState_eqb].
        apply Hrun; lia.
      * intros H; destruct (Hne H).
      * intros p q. specialize (HW p q). specialize (HW2 p q). lia.
  - assert (Hp1 : (pendingRight es (replace_at i c1 cs)
                   <= pendingRight es cs)%nat).
    { unfold pendingRight.
      destruct (hasChildren c1 && (interval1 c1 >? es)) eqn:Eact;
        [|destruct (hasChildren (child_at cs i)
                    && (interval1 (child_at cs i) >? es)); lia].
      apply andb_true_iff in Eact. destruct Eact as [Hh1 Hs1].
      assert (Hh : hasChildren (child_at cs i) = true).
      { apply hasChildren_true. intros Hnil.
        rewrite (hasChildren_false c1 (ok_leaf _ _ _ _ _ _ Hok Hnil)) in Hh1.
        discriminate. }
      rewrite Hh, E2 in Hcount. cbn [andb] in Hcount. lia. }
    destruct (Hnext (replace_at i c1 cs) marked Hlen1 Hp1 HB1)
      as (F1 & cs' & m' & Hrun & HB' & HW).
    exists (S (Nat.max F1 F2)), cs', m'.
    split; [|split; [assumption|split]].
    + intros f k Hf Hk. destruct k as [|k]; [lia|].
      rewrite removeRightLoop_S. apply Nat.ltb_lt in Ei.
      rewrite Ei, E1, E2, (Hcall f) by lia.
      rewrite E3. apply Hrun; lia.
    + intros H; destruct (Hne H).
    + intros p q. specialize (HW p q). specialize (HW1 p q). lia.
Qed.


End SideLoops.

Lemma removeChildrenLoop_S rec tg k node s e es ee i rem :
  removeChildrenLoop rec tg (S k) node s e es ee i rem =
  if (i <? numChildren node)%nat then
    if (ee <=? interval0 (child_at (children node) i))
       || (es >=? interval1 (child_at (children node) i))
    then removeChildrenLoop rec tg k node s e es ee (S i) rem
    else
      match rec (child_at (children node) i) tg s e with
      | None => None
      | Some (child1, r) =>
          if removed r then
            let '(node2, i2) :=
              if entireOrInside (state r) then
                (set_children
                   (set_children node
                      (replace_at i child1 (children node)))
                   (insertRehooks (fun _ => true) (rehookNodeList r)
                      (remove_at i
                         (children
                            (set_children node
                               (replace_at i child1 (children node)))))),
                 firstRelevant
                   (insertRehooks (fun _ => true) (rehookNodeList r)
                      (remove_at i
                         (children
                            (set_children node
                               (replace_at i child1 (children node))))))
                   es)
              else
                (set_children node (replace_at i child1 (children node)),
                 S i) in
            if fst (remainingInterval r) <? snd (remainingInterval r) then
              match rec node2 tg (fst (remainingInterval r))
                      (snd (remainingInterval r))
              with
              | None => None
              | Some (node3, _) =>
                  removeChildrenLoop rec tg k node3 s e es ee i2 true
              end
            else removeChildrenLoop rec tg k node2 s e es ee i2 true
          else
            removeChildrenLoop rec tg k
              (set_children node (replace_at i child1 (children node)))
              s e es ee (S i) rem
      end
  else Some (node, rem).
Proof. reflexivity. Qed.

Lemma child_at_replace_at i x cs :
  (i < length cs)%nat -> child_at (replace_at i x cs) i = x.
Proof.
  revert i; induction cs as [|c rest IH]; intros i Hi; cbn in *; [lia|].
  destruct i as [|i]; [reflexivity|].
  unfold child_at in *. cbn. apply IH. lia.
Qed.

Lemma children_set_children n cs : children (set_children n cs) = cs.
Proof. reflexivity. Qed.

Lemma interval0_set_children n cs : interval0 (set_children n cs) = interval0 n.
Proof. reflexivity. Qed.

Lemma interval1_set_children n cs : interval1 (set_children n cs) = interval1 n.
Proof. reflexivity. Qed.

Lemma tag_set_children n cs : tag (set_children n cs) = tag n.
Proof. reflexivity. Qed.

Lemma coverage_set_children tg p q n cs :
  coverage tg p q (set_children n cs) = coverage tg p q n.
Proof. reflexivity. Qed.

Section ChildrenLoop.
Variable tg : string.
Variable h : nat.
Hypothesis IHh :
  forall c, (height c <= h)%nat -> forall s e, Total tg c s e.
Variables s e : Z.
Hypothesis IHre :
  forall node s', (height node <= S h)%nat -> s < s' < e ->
                  Total tg node s' e.

Lemma removeChildrenLoop_total hb es ee :
  (hb <= h)%nat ->
  forall w d node i rem,
    (weight tg s e node <= w)%nat -> (numChildren node - i <= d)%nat ->
    Below hb (children node) ->
    exists F n' b,
      (forall f k, (F <= f)%nat -> (F <= k)%nat ->
         removeChildrenLoop (removeTagDFS f) tg k node s e es ee i rem
         = Some (n', b))
      /\ Below hb (children n')
      /\ interval0 node <= interval0 n' /\ interval1 n' <= interval1 node
      /\ (children node = [] -> children n' = [])
      /\ (forall p q, (weight tg p q n' <= weight tg p q node)%nat)
      /\ (rem = true -> b = true)
      /\ (b = true ->
          rem = true \/ (weight tg s e n' < weight tg s e node)%nat).
Proof.
  intros Hhb.
  induction w as [w IHw] using lt_wf_ind.
  induction d as [d IHd] using lt_wf_ind.
  intros node i rem Hw Hd HB.
  destruct (i <? numChildren node)%nat eqn:Ei.
  2:{ exists 1%nat, node, rem. split.
      - intros f k _ Hk. destruct k as [|k]; [lia|].
        rewrite removeChildrenLoop_S, Ei. reflexivity.
      - repeat split; auto; lia. }
  zbool. unfold numChildren in Ei.
  assert (Hne : children node = [] -> False)
    by (intros H; rewrite H in Ei; cbn in Ei; lia).
  (* one more iteration on the same number of children *)
  assert (Hnext : forall node1 rem1,
             numChildren node1 = numChildren node ->
             (forall p q, (weight tg p q node1 <= weight tg p q node)%nat) ->
             Below hb (children node1) ->
             exists F n' b,
               (forall f k, (F <= f)%nat -> (F <= k)%nat ->
                  removeChildrenLoop (removeTagDFS f) tg k node1 s e es ee
                    (S i) rem1 = Some (n', b))
               /\ Below hb (children n')
               /\ interval0 node1 <= interval0 n'
               /\ interval1 n' <= interval1 node1
               /\ (forall p q, (weight tg p q n' <= weight tg p q node1)%nat)
               /\ (rem1 = true -> b = true)
               /\ (b = true ->
                   rem1 = true
                   \/ (weight tg s e n' < weight tg s e node1)%nat)).
  { intros node1 rem1 Hnum HW1 HB1.
    destruct (IHd (numChildren node1 - S i)%nat
                ltac:(unfold numChildren in *; lia) node1 (S i) rem1
                ltac:(specialize (HW1 s e); lia) (Nat.le_refl _) HB1)
      as (F1 & n' & b & Hrun & HB' & Hlo & Hhi & _ & HW & Hrem & Hb).
    exists F1, n', b. auto 10. }
  (* going on after a removal, with a smaller weight *)
  assert (Hafter : forall node2 i2,
             (weight tg s e node2 < weight tg s e node)%nat ->
             Below hb (children node2) ->
             exists F n' b,
               (forall f k, (F <= f)%nat -> (F <= k)%nat ->
                  removeChildrenLoop (removeTagDFS f) tg k node2 s e es ee
                    i2 true = Some (n', b))
               /\ Below hb (children n')
               /\ interval0 node2 <= interval0 n'
               /\ interval1 n' <= interval1 node2
               /\ (forall p q, (weight tg p q n' <= weight tg p q node2)%nat)
               /\ b = true).
  { intros node2 i2 HW2 HB2.
    destruct (IHw (weight tg s e node2) ltac:(lia)
                (numChildren node2 - i2)%nat node2 i2 true
                (Nat.le_refl _) (Nat.le_refl _) HB2)
      as (F1 & n' & b & Hrun & HB' & Hlo & Hhi & _ & HW & Hrem & Hb).
    exists F1, n', b. auto 10. }
  destruct ((ee <=? interval0 (child_at (children node) i))
            || (es >=? interval1 (child_at (children node) i))) eqn:E1.
  { destruct (Hnext node rem eq_refl ltac:(intros; lia) HB)
      as (F1 & n' & b & Hrun & HB' & Hlo & Hhi & HW & Hrem & Hb).
    exists (S F1), n', b. split; [|repeat split; auto].
    - intros f k Hf Hk. destruct k as [|k]; [lia|].
      rewrite removeChildrenLoop_S. apply Nat.ltb_lt in Ei.
      unfold numChildren. rewrite Ei, E1. apply Hrun; lia.
    - intros H; destruct (Hne H). }
  pose proof (Below_child_at _ _ _ HB Ei) as Hch.
  destruct (IHh (child_at (children node) i)
              (Nat.le_trans _ _ _ Hch Hhb) s e)
    as (F2 & c1 & r & Hcall & Hok).
  assert (Hc1 : (height c1 <= hb)%nat)
    by (pose proof (ok_height _ _ _ _ _ _ Hok); lia).
  pose proof (Below_replace_at hb i c1 _ HB Hc1) as HB1.
  assert (HW1 : forall p q,
             (weight tg p q (set_children node
                               (replace_at i c1 (children node)))
              + weight tg p q (child_at (children node) i)
              = weight tg p q node + weight tg p q c1)%nat).
  { intros p q. rewrite weight_set_children, (weight_unfold tg p q node).
    pose proof (forestWeight_replace_at tg p q i c1 _ Ei). lia. }
  destruct (removed r) eqn:Er.
  2:{ destruct (Hnext (set_children node (replace_at i c1 (children node)))
                  rem)
        as (F1 & n' & b & Hrun & HB' & Hlo & Hhi & HW & Hrem & Hb).
      { unfold numChildren. cbn [children set_children].
        apply replace_at_length. }
      { intros p q. specialize (HW1 p q).
        pose proof (ok_weight _ _ _ _ _ _ Hok p q). lia. }
      { exact HB1. }
      exists (S (Nat.max F1 F2)), n', b. split; [|repeat split; auto].
      - intros f k Hf Hk. destruct k as [|k]; [lia|].
        rewrite removeChildrenLoop_S. apply Nat.ltb_lt in Ei.
        unfold numChildren. rewrite Ei, E1, (Hcall f), Er by lia.
        apply Hrun; lia.
      - intros H; destruct (Hne H).
      - intros p q. specialize (HW p q). specialize (HW1 p q).
        pose proof (ok_weight _ _ _ _ _ _ Hok p q). lia.
      - intros Hbt. destruct (Hb Hbt) as [?|Hlt]; [left; assumption|right].
        specialize (HW1 s e).
        pose proof (ok_weight _ _ _ _ _ _ Hok s e). lia. }
  (* the child reports a removal *)
  pose proof (ok_strict _ _ _ _ _ _ Hok Er) as Hstrict.
  pose proof (ok_remaining _ _ _ _ _ _ Hok Er) as Hremain.
  (* the node and the index the loop goes on with *)
  assert (Hnode2 :
           exists node2 i2,
             (if entireOrInside (state r) then
                (set_children
                   (set_children node (replace_at i c1 (children node)))
                   (insertRehooks (fun _ => true) (rehookNodeList r)
                      (remove_at i
                         (children
                            (set_children node
                               (replace_at i c1 (children node)))))),
                 firstRelevant
                   (insertRehooks (fun _ => true) (rehookNodeList r)
                      (remove_at i
                         (children
                            (set_children node
                               (replace_at i c1 (children node))))))
                   es)
              else
                (set_children node (replace_at i c1 (children node)), S i))
             = (node2, i2)
             /\ Below hb (children node2)
             /\ interval0 node2 = interval0 node
             /\ interval1 node2 = interval1 node
             /\ (forall p q, (weight tg p q node2 <= weight tg p q node)%nat)
             /\ (weight tg s e node2 < weight tg s e node)%nat).
  { revert Hstrict. destruct (entireOrInside (state r)); intros Hstrict.
    - eexists _, _. split; [reflexivity|].
      cbn [children set_children].
      assert (Hrb : Below hb (rehookNodeList r)).
      { pose proof (ok_rehook_height _ _ _ _ _ _ Hok) as H.
        unfold Below. rewrite Forall_forall in *. intros x Hx.
        specialize (H x Hx). lia. }
      assert (Hfw : forall p q,
                 (forestWeight tg p q
                    (insertRehooks (fun _ => true) (rehookNodeList r)
                       (remove_at i (replace_at i c1 (children node))))
                  + weight tg p q (child_at (children node) i)
                  = forestWeight tg p q (rehookNodeList r)
                    + forestWeight tg p q (children node))%nat).
      { intros p q. rewrite forestWeight_insertRehooks_all.
        pose proof (forestWeight_remove_at tg p q i
                      (replace_at i c1 (children node))
                      ltac:(rewrite replace_at_length; exact Ei)) as H1.
        rewrite child_at_replace_at in H1 by exact Ei.
        pose proof (forestWeight_replace_at tg p q i c1 _ Ei). lia. }
      repeat split.
      + apply Below_insertRehooks; [exact Hrb|].
        apply Below_remove_at, HB1.
      + intros p q.
        rewrite !weight_set_children, coverage_set_children,
          (weight_unfold tg p q node).
        specialize (Hfw p q).
        pose proof (ok_rehook_weight _ _ _ _ _ _ Hok p q). lia.
      + rewrite !weight_set_children, coverage_set_children,
          (weight_unfold tg s e node).
        specialize (Hfw s e). lia.
    - eexists _, _. split; [reflexivity|].
      repeat split.
      + exact HB1.
      + intros p q. specialize (HW1 p q).
        pose proof (ok_weight _ _ _ _ _ _ Hok p q). lia.
      + specialize (HW1 s e). lia. }
  destruct Hnode2 as (node2 & i2 & Enode2 & HB2 & H02 & H12 & HW2 & HS2).
  destruct (fst (remainingInterval r) <? snd (remainingInterval r)) eqn:E2.
  - apply Z.ltb_lt in E2. destruct (Hremain E2) as [Hs' He'].
    assert (Hh2 : (height node2 <= S h)%nat).
    { apply height_children. apply (Below_weaken hb h); assumption. }
    destruct (IHre node2 (fst (remainingInterval r)) Hh2 ltac:(lia))
      as (F3 & node3 & r3 & Hcall3 & Hok3).
    assert (HB3 : Below hb (children node3)).
    { apply height_children.
      pose proof (ok_height _ _ _ _ _ _ Hok3).
      assert ((height node2 <= S hb)%nat) by (apply height_children, HB2).
      lia. }
    destruct (Hafter node3 i2) as (F1 & n' & b & Hrun & HB' & Hlo & Hhi & HW & Hb).
    { pose proof (ok_weight _ _ _ _ _ _ Hok3 s e). lia. }
    { exact HB3. }
    exists (S (Nat.max F1 (Nat.max F2 F3))), n', b.
    split; [|repeat split; auto].
    + intros f k Hf Hk. destruct k as [|k]; [lia|].
      rewrite removeChildrenLoop_S. apply Nat.ltb_lt in Ei.
      unfold numChildren. rewrite Ei, E1, (Hcall f), Er by lia.
      rewrite Enode2.
      replace (fst (remainingInterval r) <? snd (remainingInterval r))
        with true by (symmetry; apply Z.ltb_lt; lia).
      rewrite He', (Hcall3 f) by lia. apply Hrun; lia.
    + pose proof (ok_start _ _ _ _ _ _ Hok3). lia.
    + pose proof (ok_end _ _ _ _ _ _ Hok3). lia.
    + intros H; destruct (Hne H).
    + intros p q. specialize (HW p q). specialize (HW2 p q).
      pose proof (ok_weight _ _ _ _ _ _ Hok3 p q). lia.
    + intros _. right. specialize (HW s e).
      pose proof (ok_weight _ _ _ _ _ _ Hok3 s e). lia.
  - destruct (Hafter node2 i2 HS2 HB2)
      as (F1 & n' & b & Hrun & HB' & Hlo & Hhi & HW & Hb).
    exists (S (Nat.max F1 F2)), n', b.
    split; [|repeat split; auto].
    + intros f k Hf Hk. destruct k as [|k]; [lia|].
      rewrite removeChildrenLoop_S. apply Nat.ltb_lt in Ei.
      unfold numChildren. rewrite Ei, E1, (Hcall f), Er by lia.
      rewrite Enode2, E2. apply Hrun; lia.
    + lia.
    + lia.
    + intros H; destruct (Hne H).
    + intros p q. specialize (HW p q). specialize (HW2 p q). lia.
    + intros _. right. specialize (HW s e). lia.
Qed.

End ChildrenLoop.

(** ** Every call of [removeTagDFS] terminates *)

Lemma removeIndices_nil marked : removeIndices marked [] = [].
Proof.
  induction marked as [|i rest IH]; cbn; [reflexivity|].
  unfold remove_at. rewrite firstn_nil, skipn_nil. exact IH.
Qed.

Lemma Below_height hb l x :
  Below hb l -> In x l -> (height x <= hb)%nat.
Proof. unfold Below. rewrite Forall_forall. auto. Qed.

Lemma Below_Forall_le hb k l :
  Below hb l -> (hb <= k)%nat -> Forall (fun x => (height x <= k)%nat) l.
Proof.
  unfold Below. rewrite !Forall_forall. intros H Hk x Hx.
  specialize (H x Hx). lia.
Qed.

Lemma Below_Forall_lt hb k l :
  Below hb l -> (hb < k)%nat -> Forall (fun x => (height x < k)%nat) l.
Proof.
  unfold Below. rewrite !Forall_forall. intros H Hk x Hx.
  specialize (H x Hx). lia.
Qed.

Lemma coverage_tagged tg p q n :
  tag_is (tag n) tg = true ->
  coverage tg p q n
  = Z.to_nat (Z.min q (interval1 n) - Z.max p (interval0 n)).
Proof. unfold coverage. intros ->. reflexivity. Qed.

Lemma coverage_untagged tg p q n :
  tag_is (tag n) tg = false -> coverage tg p q n = O.
Proof. unfold coverage. intros ->. reflexivity. Qed.

Lemma weight_mkNode tg p q a b cs :
  weight tg p q (mkNode a b (Some tg) cs)
  = (Z.to_nat (Z.min q b - Z.max p a) + forestWeight tg p q cs)%nat.
Proof.
  rewrite weight_unfold. unfold coverage. cbn.
  rewrite String.eqb_refl. reflexivity.
Qed.

Lemma forestWeight_nil tg p q : forestWeight tg p q [] = O.
Proof. reflexivity. Qed.

Section Body.
Variable tg : string.
Variable h : nat.
Hypothesis IHh :
  forall c, (height c <= h)%nat -> forall s e, Total tg c s e.
Variables s e : Z.
Hypothesis IHre :
  forall node s', (height node <= S h)%nat -> s < s' < e ->
                  Total tg node s' e.

Lemma removeTagBody_total node :
  (height node <= S h)%nat -> Total tg node s e.
Proof.
  intros Hh.
  pose proof (height_positive node) as Hpos.
  pose proof (Below_children node) as HB.
  assert (Hhb : (height node - 1 <= h)%nat) by lia.
  assert (Hheq : height node = S (height node - 1)) by lia.
  set (hb := (height node - 1)%nat) in *.
  destruct (Z.max s (interval0 node) >=? Z.min e (interval1 node)) eqn:E0.
  { (* no overlap *)
    exists 1%nat, node, (mkResult false NO_OVERLAP (s, e) []). split.
    - intros f Hf. destruct f as [|f]; [lia|].
      rewrite removeTagDFS_S. unfold removeTagBody. cbv zeta.
      rewrite E0. reflexivity.
    - constructor; cbn; intros; try lia; try discriminate; auto. }
  apply geb_false in E0.
  destruct (tag_is (tag node) tg) eqn:Et.
  - destruct (Z.max s (interval0 node) >? interval0 node) eqn:EA;
      destruct (Z.min e (interval1 node) <? interval1 node) eqn:EB.
    + (* Case 1 *)
      destruct (insideLoop_total tg h IHh hb (Z.max s (interval0 node))
                  (Z.min e (interval1 node)) (children node) Hhb HB)
        as (F1 & cs & before & inside & after & rehooks & Hrun
            & Bcs & Bb & Bi & Ba & Br & Hnil & Wcs & Wsum).
      exists (S F1), (set_children node cs),
        (mkResult true REMOVE_INTERVAL_INSIDE (e, e)
           (rehooks
            ++ [mkNode (interval0 node) (Z.max s (interval0 node))
                  (Some tg) before]
            ++ inside
            ++ [mkNode (Z.min e (interval1 node)) (interval1 node)
                  (Some tg) after])).
      split.
      * intros f Hf. destruct f as [|f]; [lia|].
        rewrite removeTagDFS_S. unfold removeTagBody. cbv zeta.
        replace (Z.max s (interval0 node) >=? Z.min e (interval1 node))
          with false by (symmetry; apply geb_false; lia).
        rewrite Et, EA, EB. cbn [andb].
        rewrite (Hrun f) by lia. reflexivity.
      * zbool.
        constructor; cbn [removed state remainingInterval rehookNodeList
                            fst snd entireOrInside RemoveState_eqb orb].
        -- cbn. lia.
        -- cbn. lia.
        -- cbn. exact Hnil.
        -- rewrite Hheq. apply height_set_children, Bcs.
        -- rewrite Hheq. repeat (apply Forall_app; split).
           ++ apply (Below_Forall_le hb); [exact Br|lia].
           ++ constructor; [|constructor]. apply height_node, Bb.
           ++ apply (Below_Forall_le hb); [exact Bi|lia].
           ++ constructor; [|constructor]. apply height_node, Ba.
        -- intros p q. rewrite weight_set_children, (weight_unfold tg p q node).
           specialize (Wcs p q). lia.
        -- intros p q. rewrite !forestWeight_app, !forestWeight_cons.
           rewrite !weight_mkNode, (weight_unfold tg p q node).
           rewrite (coverage_tagged _ _ _ _ Et).
           rewrite !forestWeight_nil.
           specialize (Wsum p q). lia.
        -- discriminate.
        -- intros _. rewrite !forestWeight_app, !forestWeight_cons.
           rewrite !weight_mkNode, (weight_unfold tg s e node).
           rewrite (coverage_tagged _ _ _ _ Et).
           rewrite !forestWeight_nil.
           specialize (Wsum s e). lia.
        -- intros _ H. lia.
    + (* Case 3 *)
      destruct (removeRightLoop_total tg h IHh hb
                  (Z.max s (interval0 node)) Hhb
                  (pendingRight (Z.max s (interval0 node)) (children node))
                  (length (children node) - 0)%nat
                  (children node) O [] (Nat.le_refl _) (Nat.le_refl _) HB)
        as (F1 & cs' & marked' & Hrun & HB' & Hnil & HW).
      exists (S F1),
        (set_children (set_interval1 node (Z.max s (interval0 node)))
           (removeIndices marked' cs')),
        (mkResult true REMOVE_INTERVAL_RIGHT
           (s, Z.max s (interval0 node)) []).
      split.
      * intros f Hf. destruct f as [|f]; [lia|].
        rewrite removeTagDFS_S. unfold removeTagBody. cbv zeta.
        replace (Z.max s (interval0 node) >=? Z.min e (interval1 node))
          with false by (symmetry; apply geb_false; lia).
        rewrite Et, EA, EB. cbn [andb].
        replace (Z.max s (interval0 node) <=? interval0 node) with false
          by (symmetry; apply Z.leb_gt; apply gtb_true in EA; lia).
        replace (Z.min e (interval1 node) >=? interval1 node) with true
          by (symmetry; apply geb_true; apply Z.ltb_ge in EB; lia).
        cbn [andb children set_interval1].
        rewrite (Hrun f f) by lia. reflexivity.
      * zbool.
        constructor; cbn [removed state remainingInterval rehookNodeList
                            fst snd entireOrInside RemoveState_eqb orb].
        -- cbn. lia.
        -- cbn. lia.
        -- cbn. intros H. rewrite (Hnil H). apply removeIndices_nil.
        -- rewrite Hheq. apply height_set_children, Below_removeIndices, HB'.
        -- constructor.
        -- intros p q. rewrite weight_set_children, (weight_unfold tg p q node).
           pose proof (forestWeight_removeIndices tg p q marked' cs').
           specialize (HW p q).
           assert (Hc : (coverage tg p q
                           (set_interval1 node (Z.max s (interval0 node)))
                         <= coverage tg p q node)%nat).
           { apply coverage_shrink; cbn; try reflexivity; lia. }
           lia.
        -- intros p q. cbn. lia.
        -- discriminate.
        -- intros _. rewrite weight_set_children, (weight_unfold tg s e node).
           pose proof (forestWeight_removeIndices tg s e marked' cs').
           specialize (HW s e).
           rewrite (coverage_tagged _ _ _ _ Et), coverage_tagged
             by (cbn; exact Et).
           cbn [interval0 interval1 set_interval1]. lia.
        -- intros _ H. lia.
    + (* Case 2 *)
      destruct (removeLeftLoop_total tg h IHh hb
                  (Z.max s (interval0 node)) (Z.min e (interval1 node)) Hhb
                  (pendingLeft (Z.min e (interval1 node)) (children node))
                  (length (children node) - 0)%nat
                  (children node) O [] (Nat.le_refl _) (Nat.le_refl _) HB)
        as (F1 & cs' & marked' & Hrun & HB' & Hnil & HW).
      exists (S F1),
        (set_children (set_interval0 node (Z.min e (interval1 node)))
           (removeIndices marked' cs')),
        (mkResult true REMOVE_INTERVAL_LEFT
           (Z.min e (interval1 node), e) []).
      split.
      * intros f Hf. destruct f as [|f]; [lia|].
        rewrite removeTagDFS_S. unfold removeTagBody. cbv zeta.
        replace (Z.max s (interval0 node) >=? Z.min e (interval1 node))
          with false by (symmetry; apply geb_false; lia).
        rewrite Et, EA, EB. cbn [andb].
        replace (Z.max s (interval0 node) <=? interval0 node) with true
          by (symmetry; apply Z.leb_le; apply gtb_false in EA; lia).
        cbn [andb children set_interval0].
        rewrite (Hrun f f) by lia. reflexivity.
      * zbool.
        constructor; cbn [removed state remainingInterval rehookNodeList
                            fst snd entireOrInside RemoveState_eqb orb].
        -- cbn. lia.
        -- cbn. lia.
        -- cbn. intros H. rewrite (Hnil H). apply removeIndices_nil.
        -- rewrite Hheq. apply height_set_children, Below_removeIndices, HB'.
        -- constructor.
        -- intros p q. rewrite weight_set_children, (weight_unfold tg p q node).
           pose proof (forestWeight_removeIndices tg p q marked' cs').
           specialize (HW p q).
           assert (Hc : (coverage tg p q
                           (set_interval0 node (Z.min e (interval1 node)))
                         <= coverage tg p q node)%nat).
           { apply coverage_shrink; cbn; try reflexivity; lia. }
           lia.
        -- intros p q. cbn. lia.
        -- discriminate.
        -- intros _. rewrite weight_set_children, (weight_unfold tg s e node).
           pose proof (forestWeight_removeIndices tg s e marked' cs').
           specialize (HW s e).
           rewrite (coverage_tagged _ _ _ _ Et), coverage_tagged
             by (cbn; exact Et).
           cbn [interval0 interval1 set_interval0]. lia.
        -- intros _ H. lia.
    + (* Case 4 *)
      destruct (coverLoop_total tg h IHh hb (Z.max s (interval0 node))
                  (Z.min e (interval1 node)) (children node) Hhb HB)
        as (F1 & rehooks & Hrun & Br & Hnil & Wr).
      exists (S F1), (set_children node []),
        (mkResult true REMOVE_ENTIRE_NODE (Z.min e (interval1 node), e)
           rehooks).
      split.
      * intros f Hf. destruct f as [|f]; [lia|].
        rewrite removeTagDFS_S. unfold removeTagBody. cbv zeta.
        replace (Z.max s (interval0 node) >=? Z.min e (interval1 node))
          with false by (symmetry; apply geb_false; lia).
        rewrite Et, EA, EB. cbn [andb].
        replace (Z.max s (interval0 node) <=? interval0 node) with true
          by (symmetry; apply Z.leb_le; apply gtb_false in EA; lia).
        replace (Z.min e (interval1 node) >=? interval1 node) with true
          by (symmetry; apply geb_true; apply Z.ltb_ge in EB; lia).
        cbn [andb].
        rewrite (Hrun f) by lia. reflexivity.
      * zbool.
        assert (Hsum : forall p q,
                   (weight tg p q (set_children node [])
                    + forestWeight tg p q rehooks
                    <= weight tg p q node)%nat).
        { intros p q. rewrite weight_set_children, (weight_unfold tg p q node).
          specialize (Wr p q). cbn. lia. }
        constructor; cbn [removed state remainingInterval rehookNodeList
                            fst snd entireOrInside RemoveState_eqb orb].
        -- cbn. lia.
        -- cbn. lia.
        -- reflexivity.
        -- cbn. lia.
        -- apply (Below_Forall_le hb); [exact Br|lia].
        -- intros p q. specialize (Hsum p q). lia.
        -- intros p q. specialize (Hsum p q). lia.
        -- intros _. repeat split.
           ++ exact Hnil.
           ++ apply (Below_Forall_lt hb); [exact Br|lia].
           ++ exact Hsum.
        -- intros _. rewrite (weight_unfold tg s e node).
           rewrite (coverage_tagged _ _ _ _ Et). specialize (Wr s e). lia.
        -- intros _ H. lia.
  - (* the node does not carry the tag *)
    destruct (removeChildrenLoop_total tg h IHh s e IHre hb
                (Z.max s (interval0 node)) (Z.min e (interval1 node)) Hhb
                (weight tg s e node)
                (numChildren node
                 - firstRelevant (children node) (Z.max s (interval0 node)))%nat
                node
                (firstRelevant (children node) (Z.max s (interval0 node)))
                false (Nat.le_refl _) (Nat.le_refl _) HB)
      as (F1 & n1 & b & Hrun & HB' & Hlo & Hhi & Hnil & HW & _ & Hb).
    exists (S F1), (set_children n1 (map (clipChild n1) (children n1))),
      (mkResult b PROCESSED_CHILDREN
         (Z.max (Z.min e (interval1 node)) s, e) []).
    split.
    + intros f Hf. destruct f as [|f]; [lia|].
      rewrite removeTagDFS_S. unfold removeTagBody. cbv zeta.
      replace (Z.max s (interval0 node) >=? Z.min e (interval1 node))
        with false by (symmetry; apply geb_false; lia).
      rewrite Et. cbn [andb].
      rewrite (Hrun f f) by lia. reflexivity.
    + assert (Hclip : forall p q,
                 (weight tg p q
                    (set_children n1 (map (clipChild n1) (children n1)))
                  <= weight tg p q n1)%nat).
      { intros p q. rewrite weight_set_children, (weight_unfold tg p q n1).
        pose proof (forestWeight_clip tg p q n1 (children n1)). lia. }
      constructor; cbn [removed state remainingInterval rehookNodeList
                          fst snd entireOrInside RemoveState_eqb orb].
      * cbn. lia.
      * cbn. lia.
      * cbn. intros H. rewrite (Hnil H). reflexivity.
      * rewrite Hheq. apply height_set_children, Below_clip, HB'.
      * constructor.
      * intros p q. specialize (Hclip p q). specialize (HW p q). lia.
      * intros p q. cbn. lia.
      * discriminate.
      * intros Hbt. destruct (Hb Hbt) as [?|Hlt]; [discriminate|].
        specialize (Hclip s e). lia.
      * intros _ H. lia.
Qed.

End Body.

Lemma removeTagDFS_total tg node s e : Total tg node s e.
Proof.
  assert (H : forall h node, (height node <= h)%nat ->
                             forall s e, Total tg node s e).
  { clear node s e. induction h as [|h IHh]; intros node Hh.
    - pose proof (height_positive node). lia.
    - intros s e.
      remember (Z.to_nat (e - s)) as m eqn:Hm.
      revert node Hh s Hm.
      induction m as [m IHm] using lt_wf_ind. intros node Hh s Hm.
      apply (removeTagBody_total tg h IHh s e); [|exact Hh].
      intros node' s' Hh' Hs'.
      apply (IHm (Z.to_nat (e - s'))); [lia|exact Hh'|reflexivity]. }
  apply (H (height node)). apply Nat.le_refl.
Qed.

(** C3.  Every call of [removeTag] terminates, on every tree (so also on
    every tree that the operations can build): from some fuel on the call
    returns, and always the same tree and flag.  The calls that the loop
    of an untagged node makes on the node itself run on an interval whose
    start has moved right, and the loop goes on with a tree that covers
    less of the interval with the tag. *)
Theorem removeTag_terminates
        (tree : TaggedIntervalTree) (tg : string) (start end_ : Z) :
  exists fuel tree' b,
    forall f, (fuel <= f)%nat ->
              removeTag f tree tg start end_ = Some (tree', b).
Proof.
  destruct (removeTagDFS_total tg (root tree) start end_)
    as (F & node' & r & Hrun & _).
  unfold removeTag. destruct (start >=? end_).
  - exists O, tree, false. reflexivity.
  - exists F, (mkTree node'), (removed r). intros f Hf.
    rewrite (Hrun f Hf). reflexivity.
Qed.

(** C10.  On a tree that satisfies the nesting and sortedness invariants
    [removeTag] returns, and when it returns [false] the tree it leaves is
    the tree it was given; it does return [false] when the interval is
    empty, when it lies outside the domain and when no node carries the
    tag. *)
Theorem removeTag_false_leaves_tree_unchanged
        (tree : TaggedIntervalTree) (tg : string) (start end_ : Z) :
  invariants (root tree) = true ->
  exists fuel tree' b,
    (forall f, (fuel <= f)%nat ->
               removeTag f tree tg start end_ = Some (tree', b))
    /\ (b = false -> tree' = tree)
    /\ (start >= end_
        \/ end_ <= interval0 (root tree) \/ interval1 (root tree) <= start
        \/ tagAbsent tg (root tree) = true ->
        b = false).
Proof.
  intros Hinv.
  assert (Hrun : exists fuel tree' b,
             forall f, (fuel <= f)%nat ->
                       removeTag f tree tg start end_ = Some (tree', b)).
  { destruct (removeTagDFS_total tg (root tree) start end_)
      as (F & node' & r & Hrun & _).
    unfold removeTag. destruct (start >=? end_).
    - exists O, tree, false. reflexivity.
    - exists F, (mkTree node'), (removed r). intros f Hf.
      rewrite (Hrun f Hf). reflexivity. }
  destruct Hrun as (fuel & tree' & b & Hrun).
  exists fuel, tree', b. split; [exact Hrun|].
  pose proof (Hrun fuel (Nat.le_refl fuel)) as Hone. split.
  - intros ->. exact (removeTag_unremoved fuel tree tree' tg start end_
                        Hinv Hone).
  - intros Hcase.
    exact (removeTag_reports_false fuel tree tree' tg start end_ b
             Hinv Hcase Hone).
Qed.

Lemma removeTag_false_leaves_tree_unchanged_witness :
  let t := addTag (addTag (createTaggedIntervalTree 0 20) "b" 2 10)
             "i" 5 15 in
  invariants (root t) = true
  /\ exists fuel tree' b,
      (forall f, (fuel <= f)%nat -> removeTag f t "u" 3 12 = Some (tree', b))
      /\ (b = false -> tree' = t)
      /\ (3 >= 12 \/ 12 <= interval0 (root t) \/ interval1 (root t) <= 3
          \/ tagAbsent "u" (root t) = true ->
          b = false).
Proof.
  cbv zeta. split; [reflexivity|].
  apply (removeTag_false_leaves_tree_unchanged _ "u" 3 12).
  reflexivity.
Defined.

(** * Insertion followed by membership *)

(** ** The binary search *)

Lemma StronglySorted_child_at (R : IntervalNode -> IntervalNode -> Prop) cs :
  StronglySorted R cs ->
  forall i j, (i < j < length cs)%nat -> R (child_at cs i) (child_at cs j).
Proof.
  unfold child_at.
  induction 1 as [|x rest Hs IH Hall]; intros i j Hij; cbn in Hij; [lia|].
  destruct j as [|j]; [lia|]. destruct i as [|i]; cbn.
  - rewrite Forall_forall in Hall. apply Hall, nth_In. lia.
  - apply IH. lia.
Qed.

Lemma starts_increasing cs i j :
  StartsIncreasing cs -> (i < j < length cs)%nat ->
  interval0 (child_at cs i) < interval0 (child_at cs j).
Proof. intros H Hij. exact (StronglySorted_child_at _ cs H i j Hij). Qed.

Lemma starts_monotone cs i j :
  StartsIncreasing cs -> (i <= j < length cs)%nat ->
  interval0 (child_at cs i) <= interval0 (child_at cs j).
Proof.
  intros H Hij. destruct (Nat.eq_dec i j) as [->|Hne]; [lia|].
  pose proof (starts_increasing cs i j H ltac:(lia)). lia.
Qed.

Lemma bsearch_spec cs x :
  StartsIncreasing cs ->
  forall fuel left right,
    0 <= left -> right < Z.of_nat (length cs) -> left <= right + 1 ->
    (Z.to_nat (right + 1 - left) <= fuel)%nat ->
    (forall j, (j < Z.to_nat left)%nat -> interval0 (child_at cs j) < x) ->
    (forall j, (Z.to_nat (right + 1) <= j < length cs)%nat ->
               x < interval0 (child_at cs j)) ->
    InsertionPoint cs x (Z.to_nat (bsearch fuel cs x left right)).
Proof.
  intros Hinc. induction fuel as [|f IH];
    intros left right H0 Hr Hlr Hfuel Hbefore Hafter.
  - cbn. assert (left = right + 1) by lia. subst left.
    repeat split; [lia|exact Hbefore|].
    intros j Hj. specialize (Hafter j Hj). lia.
  - cbn [bsearch]. destruct (left <=? right) eqn:E; zbool.
    + pose proof (Z.quot_pos (left + right) 2 ltac:(lia) ltac:(lia)) as Hq0.
      assert (Hmid : left <= Z.quot (left + right) 2 <= right).
      { rewrite Z.quot_div_nonneg by lia. split.
        - apply Z.div_le_lower_bound; lia.
        - apply Z.div_le_upper_bound; lia. }
      set (mid := Z.quot (left + right) 2) in *.
      assert (Hmn : (Z.to_nat mid < length cs)%nat) by lia.
      destruct (interval0 (child_at cs (Z.to_nat mid)) =? x) eqn:E1;
        [|destruct (interval0 (child_at cs (Z.to_nat mid)) <? x) eqn:E2];
        zbool.
      * repeat split; [lia| |].
        -- intros j Hj.
           pose proof (starts_increasing cs j (Z.to_nat mid) Hinc
                         ltac:(lia)). lia.
        -- intros j Hj.
           pose proof (starts_monotone cs (Z.to_nat mid) j Hinc
                         ltac:(lia)). lia.
      * apply IH; try lia.
        -- intros j Hj.
           pose proof (starts_monotone cs j (Z.to_nat mid) Hinc
                         ltac:(lia)). lia.
        -- exact Hafter.
      * apply IH; try lia.
        -- exact Hbefore.
        -- intros j Hj.
           pose proof (starts_monotone cs (Z.to_nat mid) j Hinc
                         ltac:(lia)).
           assert (interval0 (child_at cs (Z.to_nat mid)) <> x) by lia.
           lia.
    + assert (left = right + 1) by lia. subst left.
      repeat split; [lia|exact Hbefore|].
      intros j Hj. specialize (Hafter j Hj). lia.
Qed.

Lemma findInsertionPoint_spec cs x :
  StartsIncreasing cs -> InsertionPoint cs x (findInsertionPoint cs x).
Proof.
  intros Hinc. unfold findInsertionPoint. destruct cs as [|c rest] eqn:Ecs.
  - repeat split; cbn; intros; lia.
  - rewrite <- Ecs in *.
    apply bsearch_spec; try assumption;
      try (subst cs; cbn [length]; lia);
      intros j Hj; subst cs; cbn [length] in *; lia.
Qed.

Lemma InsertionPoint_unique cs x k k' :
  InsertionPoint cs x k -> InsertionPoint cs x k' -> k = k'.
Proof.
  intros (Hk & Hb & Ha) (Hk' & Hb' & Ha').
  destruct (Nat.lt_trichotomy k k') as [Hlt|[Heq|Hgt]]; [|exact Heq|].
  - specialize (Hb' k Hlt). specialize (Ha k ltac:(lia)). lia.
  - specialize (Hb k' Hgt). specialize (Ha' k' ltac:(lia)). lia.
Qed.

Lemma findInsertionPoint_is cs x k :
  StartsIncreasing cs -> InsertionPoint cs x k -> findInsertionPoint cs x = k.
Proof.
  intros Hinc Hk.
  exact (InsertionPoint_unique cs x _ _ (findInsertionPoint_spec cs x Hinc) Hk).
Qed.

(** The fuel that [findInsertionPoint] hands to the loop never runs out:
    more fuel gives the same index. *)
Lemma bsearch_fuel cs x fuel fuel' left right :
  (Z.to_nat (right + 1 - left) <= fuel)%nat -> (fuel <= fuel')%nat ->
  0 <= left ->
  bsearch fuel cs x left right = bsearch fuel' cs x left right.
Proof.
  revert fuel' left right. induction fuel as [|f IH];
    intros fuel' left right Hsize Hle H0.
  - destruct fuel' as [|f']; [reflexivity|]. cbn.
    replace (left <=? right) with false by (symmetry; apply Z.leb_gt; lia).
    reflexivity.
  - destruct fuel' as [|f']; [lia|]. cbn [bsearch].
    destruct (left <=? right) eqn:E; [|reflexivity]. zbool.
    pose proof (Z.quot_pos (left + right) 2 ltac:(lia) ltac:(lia)) as Hq0.
    assert (Hmid : left <= Z.quot (left + right) 2 <= right).
    { rewrite Z.quot_div_nonneg by lia. split.
      - apply Z.div_le_lower_bound; lia.
      - apply Z.div_le_upper_bound; lia. }
    destruct (_ =? x); [reflexivity|].
    destruct (_ <? x); apply IH; lia.
Qed.

(** ** Reading the array after an update *)

Lemma child_at_replace_at_other i j x cs :
  i <> j -> child_at (replace_at i x cs) j = child_at cs j.
Proof.
  unfold child_at. revert i j; induction cs as [|c rest IH]; intros i j Hij;
    cbn; [reflexivity|].
  destruct i as [|i], j as [|j]; cbn; try reflexivity; try lia.
  apply IH. lia.
Qed.

Lemma insert_at_length k x cs : length (insert_at k x cs) = S (length cs).
Proof.
  unfold insert_at. rewrite length_app. cbn [length].
  rewrite <- (firstn_skipn k cs) at 3. rewrite length_app. lia.
Qed.

Lemma child_at_insert_at k x cs j :
  (k <= length cs)%nat ->
  child_at (insert_at k x cs) j
  = if (j <? k)%nat then child_at cs j
    else if (j =? k)%nat then x else child_at cs (j - 1).
Proof.
  unfold child_at, insert_at. intros Hk.
  assert (Hlen : length (firstn k cs) = k) by (apply firstn_length_le, Hk).
  destruct (j <? k)%nat eqn:E1.
  - apply Nat.ltb_lt in E1. rewrite app_nth1 by lia.
    rewrite <- (firstn_skipn k cs) at 2. rewrite app_nth1 by lia.
    reflexivity.
  - apply Nat.ltb_ge in E1. rewrite app_nth2 by lia. rewrite Hlen.
    destruct (j =? k)%nat eqn:E2.
    + apply Nat.eqb_eq in E2. subst j. rewrite Nat.sub_diag. reflexivity.
    + apply Nat.eqb_neq in E2.
      destruct (j - k)%nat as [|m] eqn:Em; [lia|]. cbn [nth].
      rewrite <- (firstn_skipn k cs) at 2. rewrite app_nth2 by lia.
      rewrite Hlen. f_equal. lia.
Qed.

Lemma remove_at_length k cs :
  (k < length cs)%nat -> length (remove_at k cs) = (length cs - 1)%nat.
Proof.
  intros Hk. unfold remove_at.
  rewrite length_app, firstn_length_le, length_skipn by lia. lia.
Qed.

Lemma child_at_remove_at k cs j :
  (k < length cs)%nat ->
  child_at (remove_at k cs) j
  = if (j <? k)%nat then child_at cs j else child_at cs (S j).
Proof.
  unfold child_at, remove_at. intros Hk.
  assert (Hlen : length (firstn k cs) = k) by (apply firstn_length_le; lia).
  destruct (j <? k)%nat eqn:E1.
  - apply Nat.ltb_lt in E1. rewrite app_nth1 by lia.
    rewrite <- (firstn_skipn k cs) at 2. rewrite app_nth1 by lia.
    reflexivity.
  - apply Nat.ltb_ge in E1. rewrite app_nth2 by lia. rewrite Hlen.
    rewrite nth_skipn. f_equal. lia.
Qed.

Lemma StartsIncreasing_index cs :
  StartsIncreasing cs <->
  (forall i j, (i < j < length cs)%nat ->
               interval0 (child_at cs i) < interval0 (child_at cs j)).
Proof.
  split; [intros H i j Hij; apply starts_increasing; assumption|].
  unfold StartsIncreasing, child_at.
  induction cs as [|c rest IH]; intros H; constructor.
  - apply IH. intros i j Hij. apply (H (S i) (S j)). cbn. lia.
  - rewrite Forall_forall. intros d Hd.
    destruct (In_nth _ _ dummyNode Hd) as (m & Hm & <-).
    apply (H O (S m)). cbn. lia.
Qed.

(** ** What insertion leaves of a node, and what the membership test finds *)

Lemma tryMergeWithNeighbors_frame node a b tg :
  interval0 (snd (tryMergeWithNeighbors node a b tg)) = interval0 node
  /\ interval1 (snd (tryMergeWithNeighbors node a b tg)) = interval1 node
  /\ tag (snd (tryMergeWithNeighbors node a b tg)) = tag node.
Proof.
  unfold tryMergeWithNeighbors. destruct (children node); [auto|].
  repeat match goal with
         | |- context [if ?c then _ else _] => destruct c
         end; cbn; auto.
Qed.

Lemma applyInsertPoints_frame tg points : forall node,
  interval0 (applyInsertPoints node tg points) = interval0 node
  /\ interval1 (applyInsertPoints node tg points) = interval1 node
  /\ tag (applyInsertPoints node tg points) = tag node.
Proof.
  induction points as [|p rest IH]; intros node; cbn; [auto|].
  pose proof (tryMergeWithNeighbors_frame node (ip_start p) (ip_end p) tg)
    as (H0 & H1 & Ht).
  destruct (tryMergeWithNeighbors node (ip_start p) (ip_end p) tg)
    as [merged node1]. cbn [snd] in *.
  destruct merged.
  - destruct (IH node1) as (I0 & I1 & It). rewrite I0, I1, It. auto.
  - destruct (IH (set_children node
                    (insert_at (ip_index p)
                       (createIntervalNode (ip_start p) (ip_end p) (Some tg))
                       (children node)))) as (I0 & I1 & It).
    rewrite I0, I1, It. auto.
Qed.

Lemma addTagDFS_frame node tg s e :
  interval0 (addTagDFS node tg s e) = interval0 node
  /\ interval1 (addTagDFS node tg s e) = interval1 node
  /\ tag (addTagDFS node tg s e) = tag node.
Proof.
  destruct node as [n0 n1 t cs]. cbn [addTagDFS].
  destruct (Z.max s n0 >=? Z.min e n1); [auto|].
  destruct (tag_is t tg); [auto|].
  destruct cs as [|c rest]; [cbn; auto|].
  pose proof (tryMergeWithNeighbors_frame (mkNode n0 n1 t (c :: rest))
                (Z.max s n0) (Z.min e n1) tg) as Hf.
  destruct (tryMergeWithNeighbors (mkNode n0 n1 t (c :: rest))
              (Z.max s n0) (Z.min e n1) tg) as [merged node1].
  destruct merged; [exact Hf|].
  destruct ((firstRelevant (c :: rest) (Z.max s n0) <? length (c :: rest))%nat
            && (Z.max s n0
                <? interval0
                     (child_at (c :: rest)
                        (firstRelevant (c :: rest) (Z.max s n0)))));
    cbv beta iota zeta;
    match goal with
    | |- context [addLoop ?r ?i ?e ?l ?n ?p ?q] =>
        destruct (addLoop r i e l n p q) as [[cs1 pos1] points1]
    end;
    exact (applyInsertPoints_frame tg _ (mkNode n0 n1 t cs1)).
Qed.

Lemma checkTagDFS_tagged node tg a b :
  tag_is (tag node) tg = true -> interval0 node <= a -> b <= interval1 node ->
  checkTagDFS node tg a b = true.
Proof.
  destruct node as [n0 n1 t cs]. cbn. intros -> H0 H1.
  replace (n0 <=? a) with true by (symmetry; apply Z.leb_le; lia).
  replace (n1 >=? b) with true by (symmetry; apply geb_true; lia).
  reflexivity.
Qed.

(** The scan of [checkTagDFS] answers [true] as soon as one child from the
    starting index on meets the interval and passes the test. *)
Lemma checkLoop_found rec i0 a b :
  forall l i j,
    (i0 <= i + j)%nat -> (j < length l)%nat ->
    interval0 (child_at l j) < b -> a < interval1 (child_at l j) ->
    rec (child_at l j) = true ->
    checkLoop rec i0 a b l i = true.
Proof.
  unfold child_at.
  induction l as [|c rest IH]; intros i j Hi Hj H0 H1 Hrec; cbn in Hj; [lia|].
  cbn [checkLoop]. destruct j as [|j]; cbn [nth] in *.
  - replace (i <? i0)%nat with false by (symmetry; apply Nat.ltb_ge; lia).
    replace (b <=? interval0 c) with false by (symmetry; apply Z.leb_gt; lia).
    replace (a >=? interval1 c) with false
      by (symmetry; apply geb_false; lia).
    cbn [orb]. rewrite Hrec. reflexivity.
  - assert (Hrest : checkLoop rec i0 a b rest (S i) = true)
      by (apply (IH (S i) j); try assumption; lia).
    destruct (i <? i0)%nat; [exact Hrest|].
    destruct ((b <=? interval0 c) || (a >=? interval1 c)); [exact Hrest|].
    destruct (rec c); [reflexivity|exact Hrest].
Qed.

(** The loop of [addTagDFS] in the three situations that arise when no
    node cuts the interval. *)
Lemma addLoop_done rec i0 e : forall l i pos points,
  e <= pos -> addLoop rec i0 e l i pos points = (l, pos, points).
Proof.
  induction l as [|c rest IH]; intros i pos points Hpos; cbn [addLoop];
    [reflexivity|].
  destruct (i <? i0)%nat.
  - rewrite IH by assumption. reflexivity.
  - replace (pos <? e) with false by (symmetry; apply Z.ltb_ge; lia).
    reflexivity.
Qed.

Lemma addLoop_before rec i0 e : forall l i pos points,
  (i + length l <= i0)%nat ->
  addLoop rec i0 e l i pos points = (l, pos, points).
Proof.
  induction l as [|c rest IH]; intros i pos points Hi; cbn [addLoop];
    [reflexivity|].
  cbn [length] in Hi.
  replace (i <? i0)%nat with true by (symmetry; apply Nat.ltb_lt; lia).
  rewrite IH by lia. reflexivity.
Qed.

Lemma addLoop_into_child rec i0 e : forall l i pos points,
  (i <= i0)%nat -> (i0 - i < length l)%nat ->
  pos < e -> pos < interval1 (child_at l (i0 - i)) ->
  e <= interval1 (rec (child_at l (i0 - i)) pos) ->
  addLoop rec i0 e l i pos points
  = (replace_at (i0 - i) (rec (child_at l (i0 - i)) pos) l,
     interval1 (rec (child_at l (i0 - i)) pos), points).
Proof.
  unfold child_at.
  induction l as [|c rest IH]; intros i pos points Hi Hlen Hpos Hc Hrec;
    cbn [length] in Hlen; [lia|].
  cbn [addLoop]. destruct (Nat.eq_dec i i0) as [->|Hne].
  - rewrite Nat.sub_diag in *. cbn [nth replace_at] in *.
    rewrite Nat.ltb_irrefl.
    replace (pos <? e) with true by (symmetry; apply Z.ltb_lt; lia).
    replace (pos <? interval1 c) with true
      by (symmetry; apply Z.ltb_lt; lia).
    assert (Hge : (interval1 (rec c pos) <? e) = false)
      by (apply Z.ltb_ge; lia).
    destruct rest as [|next rest'].
    + cbn [addLoop]. reflexivity.
    + rewrite Hge. cbn [andb]. rewrite addLoop_done by lia. reflexivity.
  - replace (i <? i0)%nat with true by (symmetry; apply Nat.ltb_lt; lia).
    replace (i0 - i)%nat with (S (i0 - S i)) in * by lia.
    cbn [nth replace_at] in *.
    rewrite (IH (S i) pos points) by (try assumption; lia).
    reflexivity.
Qed.

(** ** Trees that the interval does not cut *)

Lemma siblingsOrdered_index cs :
  siblingsOrdered cs = true ->
  forall i j, (i < j < length cs)%nat ->
    interval0 (child_at cs i) <= interval0 (child_at cs j)
    /\ overlaps (child_at cs i) (child_at cs j) = false.
Proof.
  unfold child_at.
  induction cs as [|c rest IH]; intros H i j Hij; cbn in Hij; [lia|].
  cbn in H. apply andb_true_iff in H. destruct H as [Hc Hrest].
  destruct j as [|j]; [lia|]. destruct i as [|i]; cbn [nth].
  - rewrite forallb_forall in Hc.
    assert (Hj : (j < length rest)%nat) by lia.
    specialize (Hc (nth j rest dummyNode) (nth_In rest dummyNode Hj)).
    apply andb_true_iff in Hc. destruct Hc as [H1 H2].
    apply negb_true_iff in H2. zbool. auto.
  - apply IH; [assumption|lia].
Qed.

Lemma node_laminar a b n :
  invariants n = true -> proper n = true -> uncut a b n = true ->
  Laminar a b (children n)
  /\ forall c, In c (children n) ->
               invariants c = true /\ proper c = true /\ uncut a b c = true.
Proof.
  destruct n as [n0 n1 t cs]. cbn [invariants proper uncut children].
  intros Hi Hp Hu.
  apply andb_true_iff in Hi. destruct Hi as [Hord Hi].
  apply andb_true_iff in Hp. destruct Hp as [_ Hp].
  rewrite forallb_forall in Hi, Hp, Hu.
  assert (Hprop : forall j, (j < length cs)%nat ->
                            interval0 (child_at cs j)
                            < interval1 (child_at cs j)).
  { intros j Hj. specialize (Hp _ (child_at_In j cs Hj)).
    destruct (child_at cs j) as [c0 c1 ct ccs]. cbn in *.
    apply andb_true_iff in Hp. destruct Hp as [Hp _]. zbool. exact Hp. }
  split; [constructor|].
  - intros i j Hij.
    destruct (siblingsOrdered_index cs Hord i j Hij) as [Hle Hov].
    pose proof (Hprop i ltac:(lia)). pose proof (Hprop j ltac:(lia)).
    unfold overlaps in Hov. apply andb_false_iff in Hov.
    destruct Hov as [Hov|Hov]; zbool; lia.
  - exact Hprop.
  - intros j Hj. specialize (Hu _ (child_at_In j cs Hj)).
    apply andb_true_iff in Hu. destruct Hu as [Hu _].
    apply orb_true_iff in Hu. destruct Hu as [Hu|Hu].
    + apply orb_true_iff in Hu. destruct Hu as [Hu|Hu]; zbool; auto.
    + zbool. auto.
  - intros c Hc. specialize (Hi c Hc). specialize (Hp c Hc).
    specialize (Hu c Hc).
    apply andb_true_iff in Hi. apply andb_true_iff in Hu.
    destruct Hi as [_ Hi]. destruct Hu as [_ Hu]. auto.
Qed.

Lemma Laminar_increasing a b cs : Laminar a b cs -> StartsIncreasing cs.
Proof.
  intros H. apply StartsIncreasing_index. intros i j Hij.
  pose proof (lam_chain _ _ _ H i j Hij).
  pose proof (lam_proper _ _ _ H i ltac:(lia)). lia.
Qed.

(** ** The insertion point after an update of the array *)

Lemma same_starts cs cs' a k :
  length cs' = length cs ->
  (forall j, interval0 (child_at cs' j) = interval0 (child_at cs j)) ->
  StartsIncreasing cs -> InsertionPoint cs a k ->
  StartsIncreasing cs' /\ InsertionPoint cs' a k.
Proof.
  intros Hlen Hsame Hinc (Hk & Hb & Ha). split.
  - apply StartsIncreasing_index. intros i j Hij. rewrite !Hsame.
    apply starts_increasing; [assumption|lia].
  - repeat split; [lia| |]; intros j Hj; rewrite Hsame; auto.
    apply Ha. lia.
Qed.

Lemma replace_at_keeps_start i x cs a k :
  (i < length cs)%nat -> interval0 x = interval0 (child_at cs i) ->
  StartsIncreasing cs -> InsertionPoint cs a k ->
  StartsIncreasing (replace_at i x cs)
  /\ InsertionPoint (replace_at i x cs) a k.
Proof.
  intros Hi Hx. apply same_starts; [apply replace_at_length|].
  intros j. destruct (Nat.eq_dec i j) as [<-|Hne].
  - rewrite child_at_replace_at by assumption. exact Hx.
  - rewrite child_at_replace_at_other by assumption. reflexivity.
Qed.

Lemma replace_at_pulls_start x cs a k :
  (k < length cs)%nat -> interval0 x = a ->
  StartsIncreasing cs -> InsertionPoint cs a k ->
  StartsIncreasing (replace_at k x cs)
  /\ InsertionPoint (replace_at k x cs) a k.
Proof.
  intros Hlt Hx Hinc (Hk & Hb & Ha).
  assert (Hread : forall j,
             interval0 (child_at (replace_at k x cs) j)
             = if (j =? k)%nat then a else interval0 (child_at cs j)).
  { intros j. destruct (j =? k)%nat eqn:E.
    - apply Nat.eqb_eq in E. subst j.
      rewrite child_at_replace_at by assumption. exact Hx.
    - apply Nat.eqb_neq in E.
      rewrite child_at_replace_at_other by congruence. reflexivity. }
  assert (Hafter : forall j, (k < j < length cs)%nat ->
                             a < interval0 (child_at cs j)).
  { intros j Hj. pose proof (starts_increasing cs k j Hinc ltac:(lia)).
    specialize (Ha k ltac:(lia)). lia. }
  split.
  - apply StartsIncreasing_index. intros i j Hij.
    rewrite replace_at_length in Hij. rewrite !Hread.
    destruct (Nat.eqb_spec i k) as [Ei|Ei], (Nat.eqb_spec j k) as [Ej|Ej];
      try subst i; try subst j; try lia.
    + apply Hafter. lia.
    + apply Hb. lia.
    + apply starts_increasing; [assumption|lia].
  - unfold InsertionPoint. rewrite replace_at_length.
    repeat split; [lia| |]; intros j Hj; rewrite Hread.
    + replace (j =? k)%nat with false by (symmetry; apply Nat.eqb_neq; lia).
      apply Hb. lia.
    + destruct (j =? k)%nat; [lia|]. apply Ha. lia.
Qed.

Lemma insert_at_start x cs a k :
  interval0 x = a ->
  ((k < length cs)%nat -> a < interval0 (child_at cs k)) ->
  StartsIncreasing cs -> InsertionPoint cs a k ->
  StartsIncreasing (insert_at k x cs)
  /\ InsertionPoint (insert_at k x cs) a k.
Proof.
  intros Hx Hnext Hinc (Hk & Hb & Ha).
  assert (Hafter : forall j, (k <= j < length cs)%nat ->
                             a < interval0 (child_at cs j)).
  { intros j Hj. specialize (Hnext ltac:(lia)).
    destruct (Nat.eq_dec j k) as [->|Hne]; [exact Hnext|].
    pose proof (starts_increasing cs k j Hinc ltac:(lia)). lia. }
  split.
  - apply StartsIncreasing_index. intros i j Hij.
    rewrite insert_at_length in Hij.
    rewrite !child_at_insert_at by assumption.
    destruct (Nat.ltb_spec i k) as [Ei|Ei], (Nat.ltb_spec j k) as [Ej|Ej];
      try lia.
    + apply starts_increasing; [assumption|lia].
    + destruct (Nat.eqb_spec j k) as [Ejk|Ejk].
      * rewrite Hx. apply Hb. lia.
      * apply starts_increasing; [assumption|lia].
    + destruct (Nat.eqb_spec i k) as [Eik|Eik],
        (Nat.eqb_spec j k) as [Ejk|Ejk];
        try subst i; try subst j; try lia.
      * rewrite Hx. apply Hafter. lia.
      * apply starts_increasing; [assumption|lia].
  - unfold InsertionPoint. rewrite insert_at_length.
    repeat split; [lia| |]; intros j Hj;
      rewrite child_at_insert_at by assumption.
    + replace (j <? k)%nat with true by (symmetry; apply Nat.ltb_lt; lia).
      apply Hb. lia.
    + replace (j <? k)%nat with false by (symmetry; apply Nat.ltb_ge; lia).
      destruct (j =? k)%nat eqn:Ejk; [lia|].
      apply Nat.eqb_neq in Ejk. apply Ha. lia.
Qed.

Lemma absorb_right_start x cs a k :
  (0 < k)%nat -> (k < length cs)%nat ->
  interval0 x = interval0 (child_at cs (k - 1)) ->
  StartsIncreasing cs -> InsertionPoint cs a k ->
  StartsIncreasing (remove_at k (replace_at (k - 1) x cs))
  /\ InsertionPoint (remove_at k (replace_at (k - 1) x cs)) a k.
Proof.
  intros Hpos Hlt Hx Hinc Hk.
  destruct (replace_at_keeps_start (k - 1) x cs a k ltac:(lia) Hx Hinc Hk)
    as [Hinc' (Hk' & Hb & Ha)].
  assert (Hlen : length (replace_at (k - 1) x cs) = length cs)
    by apply replace_at_length.
  set (l := replace_at (k - 1) x cs) in *.
  split.
  - apply StartsIncreasing_index. intros i j Hij.
    rewrite remove_at_length in Hij by lia.
    rewrite !child_at_remove_at by lia.
    destruct (Nat.ltb_spec i k) as [Ei|Ei], (Nat.ltb_spec j k) as [Ej|Ej];
      try lia;
      apply starts_increasing; try assumption; lia.
  - unfold InsertionPoint. rewrite remove_at_length by lia.
    repeat split; [lia| |]; intros j Hj; rewrite child_at_remove_at by lia.
    + replace (j <? k)%nat with true by (symmetry; apply Nat.ltb_lt; lia).
      apply Hb. lia.
    + replace (j <? k)%nat with false by (symmetry; apply Nat.ltb_ge; lia).
      specialize (Ha (S j) ltac:(lia)).
      pose proof (starts_increasing l j (S j) Hinc' ltac:(lia)) as Hstep.
      destruct (Nat.eq_dec j k) as [->|Hne].
      * specialize (Ha). lia.
      * lia.
Qed.

(** [firstRelevant] is the insertion point or the index before it. *)
Lemma firstRelevant_bound cs a k j :
  StartsIncreasing cs -> InsertionPoint cs a k ->
  j = k \/ (S j = k /\ a < interval1 (child_at cs j)) ->
  (firstRelevant cs a <= j)%nat.
Proof.
  intros Hinc Hk Hj. unfold firstRelevant.
  rewrite (findInsertionPoint_is cs a k Hinc Hk).
  destruct Hj as [->|[<- Hend]].
  - destruct ((0 <? k)%nat && _); lia.
  - replace (S j - 1)%nat with j by lia.
    replace (interval1 (child_at cs j) >? a) with true
      by (symmetry; apply gtb_true; lia).
    cbn. lia.
Qed.

Lemma firstRelevant_cases cs a k :
  StartsIncreasing cs -> InsertionPoint cs a k ->
  ((0 < k)%nat /\ a < interval1 (child_at cs (k - 1))
   /\ firstRelevant cs a = (k - 1)%nat)
  \/ (((0 < k)%nat -> interval1 (child_at cs (k - 1)) <= a)
      /\ firstRelevant cs a = k).
Proof.
  intros Hinc Hk. unfold firstRelevant.
  rewrite (findInsertionPoint_is cs a k Hinc Hk).
  destruct (0 <? k)%nat eqn:E0; cbn [andb].
  - apply Nat.ltb_lt in E0.
    destruct (interval1 (child_at cs (k - 1)) >? a) eqn:E1.
    + zbool. left. auto.
    + zbool. right. split; [intros _; lia|reflexivity].
  - apply Nat.ltb_ge in E0. right. split; [lia|reflexivity].
Qed.

Lemma Covered_check node tg a b :
  Covered tg a b (children node) -> checkTagDFS node tg a b = true.
Proof.
  destruct node as [n0 n1 t cs]. cbn [children].
  intros (j & Hj & Hfirst & H0 & H1 & Hc). cbn [checkTagDFS].
  destruct (tag_is t tg && (n0 <=? a) && (n1 >=? b)); [reflexivity|].
  apply (checkLoop_found _ _ a b cs O j); auto.
Qed.

Lemma tryMerge_unfold node a b tg :
  children node <> [] ->
  tryMergeWithNeighbors node a b tg
  = let cs := children node in
    let k := findInsertionPoint cs a in
    let L := child_at cs (k - 1) in
    let R := child_at cs k in
    if (0 <? k)%nat && tag_is (tag L) tg && (interval1 L >=? a)
    then
      let left1 := set_interval1 L (Z.max (interval1 L) b) in
      if (k <? length cs)%nat && tag_is (tag R) tg
         && (interval1 left1 >=? interval0 R)
      then
        (true,
         set_children node
           (remove_at k
              (replace_at (k - 1)
                 (set_children
                    (set_interval1 left1
                       (Z.max (interval1 left1) (interval1 R)))
                    (children L ++ children R)) cs)))
      else (true, set_children node (replace_at (k - 1) left1 cs))
    else
      if (k <? length cs)%nat && tag_is (tag R) tg && (b >=? interval0 R)
      then
        (true,
         set_children node
           (replace_at k (set_interval0 R (Z.min (interval0 R) a)) cs))
      else (false, node).
Proof.
  unfold tryMergeWithNeighbors. destruct (children node) as [|c rest];
    [congruence|reflexivity].
Qed.

Lemma addTagDFS_unfold n0 n1 t cs tg a b :
  cs <> [] -> n0 <= a -> a < b -> b <= n1 -> tag_is t tg = false ->
  addTagDFS (mkNode n0 n1 t cs) tg a b
  = let (merged, node1) :=
      tryMergeWithNeighbors (mkNode n0 n1 t cs) a b tg in
    if merged then node1
    else
      let i0 := firstRelevant cs a in
      let '(points0, pos0) :=
        if (i0 <? length cs)%nat && (a <? interval0 (child_at cs i0))
        then
          let e := Z.min (interval0 (child_at cs i0)) b in
          ([mkPoint i0 a e], e)
        else ([], a) in
      let '(cs1, pos1, points1) :=
        addLoop (fun child pos => addTagDFS child tg pos b)
          i0 b cs O pos0 points0 in
      let points2 :=
        if pos1 <? b
        then points1 ++ [mkPoint (length cs1) pos1 b]
        else points1 in
      applyInsertPoints (mkNode n0 n1 t cs1) tg (rev points2).
Proof.
  intros Hne H0 Hab H1 Ht. cbn [addTagDFS].
  rewrite Z.max_l, Z.min_l by lia.
  replace (a >=? b) with false by (symmetry; apply geb_false; lia).
  rewrite Ht. destruct cs as [|c rest]; [congruence|reflexivity].
Qed.

(** ** A merge covers the interval *)

Lemma merge_covers node tg a b node1 :
  children node <> [] -> Laminar a b (children node) -> a < b ->
  tryMergeWithNeighbors node a b tg = (true, node1) ->
  Covered tg a b (children node1).
Proof.
  intros Hne Hlam Hab H.
  pose proof (Laminar_increasing _ _ _ Hlam) as Hinc.
  pose proof (findInsertionPoint_spec _ a Hinc) as Hk.
  rewrite tryMerge_unfold in H by assumption. cbv zeta in H.
  set (cs := children node) in *.
  set (k := findInsertionPoint cs a) in *.
  destruct Hlam as [Hchain Hprop Hcut].
  pose proof Hk as (Hkn & Hbefore & Hafter).
  destruct ((0 <? k)%nat && tag_is (tag (child_at cs (k - 1))) tg
            && (interval1 (child_at cs (k - 1)) >=? a)) eqn:E1.
  - (* the left neighbour is extended *)
    apply andb_true_iff in E1. destruct E1 as [E1 Ereach].
    apply andb_true_iff in E1. destruct E1 as [Epos Etag].
    apply Nat.ltb_lt in Epos.
    pose proof (Hbefore (k - 1)%nat ltac:(lia)) as HL0.
    set (L := child_at cs (k - 1)) in *.
    match type of H with
    | (if ?c then _ else _) = _ => destruct c eqn:E2
    end.
    + (* and absorbs the right neighbour *)
      injection H as <-. cbn [children set_children].
      apply andb_true_iff in E2. destruct E2 as [E2 _].
      apply andb_true_iff in E2. destruct E2 as [Ekn _].
      apply Nat.ltb_lt in Ekn.
      match goal with
      | |- Covered _ _ _ (remove_at k (replace_at (k - 1) ?x cs)) =>
          set (left3 := x)
      end.
      destruct (absorb_right_start left3 cs a k Epos Ekn eq_refl Hinc Hk)
        as [Hinc' Hk'].
      assert (Hat : child_at (remove_at k (replace_at (k - 1) left3 cs))
                      (k - 1) = left3).
      { rewrite child_at_remove_at by (rewrite replace_at_length; lia).
        replace (k - 1 <? k)%nat with true
          by (symmetry; apply Nat.ltb_lt; lia).
        apply child_at_replace_at. lia. }
      assert (Hend : b <= interval1 left3) by (cbn; lia).
      exists (k - 1)%nat. rewrite Hat.
      split; [rewrite remove_at_length; rewrite replace_at_length; lia|].
      split.
      { apply (firstRelevant_bound _ a k); try assumption.
        right. rewrite Hat. split; lia. }
      split; [cbn; fold L; lia|]. split; [lia|].
      apply checkTagDFS_tagged; [exact Etag|cbn; fold L; lia|exact Hend].
    + injection H as <-. cbn [children set_children].
      match goal with
      | |- Covered _ _ _ (replace_at (k - 1) ?x cs) => set (left1 := x)
      end.
      destruct (replace_at_keeps_start (k - 1) left1 cs a k ltac:(lia)
                  eq_refl Hinc Hk) as [Hinc' Hk'].
      assert (Hat : child_at (replace_at (k - 1) left1 cs) (k - 1) = left1)
        by (apply child_at_replace_at; lia).
      assert (Hend : b <= interval1 left1) by (cbn; lia).
      exists (k - 1)%nat. rewrite Hat.
      split; [rewrite replace_at_length; lia|].
      split.
      { apply (firstRelevant_bound _ a k); try assumption.
        right. rewrite Hat. split; lia. }
      split; [cbn; fold L; lia|]. split; [lia|].
      apply checkTagDFS_tagged; [exact Etag|cbn; fold L; lia|exact Hend].
  - (* the right neighbour is extended to the left *)
    match type of H with
    | (if ?c then _ else _) = _ => destruct c eqn:E3
    end; [|discriminate].
    injection H as <-. cbn [children set_children].
    apply andb_true_iff in E3. destruct E3 as [E3 Ereach].
    apply andb_true_iff in E3. destruct E3 as [Ekn Etag].
    apply Nat.ltb_lt in Ekn. apply geb_true in Ereach.
    pose proof (Hafter k ltac:(lia)) as HR0.
    pose proof (Hprop k Ekn) as HRp.
    pose proof (Hcut k Ekn) as HRc.
    set (R := child_at cs k) in *.
    match goal with
    | |- Covered _ _ _ (replace_at k ?x cs) => set (R' := x)
    end.
    assert (Hstart : interval0 R' = a) by (cbn; lia).
    destruct (replace_at_pulls_start R' cs a k Ekn Hstart Hinc Hk)
      as [Hinc' Hk'].
    assert (Hat : child_at (replace_at k R' cs) k = R')
      by (apply child_at_replace_at; lia).
    assert (Hend : b <= interval1 R') by (cbn; lia).
    exists k. rewrite Hat.
    split; [rewrite replace_at_length; lia|].
    split; [apply (firstRelevant_bound _ a k); auto|].
    split; [lia|]. split; [lia|].
    apply checkTagDFS_tagged; [exact Etag|lia|exact Hend].
Qed.

Lemma addLoop_into_first rec i0 e l pos points :
  (i0 < length l)%nat ->
  pos < e -> pos < interval1 (child_at l i0) ->
  e <= interval1 (rec (child_at l i0) pos) ->
  addLoop rec i0 e l O pos points
  = (replace_at i0 (rec (child_at l i0) pos) l,
     interval1 (rec (child_at l i0) pos), points).
Proof.
  intros Hlen Hpos Hc Hrec.
  pose proof (addLoop_into_child rec i0 e l O pos points) as H.
  rewrite Nat.sub_0_r in H. apply H; try assumption; lia.
Qed.

(** ** Without a merge: the interval goes into a child or into a gap *)

Lemma unmerged_covers n0 n1 t cs tg a b node1 :
  cs <> [] -> n0 <= a -> a < b -> b <= n1 -> tag_is t tg = false ->
  Laminar a b cs ->
  tryMergeWithNeighbors (mkNode n0 n1 t cs) a b tg = (false, node1) ->
  (forall j, (j < length cs)%nat ->
             interval0 (child_at cs j) <= a ->
             b <= interval1 (child_at cs j) ->
             checkTagDFS (addTagDFS (child_at cs j) tg a b) tg a b = true) ->
  Covered tg a b (children (addTagDFS (mkNode n0 n1 t cs) tg a b)).
Proof.
  intros Hne H0 Hab H1 Ht Hlam Hmerge IH.
  pose proof (Laminar_increasing _ _ _ Hlam) as Hinc.
  pose proof (findInsertionPoint_spec _ a Hinc) as Hk.
  rewrite addTagDFS_unfold by assumption. rewrite Hmerge.
  cbv beta iota zeta.
  set (k := findInsertionPoint cs a) in *.
  destruct Hlam as [Hchain Hprop Hcut].
  pose proof Hk as (Hkn & Hbefore & Hafter).
  destruct (firstRelevant_cases cs a k Hinc Hk)
    as [(Hpos & HLend & Hfr)|(HLend & Hfr)]; rewrite Hfr.
  - (* the child before the insertion point contains the interval *)
    pose proof (Hbefore (k - 1)%nat ltac:(lia)) as HL0.
    pose proof (Hcut (k - 1)%nat ltac:(lia)) as HLc.
    assert (HLb : b <= interval1 (child_at cs (k - 1))) by lia.
    pose proof (addTagDFS_frame (child_at cs (k - 1)) tg a b)
      as (Hf0 & Hf1 & _).
    replace (a <? interval0 (child_at cs (k - 1))) with false
      by (symmetry; apply Z.ltb_ge; lia).
    rewrite andb_false_r. cbv beta iota zeta.
    rewrite addLoop_into_first by (try rewrite Hf1; lia).
    cbv beta iota zeta. rewrite Hf1.
    replace (interval1 (child_at cs (k - 1)) <? b) with false
      by (symmetry; apply Z.ltb_ge; lia).
    cbn [rev applyInsertPoints children].
    set (L' := addTagDFS (child_at cs (k - 1)) tg a b) in *.
    destruct (replace_at_keeps_start (k - 1) L' cs a k ltac:(lia) Hf0
                Hinc Hk) as [Hinc' Hk'].
    assert (Hat : child_at (replace_at (k - 1) L' cs) (k - 1) = L')
      by (apply child_at_replace_at; lia).
    exists (k - 1)%nat. rewrite Hat.
    split; [rewrite replace_at_length; lia|].
    split.
    { apply (firstRelevant_bound _ a k); try assumption.
      right. rewrite Hat. split; lia. }
    split; [lia|]. split; [lia|].
    apply IH; lia.
  - destruct (Nat.ltb_spec k (length cs)) as [Ekn|Ekn]; cbn [andb].
    + pose proof (Hafter k ltac:(lia)) as HR0.
      pose proof (Hprop k Ekn) as HRp.
      pose proof (Hcut k Ekn) as HRc.
      pose proof (addTagDFS_frame (child_at cs k) tg a b)
        as (Hf0 & Hf1 & _).
      destruct (Z.ltb_spec a (interval0 (child_at cs k))) as [Egap|Egap].
      * (* a gap before the next child takes the interval *)
        assert (HRb : b <= interval0 (child_at cs k)) by lia.
        cbv beta iota zeta. rewrite Z.min_r by lia.
        rewrite addLoop_done by lia. cbv beta iota zeta.
        rewrite Z.ltb_irrefl. cbn [app rev applyInsertPoints].
        cbn [ip_start ip_end ip_index]. rewrite Hmerge.
        cbn [children set_children].
        set (new := createIntervalNode a b (Some tg)).
        destruct (insert_at_start new cs a k eq_refl ltac:(lia) Hinc Hk)
          as [Hinc' Hk'].
        assert (Hat : child_at (insert_at k new cs) k = new).
        { rewrite child_at_insert_at by assumption.
          rewrite Nat.ltb_irrefl, Nat.eqb_refl. reflexivity. }
        exists k. rewrite Hat.
        split; [rewrite insert_at_length; lia|].
        split; [apply (firstRelevant_bound _ a k); auto|].
        split; [cbn; lia|]. split; [cbn; lia|].
        apply checkTagDFS_tagged; cbn; try lia.
        unfold tag_is. cbn. apply String.eqb_refl.
      * (* the next child starts at [a] and contains the interval *)
        assert (HRb : b <= interval1 (child_at cs k)) by lia.
        cbv beta iota zeta.
        rewrite addLoop_into_first by (try rewrite Hf1; lia).
        cbv beta iota zeta. rewrite Hf1.
        replace (interval1 (child_at cs k) <? b) with false
          by (symmetry; apply Z.ltb_ge; lia).
        cbn [rev applyInsertPoints children].
        set (R' := addTagDFS (child_at cs k) tg a b) in *.
        destruct (replace_at_keeps_start k R' cs a k Ekn Hf0 Hinc Hk)
          as [Hinc' Hk'].
        assert (Hat : child_at (replace_at k R' cs) k = R')
          by (apply child_at_replace_at; lia).
        exists k. rewrite Hat.
        split; [rewrite replace_at_length; lia|].
        split; [apply (firstRelevant_bound _ a k); auto|].
        split; [lia|]. split; [lia|].
        apply IH; lia.
    + (* past the last child *)
      cbv beta iota zeta.
      rewrite addLoop_before by (cbn; lia). cbv beta iota zeta.
      replace (a <? b) with true by (symmetry; apply Z.ltb_lt; lia).
      cbn [app rev applyInsertPoints].
      cbn [ip_start ip_end ip_index]. rewrite Hmerge.
      cbn [children set_children].
      assert (Ek : k = length cs) by lia. rewrite <- Ek.
      set (new := createIntervalNode a b (Some tg)).
      destruct (insert_at_start new cs a k eq_refl ltac:(lia) Hinc Hk)
        as [Hinc' Hk'].
      assert (Hat : child_at (insert_at k new cs) k = new).
      { rewrite child_at_insert_at by assumption.
        rewrite Nat.ltb_irrefl, Nat.eqb_refl. reflexivity. }
      exists k. rewrite Hat.
      split; [rewrite insert_at_length; lia|].
      split; [apply (firstRelevant_bound _ a k); auto|].
      split; [cbn; lia|]. split; [cbn; lia|].
      apply checkTagDFS_tagged; cbn; try lia.
      unfold tag_is. cbn. apply String.eqb_refl.
Qed.

Lemma first_child_covers n0 n1 t tg a b :
  tag_is t tg = false -> n0 <= a -> a < b -> b <= n1 ->
  Covered tg a b (children (addTagDFS (mkNode n0 n1 t []) tg a b)).
Proof.
  intros Ht H0 Hab H1. rewrite addTagDFS_childless by assumption.
  cbn [children]. set (new := mkNode a b (Some tg) []).
  assert (Hinc : StartsIncreasing [new])
    by (repeat constructor).
  assert (Hk : InsertionPoint [new] a O).
  { repeat split; [cbn; lia|intros j Hj; lia|].
    intros j Hj. cbn in Hj. replace j with O by lia. cbn. lia. }
  exists O. split; [cbn; lia|].
  split; [apply (firstRelevant_bound _ a O); auto|].
  split; [cbn; lia|]. split; [cbn; lia|].
  apply checkTagDFS_tagged; cbn; try lia.
  unfold tag_is. cbn. apply String.eqb_refl.
Qed.

Lemma addTagDFS_then_checkTagDFS (tg : string) (a b : Z) :
  a < b ->
  forall node,
    invariants node = true -> proper node = true -> uncut a b node = true ->
    interval0 node <= a -> b <= interval1 node ->
    checkTagDFS (addTagDFS node tg a b) tg a b = true.
Proof.
  intros Hab node.
  induction node as [n0 n1 t cs IH] using IntervalNode_rect_list.
  intros Hinv Hprop Hcut H0 H1. cbn [interval0 interval1] in H0, H1.
  destruct (tag_is t tg) eqn:Ht.
  - (* the node carries the tag itself and is left as it is *)
    assert (Hsame : addTagDFS (mkNode n0 n1 t cs) tg a b = mkNode n0 n1 t cs).
    { cbn [addTagDFS]. rewrite Ht.
      destruct (Z.max a n0 >=? Z.min b n1); reflexivity. }
    rewrite Hsame. apply checkTagDFS_tagged; cbn; auto.
  - apply Covered_check.
    destruct cs as [|c rest] eqn:Ecs.
    + apply first_child_covers; assumption.
    + rewrite <- Ecs in *.
      assert (Hne : cs <> []) by (subst cs; discriminate).
      destruct (node_laminar a b _ Hinv Hprop Hcut) as [Hlam Hchildren].
      cbn [children] in Hlam, Hchildren.
      destruct (tryMergeWithNeighbors (mkNode n0 n1 t cs) a b tg)
        as [merged node1] eqn:Hmerge.
      destruct merged.
      * rewrite addTagDFS_unfold by assumption. rewrite Hmerge.
        apply (merge_covers (mkNode n0 n1 t cs)); assumption.
      * apply (unmerged_covers n0 n1 t cs tg a b node1); try assumption.
        intros j Hj Hj0 Hj1.
        pose proof (child_at_In j cs Hj) as Hin.
        rewrite Forall_forall in IH.
        destruct (Hchildren _ Hin) as (Hi & Hp & Hu).
        apply IH; assumption.
Qed.

(** C1, as stated, fails: the interval [-5,5) meets the domain [0,10), the
    insertion clips it to [0,5), and the membership test for [-5,5) finds
    no node that contains it. *)
Lemma addTag_then_hasTag_counterexample :
  -5 < 5
  /\ Z.max (-5) 0 < Z.min 5 10
  /\ hasTag (addTag (createTaggedIntervalTree 0 10) "x" (-5) 5) "x" (-5) 5
     = false.
Proof. repeat split. Qed.

(** The same test fails inside the domain when the interval crosses a
    child with another tag: the tag is carved into three nodes. *)
Lemma addTag_then_hasTag_fragmented :
  hasTag (addTag (addTag (createTaggedIntervalTree 0 10) "y" 3 6) "x" 0 10)
    "x" 0 10 = false.
Proof. reflexivity. Qed.

(** C1, amended.  Let the tree satisfy the invariants (siblings in order
    and disjoint, children inside their parents) and have no empty node,
    and let [a,b) lie inside the domain and be cut by no node: every node
    contains it or is disjoint from it.  Then [hasTag] holds for [a,b)
    after [addTag]. *)
Theorem addTag_then_hasTag_when_uncut
        (t : TaggedIntervalTree) (tg : string) (a b : Z) :
  invariants (root t) = true -> proper (root t) = true ->
  uncut a b (root t) = true ->
  interval0 (root t) <= a -> a < b -> b <= interval1 (root t) ->
  hasTag (addTag t tg a b) tg a b = true.
Proof.
  intros Hinv Hprop Hcut H0 Hab H1. unfold hasTag, addTag.
  replace (a >=? b) with false by (symmetry; apply geb_false; lia).
  cbn [root]. apply addTagDFS_then_checkTagDFS; assumption.
Qed.

Lemma addTag_then_hasTag_when_uncut_witness :
  invariants (root demoLayers) = true
  /\ proper (root demoLayers) = true
  /\ uncut 4 5 (root demoLayers) = true
  /\ interval0 (root demoLayers) <= 4
  /\ 4 < 5
  /\ 5 <= interval1 (root demoLayers)
  /\ hasTag (addTag demoLayers "x" 4 5) "x" 4 5 = true.
Proof.
  split; [reflexivity|]. split; [reflexivity|]. split; [reflexivity|].
  split; [apply Z.leb_le; reflexivity|]. split; [lia|].
  split; [apply Z.leb_le; reflexivity|].
  apply (addTag_then_hasTag_when_uncut demoLayers "x" 4 5);
    [reflexivity | reflexivity | reflexivity
     | apply Z.leb_le; reflexivity | lia | apply Z.leb_le; reflexivity].
Defined.

(** * Further properties of the code *)

(** ** The binary search on an arbitrary array *)

(** What the loop of [findInsertionPoint] knows about the two elements next
    to the range [left..right] it still searches, sorted array or not. *)
Lemma bsearch_any cs x :
  forall fuel left right,
    0 <= left -> right < Z.of_nat (length cs) -> left <= right + 1 ->
    (Z.to_nat (right + 1 - left) <= fuel)%nat ->
    (0 < left -> interval0 (child_at cs (Z.to_nat (left - 1))) < x) ->
    (right + 1 < Z.of_nat (length cs) ->
     x < interval0 (child_at cs (Z.to_nat (right + 1)))) ->
    let r := bsearch fuel cs x left right in
    left <= r <= right + 1
    /\ ((r <= right /\ interval0 (child_at cs (Z.to_nat r)) = x)
        \/ ((0 < r -> interval0 (child_at cs (Z.to_nat (r - 1))) < x)
            /\ (r < Z.of_nat (length cs) ->
                x < interval0 (child_at cs (Z.to_nat r))))).
Proof.
  induction fuel as [|f IH]; intros left right H0 Hr Hlr Hfuel Hl Hright.
  - cbn. assert (left = right + 1) by lia. subst left.
    split; [lia|]. right. split; [exact Hl|exact Hright].
  - cbn [bsearch]. destruct (left <=? right) eqn:E.
    + apply Z.leb_le in E.
      assert (Hmid : left <= Z.quot (left + right) 2 <= right).
      { rewrite Z.quot_div_nonneg by lia.
        split; [apply Z.div_le_lower_bound; lia
               |apply Z.div_le_upper_bound; lia]. }
      set (mid := Z.quot (left + right) 2) in *.
      destruct (interval0 (child_at cs (Z.to_nat mid)) =? x) eqn:Eeq.
      * apply Z.eqb_eq in Eeq. cbv zeta. split; [lia|]. left.
        split; [lia|exact Eeq].
      * apply Z.eqb_neq in Eeq.
        destruct (interval0 (child_at cs (Z.to_nat mid)) <? x) eqn:Elt.
        -- apply Z.ltb_lt in Elt.
           assert (Hl' : 0 < mid + 1 ->
                         interval0 (child_at cs (Z.to_nat (mid + 1 - 1))) < x)
             by (intros _; replace (mid + 1 - 1) with mid by lia; exact Elt).
           destruct (IH (mid + 1) right ltac:(lia) Hr ltac:(lia) ltac:(lia)
                       Hl' Hright) as [Hrange Hres].
           cbv zeta. split; [lia|]. exact Hres.
        -- apply Z.ltb_ge in Elt.
           assert (Hr' : mid - 1 + 1 < Z.of_nat (length cs) ->
                         x < interval0 (child_at cs (Z.to_nat (mid - 1 + 1))))
             by (intros _; replace (mid - 1 + 1) with mid by lia; lia).
           destruct (IH left (mid - 1) H0 ltac:(lia) ltac:(lia) ltac:(lia)
                       Hl Hr') as [Hrange Hres].
           cbv zeta. split; [lia|].
           destruct Hres as [[Hle Hhit]|Hres];
             [left; split; [lia|exact Hhit]|].
           right. exact Hres.
    + apply Z.leb_gt in E. assert (left = right + 1) by lia. subst left.
      cbv zeta. split; [lia|]. right. split; [exact Hl|exact Hright].
Qed.

Lemma findInsertionPoint_le (cs : list IntervalNode) (x : Z) :
  (findInsertionPoint cs x <= length cs)%nat.
Proof.
  unfold findInsertionPoint. destruct cs as [|c rest] eqn:Ecs; [cbn; lia|].
  rewrite <- Ecs.
  assert (Hn : (0 < length cs)%nat) by (subst cs; cbn; lia).
  destruct (bsearch_any cs x (S (length cs)) 0
              (Z.of_nat (length cs) - 1) ltac:(lia) ltac:(lia) ltac:(lia)
              ltac:(lia) ltac:(lia) ltac:(lia)) as [Hrange _].
  lia.
Qed.

(** X1.  On every array, sorted or not, [findInsertionPoint] returns an
    index [k] that is at most the number of children, and either the child
    at [k] starts exactly at [start], or the child before [k] (if any)
    starts before [start] and the child at [k] (if any) starts after it. *)
Theorem findInsertionPoint_any_array (cs : list IntervalNode) (start : Z) :
  let k := findInsertionPoint cs start in
  (k <= length cs)%nat
  /\ (((k < length cs)%nat /\ interval0 (child_at cs k) = start)
      \/ (((0 < k)%nat -> interval0 (child_at cs (k - 1)) < start)
          /\ ((k < length cs)%nat -> start < interval0 (child_at cs k)))).
Proof.
  cbv zeta. unfold findInsertionPoint. destruct cs as [|c rest] eqn:Ecs.
  - split; [cbn; lia|]. right. split; intros H; cbn in H; lia.
  - rewrite <- Ecs.
    assert (Hn : (0 < length cs)%nat) by (subst cs; cbn; lia).
    destruct (bsearch_any cs start (S (length cs)) 0
                (Z.of_nat (length cs) - 1) ltac:(lia) ltac:(lia) ltac:(lia)
                ltac:(lia) ltac:(lia) ltac:(lia)) as [Hrange Hres].
    set (r := bsearch (S (length cs)) cs start 0 (Z.of_nat (length cs) - 1))
      in *.
    split; [lia|].
    destruct Hres as [[Hle Hhit]|[Hbefore Hafter]].
    + left. split; [lia|exact Hhit].
    + right. split.
      * intros Hk. replace (Z.to_nat r - 1)%nat with (Z.to_nat (r - 1))
          by lia. apply Hbefore. lia.
      * intros Hk. apply Hafter. lia.
Qed.

(** X2.  When the children start at strictly ascending positions,
    [findInsertionPoint] returns the lower bound of [start]: every child
    before the index starts before [start], every child from the index on
    starts at [start] or later. *)
Theorem findInsertionPoint_lower_bound (cs : list IntervalNode) (start : Z) :
  StartsIncreasing cs ->
  let k := findInsertionPoint cs start in
  (k <= length cs)%nat
  /\ (forall j, (j < k)%nat -> interval0 (child_at cs j) < start)
  /\ (forall j, (k <= j < length cs)%nat ->
                start <= interval0 (child_at cs j)).
Proof.
  intros Hinc. exact (findInsertionPoint_spec cs start Hinc).
Qed.

Lemma findInsertionPoint_lower_bound_witness :
  StartsIncreasing (children (root demoLayers))
  /\ let k := findInsertionPoint (children (root demoLayers)) 6 in
     (k <= length (children (root demoLayers)))%nat
     /\ (forall j, (j < k)%nat ->
                   interval0 (child_at (children (root demoLayers)) j) < 6)
     /\ (forall j, (k <= j < length (children (root demoLayers)))%nat ->
                   6 <= interval0 (child_at (children (root demoLayers)) j)).
Proof.
  assert (H : StartsIncreasing (children (root demoLayers))).
  { vm_compute. repeat constructor. }
  split; [exact H|].
  exact (findInsertionPoint_lower_bound (children (root demoLayers)) 6 H).
Defined.

(** X3.  Looking up the start of a child finds that child: on an array
    with strictly ascending starts, [findInsertionPoint] applied to the
    start of the child at index [j] returns [j]. *)
Theorem findInsertionPoint_finds_child (cs : list IntervalNode) (j : nat) :
  StartsIncreasing cs -> (j < length cs)%nat ->
  findInsertionPoint cs (interval0 (child_at cs j)) = j.
Proof.
  intros Hinc Hj. apply findInsertionPoint_is; [exact Hinc|].
  repeat split; [lia| |].
  - intros i Hi. apply starts_increasing; [exact Hinc|lia].
  - intros i Hi. destruct (Nat.eq_dec i j) as [->|Hne]; [lia|].
    pose proof (starts_increasing cs j i Hinc ltac:(lia)). lia.
Qed.

Lemma findInsertionPoint_finds_child_witness :
  StartsIncreasing (children (root demoLayers))
  /\ (1 < length (children (root demoLayers)))%nat
  /\ findInsertionPoint (children (root demoLayers))
       (interval0 (child_at (children (root demoLayers)) 1)) = 1%nat.
Proof.
  assert (H : StartsIncreasing (children (root demoLayers))).
  { vm_compute. repeat constructor. }
  assert (Hlen : (1 < length (children (root demoLayers)))%nat).
  { vm_compute. lia. }
  split; [exact H|]. split; [exact Hlen|].
  exact (findInsertionPoint_finds_child (children (root demoLayers)) 1 H Hlen).
Defined.

(** ** What the membership test finds *)

Lemma subnodes_self n : In n (subnodes n).
Proof. destruct n. cbn. left. reflexivity. Qed.

Lemma subnodes_child n c x :
  In c (children n) -> In x (subnodes c) -> In x (subnodes n).
Proof.
  destruct n as [a b t cs]. cbn [children subnodes]. intros Hc Hx.
  right. apply in_flat_map. exists c. split; assumption.
Qed.

Lemma subnodes_inv n x :
  In x (subnodes n) ->
  x = n \/ exists c, In c (children n) /\ In x (subnodes c).
Proof.
  destruct n as [a b t cs]. cbn [children subnodes]. intros [H|H].
  - left. symmetry. exact H.
  - right. apply in_flat_map in H. exact H.
Qed.

Lemma checkLoop_true rec i0 s e : forall l i,
  checkLoop rec i0 s e l i = true -> exists c, In c l /\ rec c = true.
Proof.
  induction l as [|c rest IH]; intros i H; cbn [checkLoop] in H;
    [discriminate|].
  assert (Hrest : checkLoop rec i0 s e rest (S i) = true ->
                  exists c0, In c0 (c :: rest) /\ rec c0 = true).
  { intros Hr. destruct (IH _ Hr) as (c0 & Hin & Hc0).
    exists c0. split; [right; exact Hin|exact Hc0]. }
  destruct (i <? i0)%nat; [auto|].
  destruct ((e <=? interval0 c) || (s >=? interval1 c)); [auto|].
  destruct (rec c) eqn:Ec; [|auto].
  exists c. split; [left; reflexivity|exact Ec].
Qed.

Lemma checkTagDFS_sound tg s e node :
  checkTagDFS node tg s e = true -> tagCovers node tg s e.
Proof.
  induction node as [n0 n1 t cs IH] using IntervalNode_rect_list.
  cbn [checkTagDFS]. intros H.
  destruct (tag_is t tg && (n0 <=? s) && (n1 >=? e)) eqn:E.
  - apply andb_true_iff in E. destruct E as [E E1].
    apply andb_true_iff in E. destruct E as [Et E0].
    apply Z.leb_le in E0. apply geb_true in E1.
    exists (mkNode n0 n1 t cs). split; [apply subnodes_self|].
    cbn. repeat split; [exact Et|lia|lia].
  - apply checkLoop_true in H. destruct H as (c & Hin & Hc).
    rewrite Forall_forall in IH.
    destruct (IH c Hin Hc) as (x & Hx & Hrest).
    exists x. split; [|exact Hrest].
    apply (subnodes_child (mkNode n0 n1 t cs) c); assumption.
Qed.

(** X4.  [hasTag] never answers [true] without a reason: when it does,
    some node of the tree carries the tag and contains the interval. *)
Theorem hasTag_true_has_covering_node
        (tree : TaggedIntervalTree) (tg : string) (s e : Z) :
  hasTag tree tg s e = true ->
  exists x, In x (subnodes (root tree))
            /\ tag x = Some tg
            /\ interval0 x <= s /\ e <= interval1 x.
Proof.
  intros H. destruct (checkTagDFS_sound tg s e (root tree) H)
    as (x & Hx & Ht & H0 & H1).
  exists x. repeat split; try assumption.
  destruct (tag x) as [t|]; [|discriminate]. cbn in Ht.
  apply String.eqb_eq in Ht. subst. reflexivity.
Qed.

Lemma hasTag_true_has_covering_node_witness :
  hasTag demoLayers "z" 5 6 = true
  /\ exists x, In x (subnodes (root demoLayers))
               /\ tag x = Some "z"%string
               /\ interval0 x <= 5 /\ 6 <= interval1 x.
Proof.
  split; [reflexivity|].
  apply (hasTag_true_has_covering_node demoLayers "z" 5 6). reflexivity.
Defined.

(** ** Well-formed trees: the test finds every covering node *)

Lemma node_ordered n :
  invariants n = true -> proper n = true ->
  (forall i j, (i < j < length (children n))%nat ->
               interval1 (child_at (children n) i)
               <= interval0 (child_at (children n) j))
  /\ (forall j, (j < length (children n))%nat ->
                interval0 (child_at (children n) j)
                < interval1 (child_at (children n) j))
  /\ (forall c, In c (children n) ->
                invariants c = true /\ proper c = true
                /\ interval0 n <= interval0 c /\ interval1 c <= interval1 n).
Proof.
  destruct n as [n0 n1 t cs]. cbn [invariants proper children].
  intros Hi Hp.
  apply andb_true_iff in Hi. destruct Hi as [Hord Hi].
  apply andb_true_iff in Hp. destruct Hp as [_ Hp].
  rewrite forallb_forall in Hi, Hp.
  assert (Hprop : forall j, (j < length cs)%nat ->
                            interval0 (child_at cs j)
                            < interval1 (child_at cs j)).
  { intros j Hj. specialize (Hp _ (child_at_In j cs Hj)).
    destruct (child_at cs j) as [c0 c1 ct ccs]. cbn in *.
    apply andb_true_iff in Hp. destruct Hp as [Hp _].
    apply Z.ltb_lt in Hp. exact Hp. }
  split; [|split].
  - intros i j Hij.
    destruct (siblingsOrdered_index cs Hord i j Hij) as [Hle Hov].
    pose proof (Hprop i ltac:(lia)). pose proof (Hprop j ltac:(lia)).
    unfold overlaps in Hov. apply andb_false_iff in Hov.
    destruct Hov as [Hov|Hov]; apply Z.ltb_ge in Hov; lia.
  - exact Hprop.
  - intros c Hc. specialize (Hi c Hc). specialize (Hp c Hc).
    apply andb_true_iff in Hi. destruct Hi as [Hw Hi].
    unfold within in Hw. apply andb_true_iff in Hw. destruct Hw as [H0 H1].
    apply Z.leb_le in H0, H1. cbn. auto.
Qed.

Lemma subnodes_within n :
  invariants n = true -> proper n = true ->
  forall x, In x (subnodes n) ->
            interval0 n <= interval0 x /\ interval1 x <= interval1 n.
Proof.
  induction n as [n0 n1 t cs IH] using IntervalNode_rect_list.
  intros Hi Hp x Hx.
  destruct (node_ordered _ Hi Hp) as (_ & _ & Hch).
  destruct (subnodes_inv _ _ Hx) as [->|(c & Hc & Hxc)]; [lia|].
  cbn [children] in Hc, Hch. rewrite Forall_forall in IH.
  destruct (Hch c Hc) as (Hic & Hpc & H0 & H1).
  specialize (IH c Hc Hic Hpc x Hxc). lia.
Qed.

Lemma checkTagDFS_complete tg s e :
  s < e ->
  forall node,
    invariants node = true -> proper node = true ->
    tagCovers node tg s e -> checkTagDFS node tg s e = true.
Proof.
  intros Hse node.
  induction node as [n0 n1 t cs IH] using IntervalNode_rect_list.
  intros Hi Hp (x & Hx & Ht & H0 & H1).
  destruct (subnodes_inv _ _ Hx) as [->|(c & Hc & Hxc)].
  - apply checkTagDFS_tagged; assumption.
  - apply Covered_check. cbn [children] in *.
    destruct (node_ordered _ Hi Hp) as (Hchain & Hprop & Hch).
    cbn [children] in Hchain, Hprop, Hch.
    destruct (Hch c Hc) as (Hic & Hpc & _ & _).
    destruct (subnodes_within c Hic Hpc x Hxc) as [Hc0 Hc1].
    destruct (In_nth cs c dummyNode Hc) as (j & Hj & Hcj).
    fold (child_at cs j) in Hcj.
    assert (Hinc : StartsIncreasing cs).
    { apply StartsIncreasing_index. intros i i' Hii.
      pose proof (Hchain i i' Hii). pose proof (Hprop i ltac:(lia)). lia. }
    pose proof (findInsertionPoint_spec cs s Hinc) as Hk.
    set (k := findInsertionPoint cs s) in *.
    pose proof Hk as (Hkn & Hbefore & Hafter).
    exists j. rewrite Hcj.
    split; [exact Hj|]. split.
    + apply (firstRelevant_bound cs s k j Hinc Hk). rewrite Hcj.
      destruct (Z.eq_dec (interval0 c) s) as [Heq|Hne].
      * left.
        destruct (Nat.lt_trichotomy j k) as [Hlt|[Heq'|Hgt]];
          [|exact Heq'|].
        -- specialize (Hbefore j Hlt). rewrite Hcj in Hbefore. lia.
        -- pose proof (Hafter k ltac:(lia)).
           pose proof (starts_increasing cs k j Hinc ltac:(lia)) as Hs.
           rewrite Hcj in Hs. lia.
      * right. split; [|lia].
        destruct (Nat.lt_trichotomy (S j) k) as [Hlt|[Heq'|Hgt]];
          [|exact Heq'|].
        -- pose proof (Hbefore (k - 1)%nat ltac:(lia)).
           pose proof (Hchain j (k - 1)%nat ltac:(lia)) as Hs.
           rewrite Hcj in Hs. lia.
        -- specialize (Hafter j ltac:(lia)). rewrite Hcj in Hafter. lia.
    + split; [lia|]. split; [lia|].
      rewrite Forall_forall in IH. apply (IH c Hc Hic Hpc).
      exists x. auto.
Qed.

(** X5.  On a tree that satisfies the invariants and has no empty node,
    [hasTag] finds every covering node: when a node carries the tag and
    contains the non-empty interval [s,e), the answer is [true]. *)
Theorem hasTag_finds_covering_node
        (tree : TaggedIntervalTree) (tg : string) (s e : Z)
        (x : IntervalNode) :
  invariants (root tree) = true -> proper (root tree) = true ->
  s < e ->
  In x (subnodes (root tree)) -> tag x = Some tg ->
  interval0 x <= s -> e <= interval1 x ->
  hasTag tree tg s e = true.
Proof.
  intros Hi Hp Hse Hx Ht H0 H1. unfold hasTag.
  apply checkTagDFS_complete; try assumption.
  exists x. repeat split; try assumption.
  rewrite Ht. cbn. apply String.eqb_refl.
Qed.

Lemma hasTag_finds_covering_node_witness :
  invariants (root demoLayers) = true
  /\ proper (root demoLayers) = true
  /\ 5 < 6
  /\ In (mkNode 4 6 (Some "z"%string) []) (subnodes (root demoLayers))
  /\ hasTag demoLayers "z" 5 6 = true.
Proof.
  assert (Hin : In (mkNode 4 6 (Some "z"%string) [])
                  (subnodes (root demoLayers))).
  { vm_compute. right. right. left. reflexivity. }
  split; [reflexivity|]. split; [reflexivity|]. split; [lia|].
  split; [exact Hin|].
  apply (hasTag_finds_covering_node demoLayers "z" 5 6
           (mkNode 4 6 (Some "z"%string) []));
    [reflexivity | reflexivity | lia | exact Hin | reflexivity
     | cbn; lia | cbn; lia].
Defined.

(** The hypothesis on empty nodes is needed: beside four empty nodes that
    start where the node "x" on [3,5) starts, the binary search lands
    behind that node, and the test misses it although the invariants
    hold. *)
Lemma hasTag_misses_node_beside_empty_nodes :
  let t := mkTree (mkNode 0 10 None
                     [mkNode 3 5 (Some "x"%string) [];
                      mkNode 3 3 (Some "y"%string) [];
                      mkNode 3 3 (Some "y"%string) [];
                      mkNode 3 3 (Some "y"%string) [];
                      mkNode 3 3 (Some "y"%string) []]) in
  invariants (root t) = true
  /\ In (mkNode 3 5 (Some "x"%string) []) (subnodes (root t))
  /\ hasTag t "x" 3 5 = false.
Proof.
  cbv zeta. split; [reflexivity|]. split; [|reflexivity].
  cbn. right. left. reflexivity.
Qed.

(** X6.  On such a tree the answer [true] is inherited by every non-empty
    part of the interval. *)
Theorem hasTag_holds_on_subintervals
        (tree : TaggedIntervalTree) (tg : string) (s e s' e' : Z) :
  invariants (root tree) = true -> proper (root tree) = true ->
  hasTag tree tg s e = true ->
  s <= s' -> s' < e' -> e' <= e ->
  hasTag tree tg s' e' = true.
Proof.
  intros Hi Hp H Hs Hse He. unfold hasTag in *.
  apply checkTagDFS_complete; try assumption.
  destruct (checkTagDFS_sound tg s e _ H) as (x & Hx & Ht & H0 & H1).
  exists x. repeat split; try assumption; lia.
Qed.

Lemma hasTag_holds_on_subintervals_witness :
  invariants (root demoLayers) = true
  /\ proper (root demoLayers) = true
  /\ hasTag demoLayers "y" 3 6 = true
  /\ hasTag demoLayers "y" 4 5 = true.
Proof.
  split; [reflexivity|]. split; [reflexivity|]. split; [reflexivity|].
  apply (hasTag_holds_on_subintervals demoLayers "y" 3 6 4 5);
    [reflexivity | reflexivity | reflexivity | lia | lia | lia].
Defined.

(** ** The array operations as splittings of the list *)

Lemma replace_at_split i x cs :
  (i < length cs)%nat ->
  replace_at i x cs = firstn i cs ++ x :: skipn (S i) cs.
Proof.
  revert i; induction cs as [|c rest IH]; intros i Hi; cbn in Hi; [lia|].
  destruct i as [|i]; [reflexivity|].
  cbn. rewrite IH by lia. reflexivity.
Qed.

Lemma child_at_split i cs :
  (i < length cs)%nat ->
  cs = firstn i cs ++ child_at cs i :: skipn (S i) cs.
Proof.
  unfold child_at.
  revert i; induction cs as [|c rest IH]; intros i Hi; cbn in Hi; [lia|].
  destruct i as [|i]; [reflexivity|].
  cbn. rewrite <- IH by lia. reflexivity.
Qed.

Lemma absorb_split m x cs :
  (S m < length cs)%nat ->
  remove_at (S m) (replace_at m x cs)
  = firstn m cs ++ x :: skipn (S (S m)) cs.
Proof.
  unfold remove_at.
  revert m; induction cs as [|c rest IH]; intros m Hm; cbn in Hm; [lia|].
  destruct m as [|m].
  - destruct rest as [|d rest']; [cbn in Hm; lia|reflexivity].
  - cbn [replace_at]. cbn. f_equal. apply (IH m). lia.
Qed.

Lemma neighbours_split m cs :
  (S m < length cs)%nat ->
  cs = firstn m cs
       ++ child_at cs m :: child_at cs (S m) :: skipn (S (S m)) cs.
Proof.
  unfold child_at.
  revert m; induction cs as [|c rest IH]; intros m Hm; cbn in Hm; [lia|].
  destruct m as [|m].
  - destruct rest as [|d rest']; [cbn in Hm; lia|reflexivity].
  - cbn. f_equal. apply (IH m). lia.
Qed.

(** ** Insertion leaves the nodes with other tags alone *)

Lemma others_tagged tg n :
  tag_is (tag n) tg = true ->
  others tg n = flat_map (others tg) (children n).
Proof. destruct n as [a b t cs]. cbn. intros ->. reflexivity. Qed.

Lemma others_node tg n :
  others tg n
  = (if tag_is (tag n) tg then [] else [(interval0 n, interval1 n, tag n)])
    ++ flat_map (others tg) (children n).
Proof. destruct n; reflexivity. Qed.

Lemma others_insert_at tg i x cs :
  others tg x = [] ->
  flat_map (others tg) (insert_at i x cs) = flat_map (others tg) cs.
Proof.
  intros Hx. unfold insert_at. rewrite flat_map_app. cbn [flat_map].
  rewrite Hx. cbn [app].
  rewrite <- flat_map_app, firstn_skipn. reflexivity.
Qed.

Lemma tryMerge_others tg node a b :
  flat_map (others tg)
    (children (snd (tryMergeWithNeighbors node a b tg)))
  = flat_map (others tg) (children node).
Proof.
  destruct (children node) as [|c0 rest0] eqn:Ecs.
  { unfold tryMergeWithNeighbors. rewrite Ecs. cbn. rewrite Ecs.
    reflexivity. }
  assert (Hne : children node <> []) by (rewrite Ecs; discriminate).
  rewrite <- Ecs. clear Ecs c0 rest0.
  rewrite tryMerge_unfold by assumption. cbv zeta.
  pose proof (findInsertionPoint_le (children node) a) as Hk.
  set (cs := children node) in *.
  set (k := findInsertionPoint cs a) in *.
  destruct ((0 <? k)%nat && tag_is (tag (child_at cs (k - 1))) tg
            && (interval1 (child_at cs (k - 1)) >=? a)) eqn:E1.
  - apply andb_true_iff in E1. destruct E1 as [E1 _].
    apply andb_true_iff in E1. destruct E1 as [Epos EtL].
    apply Nat.ltb_lt in Epos.
    destruct k as [|m]; [lia|].
    replace (S m - 1)%nat with m in * by lia.
    match goal with
    | |- context [if ?c then _ else _] => destruct c eqn:E2
    end; cbn [snd children set_children].
    + apply andb_true_iff in E2. destruct E2 as [E2 _].
      apply andb_true_iff in E2. destruct E2 as [Ekn EtR].
      apply Nat.ltb_lt in Ekn.
      rewrite absorb_split by assumption.
      rewrite (f_equal (flat_map (others tg)) (neighbours_split m cs Ekn)).
      rewrite !flat_map_app. cbn [flat_map]. f_equal.
      rewrite app_assoc. f_equal.
      rewrite (others_tagged tg (child_at cs m) EtL).
      rewrite (others_tagged tg (child_at cs (S m)) EtR).
      rewrite others_tagged by exact EtL.
      cbn [children set_children set_interval1]. apply flat_map_app.
    + rewrite replace_at_split by lia.
      assert (Hm : (m < length cs)%nat) by lia.
      rewrite (f_equal (flat_map (others tg)) (child_at_split m cs Hm)).
      rewrite !flat_map_app. cbn [flat_map]. f_equal. f_equal.
      rewrite (others_tagged tg (child_at cs m) EtL).
      rewrite others_tagged by exact EtL. reflexivity.
  - match goal with
    | |- context [if ?c then _ else _] => destruct c eqn:E3
    end; cbn [snd children set_children]; [|reflexivity].
    apply andb_true_iff in E3. destruct E3 as [E3 _].
    apply andb_true_iff in E3. destruct E3 as [Ekn EtR].
    apply Nat.ltb_lt in Ekn.
    rewrite replace_at_split by lia.
    rewrite (f_equal (flat_map (others tg)) (child_at_split k cs Ekn)).
    rewrite !flat_map_app. cbn [flat_map]. f_equal. f_equal.
    rewrite (others_tagged tg (child_at cs k) EtR).
    rewrite others_tagged by exact EtR. reflexivity.
Qed.

Lemma applyInsertPoints_others tg points : forall node,
  flat_map (others tg) (children (applyInsertPoints node tg points))
  = flat_map (others tg) (children node).
Proof.
  induction points as [|p rest IH]; intros node; cbn [applyInsertPoints];
    [reflexivity|].
  pose proof (tryMerge_others tg node (ip_start p) (ip_end p)) as Hm.
  destruct (tryMergeWithNeighbors node (ip_start p) (ip_end p) tg)
    as [merged node1].
  cbn [snd] in Hm. rewrite IH. destruct merged; [exact Hm|].
  cbn [children set_children]. apply others_insert_at.
  cbn. unfold tag_is. cbn. rewrite String.eqb_refl. reflexivity.
Qed.

Lemma addLoop_others tg rec i0 e : forall l i pos points,
  (forall c p, In c l -> others tg (rec c p) = others tg c) ->
  flat_map (others tg) (fst (fst (addLoop rec i0 e l i pos points)))
  = flat_map (others tg) l.
Proof.
  induction l as [|c rest IH]; intros i pos points Hrec; cbn [addLoop];
    [reflexivity|].
  assert (Hrest : forall c0 p, In c0 rest ->
                               others tg (rec c0 p) = others tg c0)
    by (intros c0 p Hin; apply Hrec; right; exact Hin).
  destruct (i <? i0)%nat.
  - specialize (IH (S i) pos points Hrest).
    destruct (addLoop rec i0 e rest (S i) pos points) as [[r1 p1] q1].
    cbn [fst flat_map] in *. rewrite IH. reflexivity.
  - destruct (pos <? e); [|reflexivity].
    set (cp := if pos <? interval1 c
               then let c1 := rec c pos in (c1, interval1 c1)
               else (c, pos)).
    assert (Hc : others tg (fst cp) = others tg c).
    { subst cp. destruct (pos <? interval1 c); cbn [fst];
        [apply Hrec; left; reflexivity|reflexivity]. }
    destruct cp as [child1 pos1]. cbn [fst] in Hc.
    match goal with
    | |- context [let '(points1, pos2) := ?x in _] =>
        destruct x as [points1 pos2]
    end.
    specialize (IH (S i) pos2 points1 Hrest).
    destruct (addLoop rec i0 e rest (S i) pos2 points1) as [[r1 p1] q1].
    cbn [fst flat_map] in *. rewrite IH, Hc. reflexivity.
Qed.

Lemma addTagDFS_others tg node : forall s e,
  others tg (addTagDFS node tg s e) = others tg node.
Proof.
  induction node as [n0 n1 t cs IH] using IntervalNode_rect_list.
  intros s e.
  rewrite (others_node tg (addTagDFS _ _ _ _)).
  destruct (addTagDFS_frame (mkNode n0 n1 t cs) tg s e) as (-> & -> & ->).
  rewrite (others_node tg (mkNode n0 n1 t cs)). f_equal.
  cbn [children]. cbn [addTagDFS].
  destruct (Z.max s n0 >=? Z.min e n1); [reflexivity|].
  destruct (tag_is t tg) eqn:Ht; [reflexivity|].
  destruct cs as [|c rest] eqn:Ecs.
  - cbn. unfold tag_is. cbn. rewrite String.eqb_refl. reflexivity.
  - rewrite <- Ecs in *.
    pose proof (tryMerge_others tg (mkNode n0 n1 t cs)
                  (Z.max s n0) (Z.min e n1)) as Hm.
    destruct (tryMergeWithNeighbors (mkNode n0 n1 t cs)
                (Z.max s n0) (Z.min e n1) tg) as [merged node1].
    cbn [snd children] in Hm. destruct merged; [exact Hm|].
    assert (Hrec : forall c0 p, In c0 cs ->
               others tg (addTagDFS c0 tg p (Z.min e n1)) = others tg c0).
    { intros c0 p Hin. rewrite Forall_forall in IH. apply IH. exact Hin. }
    cbv beta iota zeta.
    match goal with
    | |- context [if ?c then _ else _] => destruct c
    end; cbv beta iota zeta;
    match goal with
    | |- context [addLoop ?r ?i ?en ?l O ?p ?q] =>
        pose proof (addLoop_others tg r i en l O p q Hrec) as Hloop;
        destruct (addLoop r i en l O p q) as [[cs1 pos1] points1]
    end;
    cbn [fst] in Hloop;
    rewrite applyInsertPoints_others; cbn [children]; exact Hloop.
Qed.

(** X7.  [addTag] leaves every node with another tag (and every node
    without a tag) as it is: listed parents before children, these nodes
    are the same before and after, with the same intervals. *)
Theorem addTag_keeps_other_tags
        (tree : TaggedIntervalTree) (tg : string) (start end_ : Z) :
  others tg (root (addTag tree tg start end_)) = others tg (root tree).
Proof.
  unfold addTag. destruct (start >=? end_); [reflexivity|].
  cbn [root]. apply addTagDFS_others.
Qed.

(** ** Insertion never changes the domain and never makes an empty node *)

(** X8.  [addTag] never changes the root's own interval or tag: the
    domain of the tree stays what it was. *)
Theorem addTag_keeps_domain
        (tree : TaggedIntervalTree) (tg : string) (start end_ : Z) :
  interval0 (root (addTag tree tg start end_)) = interval0 (root tree)
  /\ interval1 (root (addTag tree tg start end_)) = interval1 (root tree)
  /\ tag (root (addTag tree tg start end_)) = tag (root tree).
Proof.
  unfold addTag. destruct (start >=? end_); [auto|].
  cbn [root]. apply addTagDFS_frame.
Qed.

Lemma forallb_replace_at (P : IntervalNode -> bool) i x cs :
  forallb P cs = true -> P x = true -> forallb P (replace_at i x cs) = true.
Proof.
  revert i; induction cs as [|c rest IH]; intros i Hcs Hx; cbn in *;
    [reflexivity|].
  apply andb_true_iff in Hcs. destruct Hcs as [Hc Hrest].
  destruct i as [|i]; cbn; apply andb_true_iff; split; auto.
Qed.

Lemma forallb_firstn (P : IntervalNode -> bool) i cs :
  forallb P cs = true -> forallb P (firstn i cs) = true.
Proof.
  revert i; induction cs as [|c rest IH]; intros i Hcs;
    [rewrite firstn_nil; reflexivity|].
  cbn in Hcs. apply andb_true_iff in Hcs. destruct Hcs as [Hc Hrest].
  destruct i as [|i]; cbn; [reflexivity|].
  apply andb_true_iff. split; auto.
Qed.

Lemma forallb_skipn (P : IntervalNode -> bool) i cs :
  forallb P cs = true -> forallb P (skipn i cs) = true.
Proof.
  revert i; induction cs as [|c rest IH]; intros i Hcs;
    [rewrite skipn_nil; reflexivity|].
  destruct i as [|i]; [exact Hcs|].
  cbn in Hcs. apply andb_true_iff in Hcs. destruct Hcs as [Hc Hrest].
  cbn. auto.
Qed.

Lemma forallb_remove_at (P : IntervalNode -> bool) i cs :
  forallb P cs = true -> forallb P (remove_at i cs) = true.
Proof.
  intros H. unfold remove_at. rewrite forallb_app.
  rewrite forallb_firstn, forallb_skipn by assumption. reflexivity.
Qed.

Lemma forallb_insert_at (P : IntervalNode -> bool) i x cs :
  forallb P cs = true -> P x = true -> forallb P (insert_at i x cs) = true.
Proof.
  intros H Hx. unfold insert_at. rewrite forallb_app. cbn [forallb].
  rewrite forallb_firstn, forallb_skipn, Hx by assumption. reflexivity.
Qed.

Lemma forallb_child_at (P : IntervalNode -> bool) i cs :
  forallb P cs = true -> (i < length cs)%nat -> P (child_at cs i) = true.
Proof.
  intros H Hi. rewrite forallb_forall in H. apply H, child_at_In, Hi.
Qed.

Lemma proper_node n :
  proper n = true
  <-> interval0 n < interval1 n /\ forallb proper (children n) = true.
Proof.
  destruct n as [a b t cs]. cbn. rewrite andb_true_iff, Z.ltb_lt.
  reflexivity.
Qed.

Lemma tryMerge_proper tg node a b :
  proper node = true ->
  proper (snd (tryMergeWithNeighbors node a b tg)) = true.
Proof.
  intros Hp. destruct (children node) as [|c0 rest0] eqn:Ecs.
  { unfold tryMergeWithNeighbors. rewrite Ecs. exact Hp. }
  assert (Hne : children node <> []) by (rewrite Ecs; discriminate).
  clear Ecs c0 rest0.
  rewrite tryMerge_unfold by assumption. cbv zeta.
  pose proof (findInsertionPoint_le (children node) a) as Hk.
  apply proper_node in Hp. destruct Hp as [Hlt Hcs].
  set (cs := children node) in *.
  set (k := findInsertionPoint cs a) in *.
  destruct ((0 <? k)%nat && tag_is (tag (child_at cs (k - 1))) tg
            && (interval1 (child_at cs (k - 1)) >=? a)) eqn:E1.
  - apply andb_true_iff in E1. destruct E1 as [E1 _].
    apply andb_true_iff in E1. destruct E1 as [Epos _].
    apply Nat.ltb_lt in Epos.
    pose proof (forallb_child_at proper (k - 1) cs Hcs ltac:(lia)) as HL.
    apply proper_node in HL. destruct HL as [HLlt HLcs].
    match goal with
    | |- context [if ?c then _ else _] => destruct c eqn:E2
    end; cbn [snd]; apply proper_node; cbn [children set_children
      interval0 interval1]; (split; [exact Hlt|]).
    + apply andb_true_iff in E2. destruct E2 as [E2 _].
      apply andb_true_iff in E2. destruct E2 as [Ekn _].
      apply Nat.ltb_lt in Ekn.
      pose proof (forallb_child_at proper k cs Hcs Ekn) as HR.
      apply proper_node in HR. destruct HR as [HRlt HRcs].
      apply forallb_remove_at, forallb_replace_at; [exact Hcs|].
      apply proper_node. cbn. split; [lia|].
      rewrite forallb_app, HLcs, HRcs. reflexivity.
    + apply forallb_replace_at; [exact Hcs|].
      apply proper_node. cbn. split; [lia|exact HLcs].
  - match goal with
    | |- context [if ?c then _ else _] => destruct c eqn:E3
    end; cbn [snd]; apply proper_node; cbn [children set_children
      interval0 interval1]; (split; [exact Hlt|]); [|exact Hcs].
    apply andb_true_iff in E3. destruct E3 as [E3 _].
    apply andb_true_iff in E3. destruct E3 as [Ekn _].
    apply Nat.ltb_lt in Ekn.
    pose proof (forallb_child_at proper k cs Hcs Ekn) as HR.
    apply proper_node in HR. destruct HR as [HRlt HRcs].
    apply forallb_replace_at; [exact Hcs|].
    apply proper_node. cbn. split; [lia|exact HRcs].
Qed.

Lemma applyInsertPoints_proper tg points : forall node,
  proper node = true -> Forall pointProper points ->
  proper (applyInsertPoints node tg points) = true.
Proof.
  induction points as [|p rest IH]; intros node Hp Hpts;
    cbn [applyInsertPoints]; [exact Hp|].
  inversion Hpts as [|p' rest' Hpt Hrest]; subst.
  pose proof (tryMerge_proper tg node (ip_start p) (ip_end p) Hp) as Hm.
  destruct (tryMergeWithNeighbors node (ip_start p) (ip_end p) tg)
    as [merged node1].
  cbn [snd] in Hm. apply IH; [|exact Hrest].
  destruct merged; [exact Hm|].
  apply proper_node in Hp. destruct Hp as [Hlt Hcs].
  apply proper_node. cbn [children set_children interval0 interval1].
  split; [exact Hlt|].
  apply forallb_insert_at; [exact Hcs|].
  apply proper_node. cbn. split; [exact Hpt|reflexivity].
Qed.

Lemma addLoop_proper rec i0 e : forall l i pos points,
  forallb proper l = true ->
  (forall c p, In c l -> proper (rec c p) = true) ->
  Forall pointProper points ->
  forallb proper (fst (fst (addLoop rec i0 e l i pos points))) = true
  /\ Forall pointProper (snd (addLoop rec i0 e l i pos points)).
Proof.
  induction l as [|c rest IH]; intros i pos points Hl Hrec Hpts;
    cbn [addLoop]; [split; [reflexivity|exact Hpts]|].
  pose proof Hl as Hl'. cbn in Hl'. apply andb_true_iff in Hl'.
  destruct Hl' as [Hc Hrest].
  assert (Hrec' : forall c0 p, In c0 rest -> proper (rec c0 p) = true)
    by (intros c0 p Hin; apply Hrec; right; exact Hin).
  destruct (i <? i0)%nat.
  - specialize (IH (S i) pos points Hrest Hrec' Hpts).
    destruct (addLoop rec i0 e rest (S i) pos points) as [[r1 p1] q1].
    cbn [fst snd forallb] in *. rewrite Hc. exact IH.
  - destruct (pos <? e); [|split; [exact Hl|exact Hpts]].
    set (cp := if pos <? interval1 c
               then let c1 := rec c pos in (c1, interval1 c1)
               else (c, pos)).
    assert (Hcp : proper (fst cp) = true).
    { subst cp. destruct (pos <? interval1 c); cbn [fst];
        [apply Hrec; left; reflexivity|exact Hc]. }
    destruct cp as [child1 pos1]. cbn [fst] in Hcp.
    set (gap := match rest with
                | next :: _ =>
                    if (pos1 <? e) && (pos1 <? interval0 next)
                    then
                      let e0 := Z.min (interval0 next) e in
                      (points ++ [mkPoint (S i) pos1 e0], e0)
                    else (points, pos1)
                | [] => (points, pos1)
                end).
    assert (Hgap : Forall pointProper (fst gap)).
    { subst gap. destruct rest as [|next rest']; [exact Hpts|].
      destruct ((pos1 <? e) && (pos1 <? interval0 next)) eqn:E;
        [|exact Hpts].
      apply andb_true_iff in E. destruct E as [E1 E2].
      apply Z.ltb_lt in E1, E2. cbn [fst].
      apply Forall_app. split; [exact Hpts|].
      constructor; [|constructor]. unfold pointProper. cbn. lia. }
    destruct gap as [points1 pos2]. cbn [fst] in Hgap.
    specialize (IH (S i) pos2 points1 Hrest Hrec' Hgap).
    destruct (addLoop rec i0 e rest (S i) pos2 points1) as [[r1 p1] q1].
    cbn [fst snd forallb] in *. rewrite Hcp. exact IH.
Qed.

Lemma addTagDFS_proper tg node : forall s e,
  proper node = true -> proper (addTagDFS node tg s e) = true.
Proof.
  induction node as [n0 n1 t cs IH] using IntervalNode_rect_list.
  intros s e Hp. cbn [addTagDFS].
  destruct (Z.max s n0 >=? Z.min e n1) eqn:Ese; [exact Hp|].
  apply geb_false in Ese.
  destruct (tag_is t tg) eqn:Ht; [exact Hp|].
  pose proof Hp as Hp'. apply proper_node in Hp'.
  cbn [interval0 interval1 children] in Hp'. destruct Hp' as [Hlt Hcs].
  destruct cs as [|c rest] eqn:Ecs.
  - cbn. apply andb_true_iff. split; [apply Z.ltb_lt; exact Hlt|].
    apply andb_true_iff. split; [|reflexivity].
    apply andb_true_iff. split; [apply Z.ltb_lt; lia|reflexivity].
  - rewrite <- Ecs in *.
    pose proof (tryMerge_proper tg (mkNode n0 n1 t cs)
                  (Z.max s n0) (Z.min e n1) Hp) as Hm.
    destruct (tryMergeWithNeighbors (mkNode n0 n1 t cs)
                (Z.max s n0) (Z.min e n1) tg) as [merged node1].
    cbn [snd] in Hm. destruct merged; [exact Hm|].
    assert (Hrec : forall c0 p, In c0 cs ->
               proper (addTagDFS c0 tg p (Z.min e n1)) = true).
    { intros c0 p Hin. rewrite Forall_forall in IH. apply IH; [exact Hin|].
      rewrite forallb_forall in Hcs. apply Hcs, Hin. }
    cbv beta iota zeta.
    set (i0 := firstRelevant cs (Z.max s n0)).
    set (first := if (i0 <? length cs)%nat
                     && (Z.max s n0 <? interval0 (child_at cs i0))
                  then
                    let e0 := Z.min (interval0 (child_at cs i0))
                                (Z.min e n1) in
                    ([mkPoint i0 (Z.max s n0) e0], e0)
                  else ([], Z.max s n0)).
    assert (Hfirst : Forall pointProper (fst first)).
    { subst first.
      destruct ((i0 <? length cs)%nat
                && (Z.max s n0 <? interval0 (child_at cs i0))) eqn:E;
        [|constructor].
      apply andb_true_iff in E. destruct E as [_ E].
      apply Z.ltb_lt in E. cbn [fst].
      constructor; [|constructor]. unfold pointProper. cbn. lia. }
    destruct first as [points0 pos0]. cbn [fst] in Hfirst.
    destruct (addLoop_proper
                (fun child pos => addTagDFS child tg pos (Z.min e n1))
                i0 (Z.min e n1) cs O pos0 points0 Hcs Hrec Hfirst)
      as [Hloop Hpoints].
    destruct (addLoop (fun child pos => addTagDFS child tg pos (Z.min e n1))
                i0 (Z.min e n1) cs O pos0 points0)
      as [[cs1 pos1] points1].
    cbn [fst snd] in Hloop, Hpoints.
    apply applyInsertPoints_proper.
    + apply proper_node. cbn. split; [exact Hlt|exact Hloop].
    + apply Forall_rev.
      destruct (pos1 <? Z.min e n1) eqn:E; [|exact Hpoints].
      apply Z.ltb_lt in E. apply Forall_app. split; [exact Hpoints|].
      constructor; [|constructor]. unfold pointProper. cbn. lia.
Qed.

(** X9.  [addTag] never makes an empty node: if every node of the tree
    has a non-empty interval before the call, so it is after it. *)
Theorem addTag_never_makes_empty_node
        (tree : TaggedIntervalTree) (tg : string) (start end_ : Z) :
  proper (root tree) = true ->
  proper (root (addTag tree tg start end_)) = true.
Proof.
  intros Hp. unfold addTag. destruct (start >=? end_); [exact Hp|].
  cbn [root]. apply addTagDFS_proper. exact Hp.
Qed.

Lemma addTag_never_makes_empty_node_witness :
  proper (root demoLayers) = true
  /\ proper (root (addTag demoLayers "z" 1 9)) = true.
Proof.
  split; [reflexivity|].
  apply (addTag_never_makes_empty_node demoLayers "z" 1 9). reflexivity.
Defined.

(** ** What a merge may touch *)

Lemma tryMerge_false_same node a b tg :
  fst (tryMergeWithNeighbors node a b tg) = false ->
  snd (tryMergeWithNeighbors node a b tg) = node.
Proof.
  unfold tryMergeWithNeighbors. destruct (children node) as [|c rest];
    [reflexivity|].
  cbv zeta.
  repeat match goal with
         | |- context [if ?c then _ else _] => destruct c
         end; cbn [fst snd]; intros H; try discriminate H; reflexivity.
Qed.

Lemma tryMerge_length node a b tg :
  (length (children (snd (tryMergeWithNeighbors node a b tg)))
   <= length (children node)
   <= S (length (children (snd (tryMergeWithNeighbors node a b tg)))))%nat.
Proof.
  destruct (children node) as [|c0 rest0] eqn:Ecs.
  { unfold tryMergeWithNeighbors. rewrite Ecs. cbn. rewrite Ecs. cbn. lia. }
  assert (Hne : children node <> []) by (rewrite Ecs; discriminate).
  rewrite <- Ecs. clear Ecs c0 rest0.
  rewrite tryMerge_unfold by assumption. cbv zeta.
  set (cs := children node) in *.
  set (k := findInsertionPoint cs a) in *.
  destruct ((0 <? k)%nat && tag_is (tag (child_at cs (k - 1))) tg
            && (interval1 (child_at cs (k - 1)) >=? a)) eqn:E1.
  - match goal with
    | |- context [if ?c then _ else _] => destruct c eqn:E2
    end; cbn [snd children set_children].
    + apply andb_true_iff in E2. destruct E2 as [E2 _].
      apply andb_true_iff in E2. destruct E2 as [Ekn _].
      apply Nat.ltb_lt in Ekn.
      rewrite remove_at_length by (rewrite replace_at_length; lia).
      rewrite replace_at_length. lia.
    + rewrite replace_at_length. lia.
  - match goal with
    | |- context [if ?c then _ else _] => destruct c eqn:E3
    end; cbn [snd children set_children].
    + rewrite replace_at_length. lia.
    + fold cs. lia.
Qed.

(** X10.  [tryMergeWithNeighbors] touches only children that carry the
    tag it was given: the node's own interval and tag stay, and so does
    every node below it that has another tag; it never adds a child and
    removes at most one; and when it answers [false] it has changed
    nothing at all. *)
Theorem tryMergeWithNeighbors_touches_only_the_tag
        (node : IntervalNode) (newStart newEnd : Z) (tg : string) :
  let merged := fst (tryMergeWithNeighbors node newStart newEnd tg) in
  let node' := snd (tryMergeWithNeighbors node newStart newEnd tg) in
  interval0 node' = interval0 node
  /\ interval1 node' = interval1 node
  /\ tag node' = tag node
  /\ others tg node' = others tg node
  /\ (length (children node') <= length (children node)
      <= S (length (children node')))%nat
  /\ (merged = false -> node' = node).
Proof.
  cbv zeta.
  destruct (tryMergeWithNeighbors_frame node newStart newEnd tg)
    as (H0 & H1 & Ht).
  split; [exact H0|]. split; [exact H1|]. split; [exact Ht|].
  split; [|split; [apply tryMerge_length|apply tryMerge_false_same]].
  rewrite (others_node tg node), (others_node tg (snd _)).
  rewrite H0, H1, Ht, tryMerge_others. reflexivity.
Qed.

(** ** Insertion of an interval that leaves the domain *)

Lemma addTagDFS_clipped node tg s e :
  addTagDFS node tg s e
  = addTagDFS node tg (Z.max s (interval0 node)) (Z.min e (interval1 node)).
Proof.
  destruct node as [n0 n1 t cs]. cbn [addTagDFS interval0 interval1].
  replace (Z.max (Z.max s n0) n0) with (Z.max s n0) by lia.
  replace (Z.min (Z.min e n1) n1) with (Z.min e n1) by lia.
  reflexivity.
Qed.

(** X11.  [addTag] clips the interval to the domain, and [hasTag] then
    holds for the clipped interval: on a tree that satisfies the
    invariants and has no empty node, if [start,end) meets the domain
    [A,B) and no node cuts its part inside the domain, then after
    [addTag] the test for [max start A, min end B) answers [true]. *)
Theorem addTag_then_hasTag_on_clipped_interval
        (t : TaggedIntervalTree) (tg : string) (start end_ : Z) :
  let a := Z.max start (interval0 (root t)) in
  let b := Z.min end_ (interval1 (root t)) in
  invariants (root t) = true -> proper (root t) = true ->
  uncut a b (root t) = true ->
  a < b ->
  hasTag (addTag t tg start end_) tg a b = true.
Proof.
  cbv zeta. intros Hinv Hprop Hcut Hab. unfold hasTag, addTag.
  replace (start >=? end_) with false by (symmetry; apply geb_false; lia).
  cbn [root]. rewrite addTagDFS_clipped.
  apply addTagDFS_then_checkTagDFS; try assumption; lia.
Qed.

Lemma addTag_then_hasTag_on_clipped_interval_witness :
  invariants (root demoLayers) = true
  /\ proper (root demoLayers) = true
  /\ uncut (Z.max 8 (interval0 (root demoLayers)))
       (Z.min 15 (interval1 (root demoLayers))) (root demoLayers) = true
  /\ Z.max 8 (interval0 (root demoLayers))
     < Z.min 15 (interval1 (root demoLayers))
  /\ hasTag (addTag demoLayers "x" 8 15) "x" 8 10 = true.
Proof.
  split; [reflexivity|]. split; [reflexivity|]. split; [reflexivity|].
  split; [reflexivity|].
  apply (addTag_then_hasTag_on_clipped_interval demoLayers "x" 8 15);
    reflexivity.
Defined.

(** ** Removal below a node without the tag *)

Section Frame.
Variable rec : RecFun.
Variable tg : string.
Hypothesis Hrec : KeepsFrame rec.

Lemma removeChildrenLoop_frame k : forall node s e es ee i rem n' b,
  tag_is (tag node) tg = false ->
  removeChildrenLoop rec tg k node s e es ee i rem = Some (n', b) ->
  interval0 n' = interval0 node
  /\ interval1 n' = interval1 node
  /\ tag n' = tag node.
Proof.
  induction k as [|k IH]; intros node s e es ee i rem n' b Ht H;
    [discriminate|].
  simpl in H.
  destruct (i <? numChildren node)%nat;
    [|injection H as <- _; auto].
  destruct ((ee <=? interval0 (child_at (children node) i))
            || (es >=? interval1 (child_at (children node) i)));
    [exact (IH _ _ _ _ _ _ _ _ _ Ht H)|].
  destruct (rec (child_at (children node) i) tg s e) as [[c1 r]|];
    [|discriminate].
  assert (Hstep : forall n2 i2 rem2,
             interval0 n2 = interval0 node ->
             interval1 n2 = interval1 node ->
             tag n2 = tag node ->
             removeChildrenLoop rec tg k n2 s e es ee i2 rem2
             = Some (n', b) ->
             interval0 n' = interval0 node
             /\ interval1 n' = interval1 node
             /\ tag n' = tag node).
  { intros n2 i2 rem2 E0 E1 Et Hrun.
    rewrite <- E0, <- E1, <- Et.
    apply (IH n2 s e es ee i2 rem2 n' b); [rewrite Et; exact Ht|exact Hrun]. }
  destruct (removed r);
    [|eapply Hstep; [| | |exact H]; reflexivity].
  destruct (entireOrInside (state r));
    (destruct (fst (remainingInterval r) <? snd (remainingInterval r));
     [|eapply Hstep; [| | |exact H]; reflexivity]);
    match type of H with
    | match rec ?n2 tg ?a ?c with _ => _ end = _ =>
        destruct (rec n2 tg a c) as [[n3 r3]|] eqn:E3; [|discriminate];
        destruct (Hrec n2 tg a c n3 r3 Ht E3) as (F0 & F1 & Ft & _)
    end;
    exact (Hstep _ _ _ F0 F1 Ft H).
Qed.

Lemma removeTagBody_frame k node s e node' r :
  tag_is (tag node) tg = false ->
  removeTagBody rec tg k node s e = Some (node', r) ->
  interval0 node' = interval0 node
  /\ interval1 node' = interval1 node
  /\ tag node' = tag node
  /\ entireOrInside (state r) = false.
Proof.
  intros Ht H. unfold removeTagBody in H.
  destruct (Z.max s (interval0 node) >=? Z.min e (interval1 node));
    [injection H as <- <-; auto|].
  rewrite Ht in H. cbn [andb] in H.
  match type of H with
  | match ?x with _ => _ end = _ =>
      destruct x as [[node1 rem]|] eqn:Eloop; [|discriminate]
  end.
  injection H as <- <-.
  destruct (removeChildrenLoop_frame _ _ _ _ _ _ _ _ _ _ Ht Eloop)
    as (F0 & F1 & Ft).
  cbn. auto.
Qed.

End Frame.

Lemma removeTagDFS_frame fuel : KeepsFrame (removeTagDFS fuel).
Proof.
  induction fuel as [|f IH]; intros node tg s e node' r Ht H;
    [discriminate|].
  simpl in H. exact (removeTagBody_frame _ tg IH _ _ _ _ _ _ Ht H).
Qed.

Lemma removeTag_runs tree tg start end_ :
  exists fuel tree' b,
    (forall f, (fuel <= f)%nat ->
               removeTag f tree tg start end_ = Some (tree', b))
    /\ ((start >= end_ /\ tree' = tree /\ b = false)
        \/ (start < end_
            /\ exists r,
                removeTagDFS fuel (root tree) tg start end_
                = Some (root tree', r)
                /\ b = removed r
                /\ CallOk tg (root tree) start end_ (root tree') r)).
Proof.
  destruct (removeTagDFS_total tg (root tree) start end_)
    as (F & node' & r & Hrun & Hok).
  unfold removeTag. destruct (start >=? end_) eqn:E.
  - apply geb_true in E. exists O, tree, false.
    split; [reflexivity|]. left. repeat split; lia.
  - apply geb_false in E. exists F, (mkTree node'), (removed r). split.
    + intros f Hf. rewrite (Hrun f Hf). reflexivity.
    + right. split; [lia|]. exists r. cbn [root].
      split; [apply Hrun; lia|]. auto.
Qed.

(** X12.  [removeTag] never changes the domain: when the root does not
    carry the tag (as in every tree that the operations build), the call
    returns and the root has the interval and the tag it had. *)
Theorem removeTag_keeps_domain
        (tree : TaggedIntervalTree) (tg : string) (start end_ : Z) :
  tag_is (tag (root tree)) tg = false ->
  exists fuel tree' b,
    (forall f, (fuel <= f)%nat ->
               removeTag f tree tg start end_ = Some (tree', b))
    /\ interval0 (root tree') = interval0 (root tree)
    /\ interval1 (root tree') = interval1 (root tree)
    /\ tag (root tree') = tag (root tree).
Proof.
  intros Ht.
  destruct (removeTag_runs tree tg start end_)
    as (fuel & tree' & b & Hrun & Hcase).
  exists fuel, tree', b. split; [exact Hrun|].
  destruct Hcase as [(_ & -> & _)|(_ & r & Hr & _ & _)]; [auto|].
  destruct (removeTagDFS_frame fuel _ _ _ _ _ _ Ht Hr) as (F0 & F1 & Ft & _).
  auto.
Qed.

Lemma removeTag_keeps_domain_witness :
  tag_is (tag (root demoTree)) "i" = false
  /\ exists fuel tree' b,
      (forall f, (fuel <= f)%nat ->
                 removeTag f demoTree "i" 7 10 = Some (tree', b))
      /\ interval0 (root tree') = interval0 (root demoTree)
      /\ interval1 (root tree') = interval1 (root demoTree)
      /\ tag (root tree') = tag (root demoTree).
Proof.
  split; [reflexivity|].
  apply (removeTag_keeps_domain demoTree "i" 7 10). reflexivity.
Defined.

(** X13.  The root of a tree that the operations build never carries a
    tag. *)
Theorem reachable_root_untagged (t : TaggedIntervalTree) :
  reachable t -> tag (root t) = None.
Proof.
  induction 1 as [a b|t tg a b Hreach IH|t t' tg a b fuel r Hreach IH Hrem].
  - reflexivity.
  - unfold addTag. destruct (a >=? b); [exact IH|]. cbn [root].
    destruct (addTagDFS_frame (root t) tg a b) as (_ & _ & Ht).
    rewrite Ht. exact IH.
  - unfold removeTag in Hrem. destruct (a >=? b).
    + injection Hrem as <- _. exact IH.
    + destruct (removeTagDFS fuel (root t) tg a b) as [[n res]|] eqn:E;
        [|discriminate].
      injection Hrem as <- _. cbn [root].
      assert (Ht : tag_is (tag (root t)) tg = false)
        by (rewrite IH; reflexivity).
      destruct (removeTagDFS_frame fuel _ _ _ _ _ _ Ht E)
        as (_ & _ & Ft & _).
      rewrite Ft. exact IH.
Qed.

Lemma reachable_root_untagged_witness :
  reachable demoTree /\ tag (root demoTree) = None.
Proof.
  assert (H : reachable demoTree) by (repeat constructor).
  split; [exact H|]. exact (reachable_root_untagged demoTree H).
Defined.

(** X14.  [removeTag] only takes away: the call returns, and in the tree
    it leaves the nodes with the tag cover no more of any window [p,q)
    than before, and the tree is no higher than before. *)
Theorem removeTag_only_takes_away
        (tree : TaggedIntervalTree) (tg : string) (start end_ : Z) :
  exists fuel tree' b,
    (forall f, (fuel <= f)%nat ->
               removeTag f tree tg start end_ = Some (tree', b))
    /\ (forall p q,
           (weight tg p q (root tree') <= weight tg p q (root tree))%nat)
    /\ (height (root tree') <= height (root tree))%nat.
Proof.
  destruct (removeTag_runs tree tg start end_)
    as (fuel & tree' & b & Hrun & Hcase).
  exists fuel, tree', b. split; [exact Hrun|].
  destruct Hcase as [(_ & -> & _)|(_ & r & _ & _ & Hok)]; [split; lia|].
  split; [exact (ok_weight _ _ _ _ _ _ Hok)|exact (ok_height _ _ _ _ _ _ Hok)].
Qed.

(** X15.  A removal that reports [true] has taken something away: when
    the root does not carry the tag and [removeTag] returns [true], the
    nodes with the tag cover strictly less of [start,end) than before. *)
Theorem removeTag_true_has_removed
        (tree : TaggedIntervalTree) (tg : string) (start end_ : Z) :
  tag_is (tag (root tree)) tg = false ->
  exists fuel tree' b,
    (forall f, (fuel <= f)%nat ->
               removeTag f tree tg start end_ = Some (tree', b))
    /\ (b = true ->
        (weight tg start end_ (root tree')
         < weight tg start end_ (root tree))%nat).
Proof.
  intros Ht.
  destruct (removeTag_runs tree tg start end_)
    as (fuel & tree' & b & Hrun & Hcase).
  exists fuel, tree', b. split; [exact Hrun|].
  destruct Hcase as [(_ & _ & ->)|(_ & r & Hr & -> & Hok)];
    [discriminate|].
  intros Hb.
  destruct (removeTagDFS_frame fuel _ _ _ _ _ _ Ht Hr) as (_ & _ & _ & Hst).
  pose proof (ok_strict _ _ _ _ _ _ Hok Hb) as Hs.
  rewrite Hst in Hs. exact Hs.
Qed.

Lemma removeTag_true_has_removed_witness :
  tag_is (tag (root demoTree)) "i" = false
  /\ exists fuel tree' b,
      (forall f, (fuel <= f)%nat ->
                 removeTag f demoTree "i" 7 10 = Some (tree', b))
      /\ (b = true ->
          (weight "i" 7 10 (root tree') < weight "i" 7 10 (root demoTree))%nat).
Proof.
  split; [reflexivity|].
  apply (removeTag_true_has_removed demoTree "i" 7 10). reflexivity.
Defined.

(** ** The comparator *)

(** X16.  [compareMarkers] never answers 0, not even for a marker and
    itself: two markers at one position compare as 1 or -1 by the kind of
    the first, and two [int] positions that differ have a difference that
    is not 0 after wrap-around. *)
Theorem compareMarkers_never_zero (a b : TagMarker) :
  INT_MIN <= position a <= INT_MAX -> INT_MIN <= position b <= INT_MAX ->
  compareMarkers a b <> 0.
Proof.
  unfold compareMarkers, INT_MIN, INT_MAX, wrap32. intros Ha Hb.
  destruct (position a =? position b) eqn:E.
  - destruct (isOpening a); discriminate.
  - apply Z.eqb_neq in E. intros H.
    assert (Hm : (position a - position b + 2 ^ 31) mod 2 ^ 32 = 2 ^ 31)
      by lia.
    destruct (Z_lt_le_dec (position a - position b) (- 2 ^ 31)) as [Hlo|Hlo].
    + replace (position a - position b + 2 ^ 31)
        with (position a - position b + 2 ^ 32 + 2 ^ 31 + (-1) * 2 ^ 32)
        in Hm by lia.
      rewrite Z.mod_add in Hm by lia. rewrite Z.mod_small in Hm by lia. lia.
    + destruct (Z_lt_le_dec (position a - position b) (2 ^ 31)) as [Hhi|Hhi].
      * rewrite Z.mod_small in Hm by lia. lia.
      * replace (position a - position b + 2 ^ 31)
          with (position a - position b - 2 ^ 32 + 2 ^ 31 + 1 * 2 ^ 32)
          in Hm by lia.
        rewrite Z.mod_add in Hm by lia. rewrite Z.mod_small in Hm by lia.
        lia.
Qed.

Lemma compareMarkers_never_zero_witness :
  INT_MIN <= position (mkMarker 3 "b" true) <= INT_MAX
  /\ compareMarkers (mkMarker 3 "b" true) (mkMarker 3 "b" true) <> 0.
Proof.
  assert (H : INT_MIN <= position (mkMarker 3 "b" true) <= INT_MAX)
    by (unfold INT_MIN, INT_MAX; cbn; lia).
  split; [exact H|].
  exact (compareMarkers_never_zero (mkMarker 3 "b" true)
           (mkMarker 3 "b" true) H H).
Defined.

(** X17.  The subtraction of [compareMarkers] overflows when the first
    position lies more than [INT_MAX] after the second: the answer is
    then negative, as if the first marker came first. *)
Theorem compareMarkers_overflow_reverses_order (a b : TagMarker) :
  INT_MIN <= position a <= INT_MAX -> INT_MIN <= position b <= INT_MAX ->
  INT_MAX < position a - position b ->
  compareMarkers a b < 0.
Proof.
  unfold compareMarkers, INT_MIN, INT_MAX, wrap32. intros Ha Hb Hd.
  destruct (position a =? position b) eqn:E; [apply Z.eqb_eq in E; lia|].
  replace (position a - position b + 2 ^ 31)
    with (position a - position b - 2 ^ 32 + 2 ^ 31 + 1 * 2 ^ 32) by lia.
  rewrite Z.mod_add by lia. rewrite Z.mod_small by lia. lia.
Qed.

Lemma compareMarkers_overflow_reverses_order_witness :
  INT_MIN <= 2000000000 <= INT_MAX
  /\ INT_MIN <= -2000000000 <= INT_MAX
  /\ compareMarkers (mkMarker 2000000000 "b" true)
       (mkMarker (-2000000000) "b" false) < 0.
Proof.
  assert (Ha : INT_MIN <= 2000000000 <= INT_MAX)
    by (unfold INT_MIN, INT_MAX; lia).
  assert (Hb : INT_MIN <= -2000000000 <= INT_MAX)
    by (unfold INT_MIN, INT_MAX; lia).
  split; [exact Ha|]. split; [exact Hb|].
  apply (compareMarkers_overflow_reverses_order
           (mkMarker 2000000000 "b" true) (mkMarker (-2000000000) "b" false));
    [exact Ha | exact Hb | unfold INT_MAX; cbn; lia].
Defined.

(** ** The marker array *)

(** X18.  [getFormattedText] fills the marker array exactly: the number
    of markers that [collectMarkers] stores is the number [maxMarkers]
    that [countNodes] has computed for the allocation, two for every
    node with a tag. *)
Theorem markers_fill_the_array (tree : TaggedIntervalTree) :
  length (collectMarkers (root tree)) = countNodes (root tree)
  /\ countNodes (root tree)
     = (2 * length (filter (fun n => match tag n with
                                     | Some _ => true
                                     | None => false
                                     end) (subnodes (root tree))))%nat.
Proof.
  split; [apply collectMarkers_length|].
  generalize (root tree) as n. clear tree.
  induction n as [a b t cs IH] using IntervalNode_rect_list.
  cbn [countNodes subnodes filter tag].
  assert (Hcs : list_sum (map countNodes cs)
                = (2 * length (filter (fun n => match tag n with
                                                | Some _ => true
                                                | None => false
                                                end)
                                 (flat_map subnodes cs)))%nat).
  { induction IH as [|c rest Hc _ IHrest]; [reflexivity|].
    cbn [map flat_map].
    change (list_sum (countNodes c :: map countNodes rest))
      with (countNodes c + list_sum (map countNodes rest))%nat.
    rewrite filter_app, length_app, Hc, IHrest. lia. }
  rewrite Hcs. destruct t; cbn [length]; lia.
Qed.

(** ** The text that [getFormattedText] builds *)

Lemma string_length_append (s1 s2 : string) :
  String.length (String.append s1 s2)
  = (String.length s1 + String.length s2)%nat.
Proof. induction s1 as [|c s1 IH]; cbn; [reflexivity|]. rewrite IH. reflexivity. Qed.

Lemma substring_length (s : string) : forall n m,
  (n + m <= String.length s)%nat -> String.length (substring n m s) = m.
Proof.
  induction s as [|c s IH]; intros n m H; cbn in H.
  - assert (n = O) by lia. assert (m = O) by lia. subst. reflexivity.
  - destruct n as [|n]; cbn.
    + destruct m as [|m]; [reflexivity|]. cbn. rewrite IH by lia.
      reflexivity.
    + apply IH. lia.
Qed.

Lemma substring_full (s : string) : substring 0 (String.length s) s = s.
Proof. induction s as [|c s IH]; cbn; [reflexivity|]. rewrite IH. reflexivity. Qed.

Lemma substring_none (s : string) (n : nat) : substring n 0 s = EmptyString.
Proof.
  revert n; induction s as [|c s IH]; intros n; destruct n; cbn; auto.
Qed.

Lemma markerText_length (m : TagMarker) :
  Z.of_nat (String.length (markerText m)) = markerSize m.
Proof.
  unfold markerText, markerSize. destruct (isOpening m);
    rewrite !string_length_append; cbn [String.length]; lia.
Qed.

Lemma markerSize_positive (m : TagMarker) : 0 < markerSize m.
Proof. unfold markerSize. destruct (isOpening m); lia. Qed.

Lemma sizes_nonnegative (ms : list TagMarker) :
  0 <= fold_right (fun m acc => markerSize m + acc) 0 ms.
Proof.
  induction ms as [|m rest IH]; cbn; [lia|].
  pose proof (markerSize_positive m). lia.
Qed.

Lemma sizes_perm (ms ms' : list TagMarker) :
  Permutation ms ms' ->
  fold_right (fun m acc => markerSize m + acc) 0 ms
  = fold_right (fun m acc => markerSize m + acc) 0 ms'.
Proof. induction 1; cbn; lia. Qed.

(** The computation of [resultSize] does not leave the range of [int]
    when the exact sum fits. *)
Lemma resultSize_exact (text : string) (ms : list TagMarker) :
  exactSize text ms <= INT_MAX -> resultSize text ms = exactSize text ms.
Proof.
  unfold resultSize, exactSize. intros Hfit.
  pose proof (sizes_nonnegative ms) as Hnn.
  assert (Hinit : wrap32 (wrap32 (Z.of_nat (String.length text)) + 1)
                  = Z.of_nat (String.length text) + 1).
  { unfold INT_MIN, INT_MAX in *.
    rewrite (wrap32_in_range (Z.of_nat _))
      by (unfold INT_MIN, INT_MAX; lia).
    apply wrap32_in_range. unfold INT_MIN, INT_MAX. lia. }
  rewrite Hinit. clear Hinit.
  assert (Hgen : forall l size,
             0 <= size ->
             size + fold_right (fun m acc => markerSize m + acc) 0 l
             <= INT_MAX ->
             fold_left (fun size m => wrap32 (size + markerSize m)) l size
             = size + fold_right (fun m acc => markerSize m + acc) 0 l).
  { induction l as [|m rest IH]; intros size Hs Hle; cbn in *; [lia|].
    pose proof (markerSize_positive m). pose proof (sizes_nonnegative rest).
    rewrite wrap32_in_range by (unfold INT_MIN, INT_MAX in *; lia).
    rewrite IH by lia. lia. }
  apply Hgen; lia.
Qed.

Lemma spliceMarkers_length (text : string) : forall ms last,
  Z.of_nat (String.length text) <= INT_MAX ->
  0 <= last <= Z.of_nat (String.length text) ->
  Forall (fun m => last <= position m <= Z.of_nat (String.length text)) ms ->
  StronglySorted (fun a b => position a <= position b) ms ->
  Z.of_nat (String.length (spliceMarkers text ms last))
  = Z.of_nat (String.length text) - last
    + fold_right (fun m acc => markerSize m + acc) 0 ms.
Proof.
  induction ms as [|m rest IH]; intros last Hmax Hlast Hin Hsorted.
  - cbn [spliceMarkers fold_right].
    rewrite substring_length by lia. lia.
  - inversion Hin as [|m' rest' Hm Hrest]; subst.
    apply StronglySorted_inv in Hsorted. destruct Hsorted as [Hs Hall].
    cbn [spliceMarkers fold_right].
    rewrite wrap32_in_range by (unfold INT_MIN, INT_MAX in *; lia).
    rewrite !string_length_append, !Nat2Z.inj_add, markerText_length.
    rewrite (IH (position m)); try assumption; try lia.
    + destruct (position m - last >? 0) eqn:E.
      * rewrite substring_length by lia. lia.
      * apply gtb_false in E. cbn [String.length]. lia.
    + rewrite Forall_forall in *. intros x Hx.
      specialize (Hrest x Hx). specialize (Hall x Hx). lia.
Qed.

Lemma sorted_by_position (ms : list TagMarker) :
  StronglySorted markerBefore ms ->
  StronglySorted (fun a b => position a <= position b) ms.
Proof.
  induction 1 as [|m rest Hs IH Hall]; constructor; [exact IH|].
  rewrite Forall_forall in *. intros x Hx.
  destruct (Hall x Hx) as [Hlt|[Heq _]]; lia.
Qed.

(** What a sound [qsort] returns for the markers of a tree whose
    positions are indices into a text that an [int] can measure. *)
Lemma sortedMarkers_sound qsort tree (len : Z) :
  SoundComparatorSort qsort ->
  len <= INT_MAX ->
  Forall (fun m => 0 <= position m <= len) (collectMarkers (root tree)) ->
  Permutation (collectMarkers (root tree)) (sortedMarkers qsort tree)
  /\ StronglySorted markerBefore (sortedMarkers qsort tree).
Proof.
  intros Hq Hlen Hin. unfold sortedMarkers.
  assert (Hfit : differencesFit (collectMarkers (root tree))).
  { apply positions_in_text_fit. rewrite Forall_forall in *.
    intros m Hm. specialize (Hin m Hm). lia. }
  apply (Hq compareMarkers markerBefore (collectMarkers (root tree))).
  - exact markerBefore_trans.
  - intros x y Hx Hy. apply compareMarkers_nonpositive, Hfit; assumption.
  - intros x y Hx Hy. apply compareMarkers_nonnegative, Hfit; assumption.
Qed.

(** X19.  [getFormattedText] fills its buffer exactly: when [qsort] sorts
    soundly, every marker position is an index into the text and the
    sizes fit an [int], the text that is built has [resultSize - 1]
    characters, the terminator taking the last place of the buffer of
    [resultSize] bytes. *)
Theorem getFormattedText_fills_buffer
        (qsort : (TagMarker -> TagMarker -> Z)
                 -> list TagMarker -> list TagMarker)
        (tree : TaggedIntervalTree) (text : string) :
  SoundComparatorSort qsort ->
  Forall (fun m => 0 <= position m <= Z.of_nat (String.length text))
    (collectMarkers (root tree)) ->
  exactSize text (collectMarkers (root tree)) <= INT_MAX ->
  Z.of_nat (String.length (getFormattedText qsort tree text)) + 1
  = resultSize text (sortedMarkers qsort tree).
Proof.
  intros Hq Hin Hfit.
  pose proof (sizes_nonnegative (collectMarkers (root tree))) as Hnn.
  assert (Hlen : Z.of_nat (String.length text) <= INT_MAX)
    by (unfold exactSize in Hfit; lia).
  destruct (sortedMarkers_sound qsort tree _ Hq Hlen Hin) as [Hperm Hsorted].
  assert (Hsame : exactSize text (sortedMarkers qsort tree)
                  = exactSize text (collectMarkers (root tree))).
  { unfold exactSize. rewrite (sizes_perm _ _ Hperm). reflexivity. }
  rewrite resultSize_exact by (rewrite Hsame; exact Hfit).
  unfold getFormattedText.
  rewrite spliceMarkers_length.
  - unfold exactSize. lia.
  - exact Hlen.
  - lia.
  - exact (Permutation_Forall Hperm Hin).
  - apply sorted_by_position, Hsorted.
Qed.

Lemma getFormattedText_fills_buffer_witness :
  SoundComparatorSort insertionSort
  /\ Forall (fun m => 0 <= position m
                      <= Z.of_nat (String.length "0123456789abcdefghij"))
       (collectMarkers (root demoTree))
  /\ exactSize "0123456789abcdefghij" (collectMarkers (root demoTree))
     <= INT_MAX
  /\ Z.of_nat (String.length
                 (getFormattedText insertionSort demoTree
                    "0123456789abcdefghij")) + 1
     = resultSize "0123456789abcdefghij"
         (sortedMarkers insertionSort demoTree).
Proof.
  assert (Hin : Forall (fun m => 0 <= position m
                          <= Z.of_nat (String.length "0123456789abcdefghij"))
                  (collectMarkers (root demoTree))).
  { let v := eval vm_compute in (collectMarkers (root demoTree)) in
    change (collectMarkers (root demoTree)) with v.
    repeat (apply Forall_cons; [cbn; lia|]).
    apply Forall_nil. }
  assert (Hfit : exactSize "0123456789abcdefghij"
                   (collectMarkers (root demoTree)) <= INT_MAX).
  { apply Z.leb_le. reflexivity. }
  split; [exact insertionSort_sound|]. split; [exact Hin|].
  split; [exact Hfit|].
  apply (getFormattedText_fills_buffer insertionSort demoTree
           "0123456789abcdefghij");
    [exact insertionSort_sound | exact Hin | exact Hfit].
Defined.

(** X20.  A tree without tagged nodes renders as the text itself. *)
Theorem getFormattedText_without_tags
        (qsort : (TagMarker -> TagMarker -> Z)
                 -> list TagMarker -> list TagMarker)
        (tree : TaggedIntervalTree) (text : string) :
  SoundComparatorSort qsort ->
  countNodes (root tree) = O ->
  getFormattedText qsort tree text = text.
Proof.
  intros Hq Hnone.
  assert (Hnil : collectMarkers (root tree) = []).
  { apply length_zero_iff_nil. rewrite collectMarkers_length. exact Hnone. }
  unfold getFormattedText, sortedMarkers. rewrite Hnil.
  destruct (Hq compareMarkers markerBefore []) as [Hperm _].
  - exact markerBefore_trans.
  - intros x y [].
  - intros x y [].
  - apply Permutation_nil in Hperm. rewrite Hperm.
    cbn [spliceMarkers]. cbn [Z.to_nat]. rewrite Nat.sub_0_r.
    apply substring_full.
Qed.

Lemma getFormattedText_without_tags_witness :
  SoundComparatorSort insertionSort
  /\ countNodes (root (createTaggedIntervalTree 0 20)) = O
  /\ getFormattedText insertionSort (createTaggedIntervalTree 0 20)
       "0123456789abcdefghij" = "0123456789abcdefghij"%string.
Proof.
  split; [exact insertionSort_sound|]. split; [reflexivity|].
  apply (getFormattedText_without_tags insertionSort
           (createTaggedIntervalTree 0 20) "0123456789abcdefghij");
    [exact insertionSort_sound | reflexivity].
Defined.

(** X21.  One tag on a fresh tree, when [qsort] sorts soundly: after
    [addTag] of [tg] on [a,b) with [a,b) inside the domain and inside the
    text, and the length of the text fitting an [int], the rendering is
    the text with the opening marker before index [a] and the closing
    marker before index [b].  The order of the two markers is the one
    that the sorting routine gives them on the answers of
    [compareMarkers]. *)
Theorem getFormattedText_one_tag
        (qsort : (TagMarker -> TagMarker -> Z)
                 -> list TagMarker -> list TagMarker)
        (A B a b : Z) (tg text : string) :
  SoundComparatorSort qsort ->
  A <= a -> a < b -> b <= B ->
  0 <= a -> b <= Z.of_nat (String.length text) ->
  Z.of_nat (String.length text) <= INT_MAX ->
  getFormattedText qsort (addTag (createTaggedIntervalTree A B) tg a b) text
  = String.append (substring 0 (Z.to_nat a) text)
      (String.append (String.append "<" (String.append tg ">"))
         (String.append (substring (Z.to_nat a) (Z.to_nat (b - a)) text)
            (String.append (String.append "</" (String.append tg ">"))
               (substring (Z.to_nat b)
                  (String.length text - Z.to_nat b) text)))).
Proof.
  intros Hq HA Hab HB Ha Hb Hlen.
  set (tree := addTag (createTaggedIntervalTree A B) tg a b).
  assert (Hroot : root tree = mkNode A B None [mkNode a b (Some tg) []]).
  { subst tree. unfold addTag, createTaggedIntervalTree, createIntervalNode.
    replace (a >=? b) with false by (symmetry; apply geb_false; lia).
    cbn [root]. apply addTagDFS_childless; [reflexivity|lia|lia|lia]. }
  assert (Hms : collectMarkers (root tree)
                = [mkMarker a tg true; mkMarker b tg false])
    by (rewrite Hroot; reflexivity).
  assert (Hin : Forall (fun m => 0 <= position m
                                 <= Z.of_nat (String.length text))
                  (collectMarkers (root tree))).
  { rewrite Hms. repeat constructor; cbn; lia. }
  destruct (sortedMarkers_sound qsort tree _ Hq Hlen Hin) as [Hperm Hsorted].
  rewrite Hms in Hperm.
  assert (Hsort : sortedMarkers qsort tree
                  = [mkMarker a tg true; mkMarker b tg false]).
  { destruct (Permutation_length_2_inv Hperm) as [H|H]; [exact H|].
    exfalso. rewrite H in Hsorted.
    apply StronglySorted_inv in Hsorted. destruct Hsorted as [_ Hall].
    inversion Hall as [|x l Hxy _]; subst.
    destruct Hxy as [Hlt|[Heq _]]; cbn in *; lia. }
  unfold getFormattedText. rewrite Hsort.
  cbn [spliceMarkers position markerText isOpening markerTag].
  rewrite !wrap32_in_range by (unfold INT_MIN, INT_MAX in *; lia).
  replace (a - 0) with a by lia.
  replace (b - a >? 0) with true by (symmetry; apply gtb_true; lia).
  cbn [Z.to_nat].
  destruct (a >? 0) eqn:E; [reflexivity|].
  apply gtb_false in E. assert (a = 0) by lia. subst a.
  cbn [Z.to_nat]. rewrite substring_none. reflexivity.
Qed.

Lemma getFormattedText_one_tag_witness :
  SoundComparatorSort insertionSort
  /\ getFormattedText insertionSort
       (addTag (createTaggedIntervalTree 0 20) "b" 2 10)
       "0123456789abcdefghij"
     = "01<b>23456789</b>abcdefghij"%string.
Proof.
  split; [exact insertionSort_sound|].
  apply (getFormattedText_one_tag insertionSort 0 20 2 10 "b"
           "0123456789abcdefghij");
    [exact insertionSort_sound | lia | lia | lia | lia | cbn; lia
     | unfold INT_MAX; cbn; lia].
Defined.

(** ** Storing rehook nodes *)

Lemma insertRehooks_sorted keep : forall rehooks cs,
  StartsIncreasing cs ->
  NoDup (map interval0 (filter keep rehooks ++ cs)) ->
  StartsIncreasing (insertRehooks keep rehooks cs).
Proof.
  induction rehooks as [|r rest IH]; intros cs Hinc Hnd;
    cbn [insertRehooks]; [exact Hinc|].
  cbn [filter] in Hnd. destruct (keep r) eqn:Ek; [|exact (IH cs Hinc Hnd)].
  pose proof (findInsertionPoint_spec cs (interval0 r) Hinc) as Hk.
  set (k := findInsertionPoint cs (interval0 r)) in *.
  assert (Hperm : Permutation (r :: filter keep rest ++ cs)
                    (filter keep rest ++ insert_at k r cs)).
  { rewrite <- insert_at_perm. apply Permutation_middle. }
  apply IH.
  - apply (insert_at_start r cs (interval0 r) k eq_refl); try assumption.
    intros Hlt. destruct Hk as (_ & _ & Hafter).
    specialize (Hafter k ltac:(lia)).
    assert (Hne : interval0 (child_at cs k) <> interval0 r).
    { intros Heq. cbn [app map] in Hnd. apply NoDup_cons_iff in Hnd.
      destruct Hnd as [Hnot _]. apply Hnot. rewrite map_app.
      apply in_or_app. right. rewrite <- Heq.
      apply in_map, child_at_In, Hlt. }
    lia.
  - apply (Permutation_NoDup (Permutation_map interval0 Hperm)).
    exact Hnd.
Qed.

(** X22.  The loop that stores rehook nodes is an insertion sort: when
    the children start at strictly ascending positions and the rehook
    nodes that pass the test start at positions that differ from these
    and from each other, the array holds the children and these rehook
    nodes afterwards, again with strictly ascending starts. *)
Theorem insertRehooks_is_insertion_sort
        (keep : IntervalNode -> bool) (rehooks cs : list IntervalNode) :
  StartsIncreasing cs ->
  NoDup (map interval0 (filter keep rehooks ++ cs)) ->
  StartsIncreasing (insertRehooks keep rehooks cs)
  /\ Permutation (filter keep rehooks ++ cs) (insertRehooks keep rehooks cs).
Proof.
  intros Hinc Hnd. split; [apply insertRehooks_sorted; assumption|].
  apply insertRehooks_perm.
Qed.

Lemma insertRehooks_is_insertion_sort_witness :
  StartsIncreasing (children (root demoLayers))
  /\ NoDup (map interval0
              (filter (fun _ => true)
                 [mkNode 8 9 (Some "x"%string) []; mkNode 0 2 None []]
               ++ children (root demoLayers)))
  /\ StartsIncreasing
       (insertRehooks (fun _ => true)
          [mkNode 8 9 (Some "x"%string) []; mkNode 0 2 None []]
          (children (root demoLayers)))
  /\ Permutation
       (filter (fun _ => true)
          [mkNode 8 9 (Some "x"%string) []; mkNode 0 2 None []]
        ++ children (root demoLayers))
       (insertRehooks (fun _ => true)
          [mkNode 8 9 (Some "x"%string) []; mkNode 0 2 None []]
          (children (root demoLayers))).
Proof.
  assert (Hinc : StartsIncreasing (children (root demoLayers))).
  { vm_compute. repeat constructor. }
  assert (Hnd : NoDup (map interval0
                         (filter (fun _ => true)
                            [mkNode 8 9 (Some "x"%string) [];
                             mkNode 0 2 None []]
                          ++ children (root demoLayers)))).
  { vm_compute. repeat constructor; cbn; intuition discriminate. }
  split; [exact Hinc|]. split; [exact Hnd|].
  exact (insertRehooks_is_insertion_sort (fun _ => true) _ _ Hinc Hnd).
Defined.

(** * Removal from a flat tree *)

(** ** Rows *)

Lemma StronglySorted_app_iff (A : Type) (R : A -> A -> Prop) l1 l2 :
  StronglySorted R (l1 ++ l2)
  <-> StronglySorted R l1 /\ StronglySorted R l2
      /\ forall x y, In x l1 -> In y l2 -> R x y.
Proof.
  induction l1 as [|a l1 IH]; cbn.
  - split; [intros H; repeat split; [constructor|exact H|intros x y []]
           |intros (_ & H & _); exact H].
  - split.
    + intros H. apply StronglySorted_inv in H. destruct H as [Hs Hall].
      apply IH in Hs. destruct Hs as (H1 & H2 & H12).
      rewrite Forall_app in Hall. destruct Hall as [Ha1 Ha2].
      repeat split; [constructor; assumption|assumption|].
      intros x y [->|Hx] Hy; [|apply H12; assumption].
      rewrite Forall_forall in Ha2. apply Ha2, Hy.
    + intros (H1 & H2 & H12).
      apply StronglySorted_inv in H1. destruct H1 as [Hs Hall].
      constructor.
      * apply IH. repeat split; try assumption.
        intros x y Hx Hy. apply H12; [right; exact Hx|exact Hy].
      * apply Forall_app. split; [exact Hall|].
        rewrite Forall_forall. intros y Hy. apply H12; [left; reflexivity|exact Hy].
Qed.

Lemma StronglySorted_index (R : IntervalNode -> IntervalNode -> Prop) cs :
  (forall i j, (i < j < length cs)%nat -> R (child_at cs i) (child_at cs j)) ->
  StronglySorted R cs.
Proof.
  unfold child_at.
  induction cs as [|c rest IH]; intros H; constructor.
  - apply IH. intros i j Hij. apply (H (S i) (S j)). cbn. lia.
  - rewrite Forall_forall. intros d Hd.
    destruct (In_nth _ _ dummyNode Hd) as (m & Hm & <-).
    apply (H O (S m)). cbn. lia.
Qed.

Lemma Row_nil n0 n1 : Row n0 n1 [].
Proof. split; constructor. Qed.

Lemma Row_app n0 n1 l1 l2 :
  Row n0 n1 (l1 ++ l2)
  <-> Row n0 n1 l1 /\ Row n0 n1 l2
      /\ forall x y, In x l1 -> In y l2 -> interval1 x <= interval0 y.
Proof.
  unfold Row. rewrite Forall_app, StronglySorted_app_iff. tauto.
Qed.

Lemma Row_single n0 n1 c : Row n0 n1 [c] <-> slotLeaf n0 n1 c.
Proof.
  unfold Row. split.
  - intros [H _]. inversion H; assumption.
  - intros H. split; [constructor; [exact H|constructor]|].
    constructor; constructor.
Qed.

Lemma Row_weaken n0 n1 m0 m1 cs :
  n0 <= m0 -> m1 <= n1 -> Row m0 m1 cs -> Row n0 n1 cs.
Proof.
  intros H0 H1 [Hall Hs]. split; [|exact Hs].
  eapply Forall_impl; [|exact Hall].
  intros c (Hl & Ha & Hb & Hc). unfold slotLeaf. repeat split; try assumption; lia.
Qed.

Lemma Row_In n0 n1 cs c : Row n0 n1 cs -> In c cs -> slotLeaf n0 n1 c.
Proof. intros [Hall _] Hc. rewrite Forall_forall in Hall. apply Hall, Hc. Qed.

(** A child is replaced by nodes that lie in its place. *)
Lemma Row_replace n0 n1 l1 c l2 q :
  Row n0 n1 (l1 ++ c :: l2) ->
  Row (interval0 c) (interval1 c) q ->
  Row n0 n1 (l1 ++ q ++ l2).
Proof.
  intros H Hq.
  apply Row_app in H. destruct H as (H1 & Hc2 & H12).
  change (c :: l2) with ([c] ++ l2) in Hc2.
  apply Row_app in Hc2. destruct Hc2 as (Hc & H2 & Hc2).
  apply Row_single in Hc. destruct Hc as (_ & Hc0 & Hcp & Hc1).
  apply Row_app. split; [exact H1|]. split.
  - apply Row_app.
    split; [exact (Row_weaken n0 n1 _ _ q Hc0 Hc1 Hq)|].
    split; [exact H2|].
    intros x y Hx Hy. destruct (Row_In _ _ _ _ Hq Hx) as (_ & _ & _ & Hx1).
    specialize (Hc2 c y (or_introl eq_refl) Hy). lia.
  - intros x y Hx Hy. apply in_app_or in Hy. destruct Hy as [Hy|Hy].
    + destruct (Row_In _ _ _ _ Hq Hy) as (_ & Hy0 & _ & _).
      specialize (H12 x c Hx (or_introl eq_refl)). lia.
    + apply H12; [exact Hx|right; exact Hy].
Qed.

Lemma Row_starts n0 n1 cs : Row n0 n1 cs -> StartsIncreasing cs.
Proof.
  intros [Hall Hs]. unfold StartsIncreasing.
  induction Hs as [|c rest Hs IH Hc]; constructor.
  - apply IH. inversion Hall; assumption.
  - inversion Hall as [|c' rest' Hsl Hrest]; subst.
    destruct Hsl as (_ & _ & Hp & _).
    eapply Forall_impl; [|exact Hc]. intros d Hd. cbn in Hd. lia.
Qed.

Lemma InsertionPoint_app l1 l2 x :
  Forall (fun c => interval0 c < x) l1 ->
  Forall (fun c => x <= interval0 c) l2 ->
  InsertionPoint (l1 ++ l2) x (length l1).
Proof.
  intros H1 H2. unfold InsertionPoint, child_at. rewrite length_app.
  split; [lia|]. split.
  - intros j Hj. rewrite app_nth1 by lia.
    rewrite Forall_forall in H1. apply H1, nth_In, Hj.
  - intros j Hj. rewrite app_nth2 by lia.
    rewrite Forall_forall in H2. apply H2, nth_In. lia.
Qed.

Lemma insert_at_app l1 l2 x :
  insert_at (length l1) x (l1 ++ l2) = l1 ++ x :: l2.
Proof.
  unfold insert_at.
  rewrite firstn_app, skipn_app, Nat.sub_diag, firstn_all, skipn_all.
  cbn. rewrite app_nil_r. reflexivity.
Qed.

(** Storing a node that belongs between [l1] and [l2]. *)
Lemma insertRehooks_one keep l1 l2 r rest :
  keep r = true ->
  StartsIncreasing (l1 ++ l2) ->
  Forall (fun c => interval0 c < interval0 r) l1 ->
  Forall (fun c => interval0 r <= interval0 c) l2 ->
  insertRehooks keep (r :: rest) (l1 ++ l2)
  = insertRehooks keep rest (l1 ++ r :: l2).
Proof.
  intros Hk Hinc H1 H2. cbn [insertRehooks]. rewrite Hk.
  rewrite (findInsertionPoint_is _ _ (length l1) Hinc
             (InsertionPoint_app l1 l2 _ H1 H2)).
  rewrite insert_at_app. reflexivity.
Qed.

(** ** The transformation [cut] *)

Lemma touched_iff tg s e c :
  touched tg s e c = true
  <-> tag_is (tag c) tg = true /\ s < interval1 c /\ interval0 c < e.
Proof.
  unfold touched. rewrite !andb_true_iff, !Z.ltb_lt. tauto.
Qed.

Lemma remains_untouched tg s e c :
  touched tg s e c = false -> remains tg s e c = [c].
Proof. unfold remains. intros ->. reflexivity. Qed.

Lemma cut_untouched tg s e cs :
  Forall (fun c => touched tg s e c = false) cs -> cut tg s e cs = cs.
Proof.
  induction 1 as [|c rest Hc _ IH]; [reflexivity|].
  unfold cut in *. cbn [flat_map]. rewrite remains_untouched, IH by assumption.
  reflexivity.
Qed.

Lemma cut_app tg s e l1 l2 :
  cut tg s e (l1 ++ l2) = cut tg s e l1 ++ cut tg s e l2.
Proof. apply flat_map_app. Qed.

Lemma cut_cons tg s e c l :
  cut tg s e (c :: l) = remains tg s e c ++ cut tg s e l.
Proof. reflexivity. Qed.

Lemma touched_tg_node tg s e a b :
  touched tg s e (mkNode a b (Some tg) []) = (s <? b) && (a <? e).
Proof.
  unfold touched. cbn. unfold tag_is. rewrite String.eqb_refl. reflexivity.
Qed.

(** The parts that stay are not touched. *)
Lemma remains_clean tg s e c :
  Forall (fun d => touched tg s e d = false) (remains tg s e c).
Proof.
  unfold remains. destruct (touched tg s e c) eqn:E;
    [|constructor; [exact E|constructor]].
  apply Forall_app. split.
  - destruct (interval0 c <? s); constructor; [|constructor].
    rewrite touched_tg_node, Z.ltb_irrefl. reflexivity.
  - destruct (e <? interval1 c); constructor; [|constructor].
    rewrite touched_tg_node, Z.ltb_irrefl. apply andb_false_r.
Qed.

Lemma cut_clean tg s e cs :
  Forall (fun d => touched tg s e d = false) (cut tg s e cs).
Proof.
  induction cs as [|c rest IH]; [constructor|].
  rewrite cut_cons. apply Forall_app. split; [apply remains_clean|exact IH].
Qed.

Lemma cut_remains tg s e c :
  cut tg s e (remains tg s e c) = remains tg s e c.
Proof. apply cut_untouched, remains_clean. Qed.

(** The parts that stay lie in the place of the node. *)
Lemma remains_row tg s e c :
  s < e -> children c = [] -> interval0 c < interval1 c ->
  Row (interval0 c) (interval1 c) (remains tg s e c).
Proof.
  intros Hse Hleaf Hp. unfold remains.
  destruct (touched tg s e c) eqn:E.
  - apply touched_iff in E. destruct E as (_ & Hs & He).
    destruct (interval0 c <? s) eqn:E0, (e <? interval1 c) eqn:E1;
      cbn [app]; try apply Z.ltb_lt in E0; try apply Z.ltb_lt in E1.
    + change [mkNode (interval0 c) s (Some tg) [];
              mkNode e (interval1 c) (Some tg) []]
        with ([mkNode (interval0 c) s (Some tg) []]
              ++ [mkNode e (interval1 c) (Some tg) []]).
      apply Row_app. repeat split; try (constructor; fail);
        try (repeat constructor; cbn; lia).
      intros x y [<-|[]] [<-|[]]. cbn. lia.
    + apply Row_single. unfold slotLeaf. cbn. repeat split; lia.
    + apply Row_single. unfold slotLeaf. cbn. repeat split; lia.
    + apply Row_nil.
  - apply Row_single. unfold slotLeaf. repeat split; try assumption; lia.
Qed.

Lemma cut_row tg s e n0 n1 cs :
  s < e -> Row n0 n1 cs -> Row n0 n1 (cut tg s e cs).
Proof.
  intros Hse. induction cs as [|c rest IH]; intros H; [exact H|].
  rewrite cut_cons.
  change (c :: rest) with ([] ++ c :: rest) in H.
  pose proof H as H'. apply Row_app in H'.
  destruct H' as (_ & Hc & _).
  change (c :: rest) with ([c] ++ rest) in Hc. apply Row_app in Hc.
  destruct Hc as (Hc & Hrest & Hcr).
  apply Row_single in Hc. pose proof Hc as (Hleaf & _ & Hp & _).
  specialize (IH Hrest).
  pose proof (remains_row tg s e c Hse Hleaf Hp) as Hq.
  apply Row_app. split; [|split; [exact IH|]].
  - destruct Hc as (_ & H0 & _ & H1).
    apply (Row_weaken n0 n1 _ _ _ H0 H1 Hq).
  - intros x y Hx Hy.
    destruct (Row_In _ _ _ _ Hq Hx) as (_ & _ & _ & Hx1).
    unfold cut in Hy. apply in_flat_map in Hy. destruct Hy as (d & Hd & Hy).
    destruct (Row_In _ _ _ _ Hrest Hd) as (Hdl & _ & Hdp & _).
    destruct (Row_In _ _ _ _ (remains_row tg s e d Hse Hdl Hdp) Hy)
      as (_ & Hy0 & _ & _).
    specialize (Hcr c d (or_introl eq_refl) Hd). lia.
Qed.

(** Removing [m,e) first and [s,e) then is removing [s,e). *)
Lemma remains_remains tg s m e c :
  s <= m -> m < e -> interval0 c < interval1 c ->
  cut tg s e (remains tg m e c) = remains tg s e c.
Proof.
  intros Hsm Hme Hp.
  destruct (touched tg m e c) eqn:Em.
  - pose proof Em as Em'. apply touched_iff in Em'.
    destruct Em' as (Ht & Hm1 & H0e).
    assert (Es : touched tg s e c = true)
      by (apply touched_iff; repeat split; try assumption; lia).
    unfold remains. rewrite Em, Es. rewrite cut_app.
    f_equal.
    + destruct (interval0 c <? m) eqn:E0.
      * apply Z.ltb_lt in E0. rewrite cut_cons. unfold cut. cbn [flat_map].
        rewrite app_nil_r. unfold remains. rewrite touched_tg_node.
        cbn [interval0 interval1].
        destruct (s <? m) eqn:Esm.
        -- apply Z.ltb_lt in Esm.
           replace (interval0 c <? e) with true
             by (symmetry; apply Z.ltb_lt; lia).
           cbn [andb].
           replace (e <? m) with false by (symmetry; apply Z.ltb_ge; lia).
           rewrite app_nil_r. reflexivity.
        -- apply Z.ltb_ge in Esm. assert (s = m) by lia. subst m.
           cbn [andb].
           replace (interval0 c <? s) with true
             by (symmetry; apply Z.ltb_lt; lia).
           reflexivity.
      * apply Z.ltb_ge in E0.
        replace (interval0 c <? s) with false
          by (symmetry; apply Z.ltb_ge; lia).
        reflexivity.
    + destruct (e <? interval1 c) eqn:E1; [|reflexivity].
      rewrite cut_cons. unfold cut. cbn [flat_map]. rewrite app_nil_r.
      unfold remains. rewrite touched_tg_node, Z.ltb_irrefl, andb_false_r.
      reflexivity.
  - rewrite (remains_untouched tg m e c Em). rewrite cut_cons.
    unfold cut. cbn [flat_map]. apply app_nil_r.
Qed.

Lemma cut_cut tg s m e n0 n1 cs :
  s <= m -> m < e -> Row n0 n1 cs ->
  cut tg s e (cut tg m e cs) = cut tg s e cs.
Proof.
  intros Hsm Hme. induction cs as [|c rest IH]; intros H; [reflexivity|].
  change (c :: rest) with ([c] ++ rest) in H. apply Row_app in H.
  destruct H as (Hc & Hrest & _). apply Row_single in Hc.
  destruct Hc as (_ & _ & Hp & _).
  rewrite !cut_cons, cut_app, IH by assumption.
  rewrite remains_remains by assumption. reflexivity.
Qed.

Lemma existsb_touched_clean tg s e cs :
  Forall (fun d => touched tg s e d = false) cs ->
  existsb (touched tg s e) cs = false.
Proof.
  induction 1 as [|c rest Hc _ IH]; [reflexivity|].
  cbn. rewrite Hc, IH. reflexivity.
Qed.

(** ** Removal from a childless node *)

(** The comparisons in [H] that the context decides are replaced by their
    values. *)
Ltac settle H :=
  repeat match type of H with
         | context [?a >? ?b] =>
             first [ replace (a >? b) with true in H
                       by (symmetry; apply gtb_true; lia)
                   | replace (a >? b) with false in H
                       by (symmetry; apply gtb_false; lia) ]
         | context [?a <? ?b] =>
             first [ replace (a <? b) with true in H
                       by (symmetry; apply Z.ltb_lt; lia)
                   | replace (a <? b) with false in H
                       by (symmetry; apply Z.ltb_ge; lia) ]
         | context [?a <=? ?b] =>
             first [ replace (a <=? b) with true in H
                       by (symmetry; apply Z.leb_le; lia)
                   | replace (a <=? b) with false in H
                       by (symmetry; apply Z.leb_gt; lia) ]
         | context [?a >=? ?b] =>
             first [ replace (a >=? b) with true in H
                       by (symmetry; apply geb_true; lia)
                   | replace (a >=? b) with false in H
                       by (symmetry; apply geb_false; lia) ]
         end.

Ltac settle_goal :=
  repeat match goal with
         | |- context [?a >? ?b] =>
             first [ replace (a >? b) with true
                       by (symmetry; apply gtb_true; lia)
                   | replace (a >? b) with false
                       by (symmetry; apply gtb_false; lia) ]
         | |- context [?a <? ?b] =>
             first [ replace (a <? b) with true
                       by (symmetry; apply Z.ltb_lt; lia)
                   | replace (a <? b) with false
                       by (symmetry; apply Z.ltb_ge; lia) ]
         | |- context [?a <=? ?b] =>
             first [ replace (a <=? b) with true
                       by (symmetry; apply Z.leb_le; lia)
                   | replace (a <=? b) with false
                       by (symmetry; apply Z.leb_gt; lia) ]
         | |- context [?a >=? ?b] =>
             first [ replace (a >=? b) with true
                       by (symmetry; apply geb_true; lia)
                   | replace (a >=? b) with false
                       by (symmetry; apply geb_false; lia) ]
         end.

Lemma tag_is_Some t tg : tag_is t tg = true -> t = Some tg.
Proof.
  destruct t as [x|]; cbn; [|discriminate].
  intros H. apply String.eqb_eq in H. subst. reflexivity.
Qed.

(** What [removeTagDFS] hands back for a childless node: nothing happens
    to a node that is not touched; a touched node is either kept with
    what remains of it (cases 2 and 3), or given up, its remains being
    the rehook nodes (cases 1 and 4); only case 4 can leave an interval
    to go on with, from the end of the node to [e]. *)
Lemma removeTagBody_leaf (rec : RecFun) (tg : string) (k : nat)
      (c : IntervalNode) (s e : Z) (c' : IntervalNode) (r : RemoveResult) :
  children c = [] -> interval0 c < interval1 c -> s < e ->
  removeTagBody rec tg k c s e = Some (c', r) ->
  (touched tg s e c = false /\ c' = c /\ removed r = false)
  \/ (touched tg s e c = true /\ removed r = true
      /\ ((entireOrInside (state r) = false
           /\ remains tg s e c = [c']
           /\ snd (remainingInterval r) <= fst (remainingInterval r))
          \/ (entireOrInside (state r) = true
              /\ rehookNodeList r = remains tg s e c
              /\ (fst (remainingInterval r) < snd (remainingInterval r) ->
                  remainingInterval r = (interval1 c, e)
                  /\ remains tg s e c = [])))).
Proof.
  destruct c as [c0 c1 t cs]. cbn [children interval0 interval1].
  intros -> Hp Hse H. unfold removeTagBody in H.
  cbn [interval0 interval1 tag children] in H.
  unfold touched, remains, touched. cbn [interval0 interval1 tag].
  destruct (Z.max s c0 >=? Z.min e c1) eqn:E0.
  - apply geb_true in E0. injection H as <- <-. left.
    split; [|split; reflexivity].
    destruct (Z_lt_le_dec s c1) as [Hs|Hs];
      [replace (c0 <? e) with false by (symmetry; apply Z.ltb_ge; lia);
       apply andb_false_r|].
    replace (s <? c1) with false by (symmetry; apply Z.ltb_ge; lia).
    rewrite andb_false_r. reflexivity.
  - apply geb_false in E0.
    assert (Hs : s < c1) by lia. assert (He : c0 < e) by lia.
    replace (s <? c1) with true by (symmetry; apply Z.ltb_lt; lia).
    replace (c0 <? e) with true by (symmetry; apply Z.ltb_lt; lia).
    rewrite !andb_true_r.
    destruct (tag_is t tg) eqn:Et.
    + right. split; [reflexivity|].
      pose proof (tag_is_Some _ _ Et) as ->.
      cbn [andb] in H.
      destruct (Z_lt_le_dec c0 s) as [H0|H0],
               (Z_lt_le_dec e c1) as [H1|H1].
      * (* case 1 *)
        settle H. cbn [andb insideLoop] in H. settle H.
        injection H as <- <-. cbn. split; [reflexivity|]. right.
        split; [reflexivity|].
        settle_goal. rewrite Z.max_l, Z.min_l by lia.
        split; [reflexivity|]. lia.
      * (* case 3 *)
        settle H. cbn [andb] in H.
        destruct k as [|k]; [discriminate|].
        cbn in H. injection H as <- <-. cbn. split; [reflexivity|]. left.
        split; [reflexivity|]. settle_goal. rewrite Z.max_l by lia.
        split; [reflexivity|]. lia.
      * (* case 2 *)
        settle H. cbn [andb] in H.
        destruct k as [|k]; [discriminate|].
        cbn in H. injection H as <- <-. cbn. split; [reflexivity|]. left.
        split; [reflexivity|]. settle_goal. rewrite Z.min_l by lia.
        split; [reflexivity|]. lia.
      * (* case 4 *)
        settle H. cbn [andb coverLoop] in H.
        injection H as <- <-. cbn. split; [reflexivity|]. right.
        split; [reflexivity|]. settle_goal.
        split; [reflexivity|]. intros _. rewrite Z.min_r by lia.
        split; reflexivity.
    + left. split; [reflexivity|]. cbn [andb] in H.
      destruct k as [|k]; [discriminate|].
      cbn in H. injection H as <- <-. split; reflexivity.
Qed.

(** ** The array around one child *)

Lemma split_at_child i cs :
  (i < length cs)%nat ->
  exists l1 l2, cs = l1 ++ child_at cs i :: l2 /\ length l1 = i.
Proof.
  intros Hi. exists (firstn i cs), (skipn (S i) cs). split.
  - apply child_at_split, Hi.
  - apply firstn_length_le. lia.
Qed.

Lemma child_at_middle l1 c l2 : child_at (l1 ++ c :: l2) (length l1) = c.
Proof. unfold child_at. apply nth_middle. Qed.

Lemma replace_at_middle l1 c l2 x :
  replace_at (length l1) x (l1 ++ c :: l2) = l1 ++ x :: l2.
Proof. induction l1 as [|a l1 IH]; cbn; [reflexivity|]. rewrite IH. reflexivity. Qed.

Lemma remove_at_middle l1 c l2 :
  remove_at (length l1) (l1 ++ c :: l2) = l1 ++ l2.
Proof.
  unfold remove_at. rewrite firstn_app, Nat.sub_diag, firstn_all.
  cbn [firstn]. rewrite app_nil_r.
  replace (S (length l1)) with (length l1 + 1)%nat by lia.
  rewrite skipn_app, skipn_all2 by lia.
  replace (length l1 + 1 - length l1)%nat with 1%nat by lia.
  reflexivity.
Qed.

Lemma firstn_middle l1 (c : IntervalNode) l2 :
  firstn (S (length l1)) (l1 ++ c :: l2) = l1 ++ [c].
Proof. induction l1 as [|a l1 IH]; cbn; [reflexivity|]. cbn in IH. rewrite IH. reflexivity. Qed.

Lemma Forall_firstn_index (P : IntervalNode -> Prop) : forall l m,
  (forall j, (j < m)%nat -> (j < length l)%nat -> P (child_at l j)) ->
  Forall P (firstn m l).
Proof.
  unfold child_at.
  induction l as [|c rest IH]; intros m H; [rewrite firstn_nil; constructor|].
  destruct m as [|m]; [constructor|]. cbn [firstn]. constructor.
  - apply (H O); cbn; lia.
  - apply IH. intros j Hj Hl. apply (H (S j)); cbn; lia.
Qed.

(** Storing nodes that belong between [l1] and [l2], in their order. *)
Lemma insertRehooks_row keep n0 n1 : forall q l1 l2,
  Forall (fun x => keep x = true) q ->
  Row n0 n1 (l1 ++ q ++ l2) ->
  insertRehooks keep q (l1 ++ l2) = l1 ++ q ++ l2.
Proof.
  induction q as [|x q IH]; intros l1 l2 Hk H; [reflexivity|].
  inversion Hk as [|x' q' Hx Hq]; subst.
  destruct (proj1 (Row_app n0 n1 l1 ((x :: q) ++ l2)) H) as (H1 & Hxq2 & H1x).
  destruct (proj1 (Row_app n0 n1 [x] (q ++ l2)) Hxq2) as (Hxs & Hq2 & Hx2).
  apply Row_single in Hxs. destruct Hxs as (_ & _ & Hxp & _).
  destruct (proj1 (Row_app n0 n1 q l2) Hq2) as (_ & H2 & _).
  rewrite insertRehooks_one; try assumption.
  - replace (l1 ++ x :: l2) with ((l1 ++ [x]) ++ l2)
      by (rewrite <- app_assoc; reflexivity).
    rewrite IH; [rewrite <- app_assoc; reflexivity|exact Hq|].
    rewrite <- app_assoc. exact H.
  - apply (Row_starts n0 n1). apply Row_app. split; [exact H1|].
    split; [exact H2|].
    intros a b Ha Hb. apply H1x; [exact Ha|].
    right. apply in_or_app. right. exact Hb.
  - rewrite Forall_forall. intros a Ha.
    destruct (Row_In _ _ _ _ H1 Ha) as (_ & _ & Hap & _).
    specialize (H1x a x Ha (or_introl eq_refl)). lia.
  - rewrite Forall_forall. intros b Hb.
    specialize (Hx2 x b (or_introl eq_refl)
                  (in_or_app _ _ _ (or_intror Hb))). lia.
Qed.

(** [firstRelevant] skips only children that end at [pos] or before. *)
Lemma firstRelevant_skips n0 n1 cs pos :
  Row n0 n1 cs ->
  Forall (fun c => interval1 c <= pos) (firstn (firstRelevant cs pos) cs).
Proof.
  intros H. pose proof (Row_starts _ _ _ H) as Hinc.
  pose proof (findInsertionPoint_spec cs pos Hinc) as Hk.
  destruct H as [Hall Hs].
  apply Forall_firstn_index. intros j Hj Hl.
  pose proof Hk as (Hkn & Hbefore & _).
  destruct (firstRelevant_cases cs pos _ Hinc Hk)
    as [(Hpos & Hend & Hfr)|(Hend & Hfr)]; rewrite Hfr in Hj.
  - pose proof (StronglySorted_child_at _ cs Hs j
                  (findInsertionPoint cs pos - 1)%nat ltac:(lia)) as Hc.
    cbn in Hc.
    specialize (Hbefore (findInsertionPoint cs pos - 1)%nat ltac:(lia)).
    lia.
  - destruct (Nat.eq_dec (S j) (findInsertionPoint cs pos)) as [Heq|Hne].
    + replace j with (findInsertionPoint cs pos - 1)%nat by lia.
      apply Hend. lia.
    + pose proof (StronglySorted_child_at _ cs Hs j
                    (findInsertionPoint cs pos - 1)%nat ltac:(lia)) as Hc.
      cbn in Hc.
      specialize (Hbefore (findInsertionPoint cs pos - 1)%nat ltac:(lia)).
      lia.
Qed.

Lemma firstRelevant_le cs pos : (firstRelevant cs pos <= length cs)%nat.
Proof.
  unfold firstRelevant. pose proof (findInsertionPoint_le cs pos).
  destruct ((0 <? findInsertionPoint cs pos)%nat && _); lia.
Qed.

(** ** The loop over the children of a flat node *)

Section FlatLoop.
Variable rec : RecFun.
Variable tg : string.
Variables n0 n1 : Z.
Variable t : option string.
Variables s e : Z.
Hypothesis Hse : s < e.

(** The recursive calls on a childless node behave as the body does. *)
Hypothesis Hleaf :
  forall c c' r,
    children c = [] -> interval0 c < interval1 c ->
    rec c tg s e = Some (c', r) ->
    (touched tg s e c = false /\ c' = c /\ removed r = false)
    \/ (touched tg s e c = true /\ removed r = true
        /\ ((entireOrInside (state r) = false
             /\ remains tg s e c = [c']
             /\ snd (remainingInterval r) <= fst (remainingInterval r))
            \/ (entireOrInside (state r) = true
                /\ rehookNodeList r = remains tg s e c
                /\ (fst (remainingInterval r) < snd (remainingInterval r) ->
                    remainingInterval r = (interval1 c, e)
                    /\ remains tg s e c = [])))).

(** The recursive calls on the node itself, with what is left of the
    interval, cut the row. *)
Hypothesis Hflat :
  forall cur s' node' r',
    Row n0 n1 cur -> s' < e ->
    rec (mkNode n0 n1 t cur) tg s' e = Some (node', r') ->
    node' = mkNode n0 n1 t (cut tg s' e cur).

Let es := Z.max s n0.
Let ee := Z.min e n1.

Lemma skipped_untouched c :
  slotLeaf n0 n1 c ->
  (ee <=? interval0 c) || (es >=? interval1 c) = true ->
  touched tg s e c = false.
Proof.
  intros (_ & H0 & Hp & H1) H. unfold touched, es, ee in *.
  apply orb_true_iff in H. destruct H as [H|H].
  - apply Z.leb_le in H.
    replace (interval0 c <? e) with false by (symmetry; apply Z.ltb_ge; lia).
    apply andb_false_r.
  - apply geb_true in H.
    replace (s <? interval1 c) with false by (symmetry; apply Z.ltb_ge; lia).
    rewrite andb_false_r. reflexivity.
Qed.

Lemma ended_untouched c :
  slotLeaf n0 n1 c -> interval1 c <= es -> touched tg s e c = false.
Proof.
  intros (_ & H0 & Hp & H1) H. unfold touched, es in *.
  replace (s <? interval1 c) with false by (symmetry; apply Z.ltb_ge; lia).
  rewrite andb_false_r. reflexivity.
Qed.

Lemma prefix_untouched cur :
  Row n0 n1 cur ->
  Forall (fun c => touched tg s e c = false)
    (firstn (firstRelevant cur es) cur).
Proof.
  intros H. pose proof (firstRelevant_skips n0 n1 cur es H) as Hskip.
  rewrite Forall_forall in *. intros c Hc.
  apply ended_untouched; [|apply Hskip, Hc].
  apply (Row_In n0 n1 cur); [exact H|].
  rewrite <- (firstn_skipn (firstRelevant cur es) cur).
  apply in_or_app. left. exact Hc.
Qed.

Lemma flat_loop k : forall cur i rem node' b,
  Row n0 n1 cur ->
  Forall (fun c => touched tg s e c = false) (firstn i cur) ->
  removeChildrenLoop rec tg k (mkNode n0 n1 t cur) s e es ee i rem
  = Some (node', b) ->
  node' = mkNode n0 n1 t (cut tg s e cur)
  /\ b = rem || existsb (touched tg s e) cur.
Proof.
  induction k as [|k IH]; intros cur i rem node' b Hrow Hpre H;
    [discriminate|].
  rewrite removeChildrenLoop_S in H. unfold numChildren in H.
  cbn [children set_children interval0 interval1 tag] in H.
  destruct (i <? length cur)%nat eqn:Ei.
  2:{ apply Nat.ltb_ge in Ei. injection H as <- <-.
      rewrite firstn_all2 in Hpre by lia.
      rewrite cut_untouched, existsb_touched_clean by assumption.
      rewrite orb_false_r. split; reflexivity. }
  apply Nat.ltb_lt in Ei.
  destruct (split_at_child i cur Ei) as (l1 & l2 & Hcur & Hlen).
  remember (child_at cur i) as c eqn:Hc in *. clear Hc.
  subst cur i.
  rewrite firstn_app, Nat.sub_diag, firstn_all in Hpre. cbn [firstn] in Hpre.
  rewrite app_nil_r in Hpre.
  assert (Hcl : slotLeaf n0 n1 c)
    by (apply (Row_In n0 n1 (l1 ++ c :: l2)); [exact Hrow|];
        apply in_or_app; right; left; reflexivity).
  pose proof Hcl as (Hleafc & Hc0 & Hcp & Hc1).
  assert (Hnext : forall x,
             touched tg s e x = false ->
             Forall (fun d => touched tg s e d = false)
               (firstn (S (length l1)) (l1 ++ x :: l2))).
  { intros x Hx. rewrite firstn_middle. apply Forall_app.
    split; [exact Hpre|]. constructor; [exact Hx|constructor]. }
  destruct ((ee <=? interval0 c) || (es >=? interval1 c)) eqn:Eskip.
  { (* the child does not meet the interval *)
    apply (IH _ _ _ _ _ Hrow (Hnext c (skipped_untouched c Hcl Eskip)) H). }
  destruct (rec c tg s e) as [[c' r]|] eqn:Erec; [|discriminate].
  rewrite !replace_at_middle in H.
  unfold set_children in H. cbn [interval0 interval1 tag children] in H.
  destruct (Hleaf c c' r Hleafc Hcp Erec)
    as [(Hun & -> & Hrem)|(Htou & Hrem & Hkind)]; rewrite Hrem in H.
  { (* another tag: nothing happens *)
    apply (IH _ _ _ _ _ Hrow (Hnext c Hun) H). }
  assert (Hflag : rem || existsb (touched tg s e) (l1 ++ c :: l2) = true).
  { rewrite existsb_app. cbn [existsb]. rewrite Htou.
    rewrite orb_true_l, !orb_true_r. reflexivity. }
  rewrite Hflag.
  assert (Hcut : cut tg s e (l1 ++ c :: l2)
                 = cut tg s e (l1 ++ remains tg s e c ++ l2)).
  { rewrite !cut_app, cut_cons, cut_remains. reflexivity. }
  assert (Hrow' : Row n0 n1 (l1 ++ remains tg s e c ++ l2)).
  { apply (Row_replace n0 n1 l1 c l2); [exact Hrow|].
    apply remains_row; assumption. }
  rewrite Hcut.
  destruct Hkind as [(Hst & Hone & Hrest)|(Hst & Hre & Hrest)];
    rewrite Hst in H; cbv beta iota zeta in H.
  - (* cases 2 and 3: the child is kept with what remains of it *)
    replace (fst (remainingInterval r) <? snd (remainingInterval r))
      with false in H by (symmetry; apply Z.ltb_ge; lia).
    rewrite Hone in *. cbn [app] in *.
    assert (Hc' : touched tg s e c' = false).
    { pose proof (remains_clean tg s e c) as Hclean. rewrite Hone in Hclean.
      inversion Hclean; assumption. }
    destruct (IH _ _ _ _ _ Hrow' (Hnext c' Hc') H) as [-> ->].
    split; reflexivity.
  - (* cases 1 and 4: the child goes, its remains are stored *)
    rewrite remove_at_middle, Hre in H.
    rewrite (insertRehooks_row _ n0 n1 (remains tg s e c) l1 l2) in H;
      [|rewrite Forall_forall; reflexivity|exact Hrow'].
    set (cur' := l1 ++ remains tg s e c ++ l2) in *.
    destruct (fst (remainingInterval r) <? snd (remainingInterval r)) eqn:Er.
    + apply Z.ltb_lt in Er. destruct (Hrest Er) as [Hint Hnone].
      rewrite Hint in H. cbn [fst snd] in H.
      apply touched_iff in Htou. destruct Htou as (_ & Hs1 & _).
      assert (Hc1e : interval1 c < e) by (rewrite Hint in Er; exact Er).
      destruct (rec (mkNode n0 n1 t cur') tg (interval1 c) e)
        as [[node3 r3]|] eqn:Erec3; [|discriminate].
      rewrite (Hflat cur' _ _ _ Hrow' Hc1e Erec3) in H.
      assert (Hpre3 : Forall (fun d => touched tg s e d = false)
                        (firstn (firstRelevant cur' es)
                           (cut tg (interval1 c) e cur'))).
      { pose proof (firstRelevant_skips n0 n1 cur' es Hrow') as Hskip.
        pose proof (prefix_untouched cur' Hrow') as Hun.
        rewrite <- (firstn_skipn (firstRelevant cur' es) cur') at 2.
        rewrite cut_app.
        rewrite (cut_untouched tg (interval1 c) e
                   (firstn (firstRelevant cur' es) cur')).
        - rewrite firstn_app.
          rewrite firstn_length_le by apply firstRelevant_le.
          rewrite Nat.sub_diag, firstn_firstn, Nat.min_id. cbn [firstn].
          rewrite app_nil_r. exact Hun.
        - eapply Forall_impl; [|exact Hskip]. intros d Hd. cbn in Hd.
          unfold touched.
          replace (interval1 c <? interval1 d) with false
            by (symmetry; apply Z.ltb_ge; unfold es in Hd; lia).
          rewrite andb_false_r. reflexivity. }
      destruct (IH _ _ _ _ _ (cut_row tg _ e n0 n1 cur' Hc1e Hrow') Hpre3 H)
        as [-> ->].
      rewrite (cut_cut tg s (interval1 c) e n0 n1 cur') by (assumption || lia).
      split; reflexivity.
    + destruct (IH _ _ _ _ _ Hrow' (prefix_untouched cur' Hrow') H)
        as [-> ->].
      split; reflexivity.
Qed.

End FlatLoop.

(** ** Removal from a flat node *)

Lemma Row_clip n0 n1 t cs cs' :
  Row n0 n1 cs -> map (clipChild (mkNode n0 n1 t cs')) cs = cs.
Proof.
  intros H. rewrite <- (map_id cs) at 2. apply map_ext_in. intros c Hc.
  destruct (Row_In _ _ _ _ H Hc) as (_ & H0 & _ & H1).
  apply clipChild_within. unfold within. cbn [interval0 interval1].
  apply andb_true_iff. split; apply Z.leb_le; assumption.
Qed.

Lemma Row_outside tg s e n0 n1 cs :
  Row n0 n1 cs -> s < e -> Z.min e n1 <= Z.max s n0 ->
  Forall (fun c => touched tg s e c = false) cs.
Proof.
  intros H Hse Hout. rewrite Forall_forall. intros c Hc.
  destruct (Row_In _ _ _ _ H Hc) as (_ & H0 & Hp & H1).
  unfold touched.
  destruct (Z_lt_le_dec s (interval1 c)) as [Hs|Hs].
  - replace (interval0 c <? e) with false by (symmetry; apply Z.ltb_ge; lia).
    apply andb_false_r.
  - replace (s <? interval1 c) with false by (symmetry; apply Z.ltb_ge; lia).
    rewrite andb_false_r. reflexivity.
Qed.

Lemma flat_body (rec : RecFun) (tg : string) (n0 n1 : Z)
      (t : option string) (s e : Z) (k : nat) (cur : list IntervalNode)
      (node' : IntervalNode) (r : RemoveResult) :
  s < e -> tag_is t tg = false ->
  (forall c c' r0,
      children c = [] -> interval0 c < interval1 c ->
      rec c tg s e = Some (c', r0) ->
      (touched tg s e c = false /\ c' = c /\ removed r0 = false)
      \/ (touched tg s e c = true /\ removed r0 = true
          /\ ((entireOrInside (state r0) = false
               /\ remains tg s e c = [c']
               /\ snd (remainingInterval r0) <= fst (remainingInterval r0))
              \/ (entireOrInside (state r0) = true
                  /\ rehookNodeList r0 = remains tg s e c
                  /\ (fst (remainingInterval r0) < snd (remainingInterval r0)
                      -> remainingInterval r0 = (interval1 c, e)
                         /\ remains tg s e c = []))))) ->
  (forall cur0 s' node0 r0,
      Row n0 n1 cur0 -> s' < e ->
      rec (mkNode n0 n1 t cur0) tg s' e = Some (node0, r0) ->
      node0 = mkNode n0 n1 t (cut tg s' e cur0)) ->
  Row n0 n1 cur ->
  removeTagBody rec tg k (mkNode n0 n1 t cur) s e = Some (node', r) ->
  node' = mkNode n0 n1 t (cut tg s e cur)
  /\ removed r = existsb (touched tg s e) cur.
Proof.
  intros Hse Ht Hleaf Hflat Hrow H. unfold removeTagBody in H.
  cbn [interval0 interval1 tag children] in H.
  destruct (Z.max s n0 >=? Z.min e n1) eqn:E0.
  - apply geb_true in E0. injection H as <- <-.
    pose proof (Row_outside tg s e n0 n1 cur Hrow Hse E0) as Hout.
    rewrite cut_untouched, existsb_touched_clean by assumption.
    split; reflexivity.
  - rewrite Ht in H. cbn [andb] in H.
    destruct (removeChildrenLoop rec tg k (mkNode n0 n1 t cur) s e
                (Z.max s n0) (Z.min e n1)
                (firstRelevant cur (Z.max s n0)) false)
      as [[node1 rem]|] eqn:Eloop; [|discriminate].
    injection H as <- <-.
    destruct (flat_loop rec tg n0 n1 t s e Hse Hleaf Hflat k cur _ _ _ _
                Hrow (prefix_untouched tg n0 n1 s e cur Hrow) Eloop)
      as [-> ->].
    cbn [children set_children interval0 interval1 tag removed orb].
    unfold set_children. cbn [interval0 interval1 tag].
    rewrite Row_clip by (apply cut_row; assumption).
    split; reflexivity.
Qed.

Lemma removeTagDFS_flat (tg : string) (fuel : nat) :
  forall n0 n1 t cur s e node' r,
    tag_is t tg = false -> s < e -> Row n0 n1 cur ->
    removeTagDFS fuel (mkNode n0 n1 t cur) tg s e = Some (node', r) ->
    node' = mkNode n0 n1 t (cut tg s e cur)
    /\ removed r = existsb (touched tg s e) cur.
Proof.
  induction fuel as [|f IH]; intros n0 n1 t cur s e node' r Ht Hse Hrow H;
    [discriminate|].
  rewrite removeTagDFS_S in H.
  apply (flat_body (removeTagDFS f) tg n0 n1 t s e f cur node' r);
    try assumption.
  - intros c c' r0 Hleaf Hp Hrec.
    destruct f as [|f']; [discriminate|].
    rewrite removeTagDFS_S in Hrec.
    apply (removeTagBody_leaf _ _ _ _ _ _ _ _ Hleaf Hp Hse Hrec).
  - intros cur0 s' node0 r0 Hrow0 Hs' Hrec.
    apply (IH n0 n1 t cur0 s' e node0 r0 Ht Hs' Hrow0 Hrec).
Qed.

Lemma flat_Row n :
  flat n = true -> Row (interval0 n) (interval1 n) (children n).
Proof.
  unfold flat. intros H.
  apply andb_true_iff in H. destruct H as [H Hleaves].
  apply andb_true_iff in H. destruct H as [Hinv Hprop].
  destruct (node_ordered n Hinv Hprop) as (Hchain & Hp & Hch).
  rewrite forallb_forall in Hleaves. split.
  - rewrite Forall_forall. intros c Hc.
    destruct (Hch c Hc) as (_ & Hpc & H0 & H1).
    destruct (In_nth _ _ dummyNode Hc) as (j & Hj & Hcj).
    specialize (Hp j Hj). unfold child_at in Hp. rewrite Hcj in Hp.
    specialize (Hleaves c Hc). unfold hasChildren in Hleaves.
    unfold slotLeaf. repeat split; try assumption.
    destruct (children c); [reflexivity|discriminate].
  - apply StronglySorted_index. exact Hchain.
Qed.

(** X23.  On a flat tree in good order (the invariants hold, no node is
    empty, the root does not carry the tag and its children have no
    children) [removeTag] for a non-empty interval [s,e) returns, and it
    leaves under the root exactly this: every child that carries the tag
    and meets [s,e) is replaced by its part before [s] and its part from
    [e] on (where these are not empty), and every other child stays as it
    is, in the same order.  The call reports [true] exactly when some
    child carried the tag and met [s,e). *)
Theorem removeTag_on_flat_tree
        (tree : TaggedIntervalTree) (tg : string) (s e : Z) :
  flat (root tree) = true ->
  tag_is (tag (root tree)) tg = false ->
  s < e ->
  exists fuel,
    forall f, (fuel <= f)%nat ->
      removeTag f tree tg s e
      = Some (mkTree (set_children (root tree)
                        (cut tg s e (children (root tree)))),
              existsb (touched tg s e) (children (root tree))).
Proof.
  intros Hflat Ht Hse.
  destruct (removeTagDFS_total tg (root tree) s e)
    as (F & node' & r & Hrun & _).
  exists F. intros f Hf. unfold removeTag.
  replace (s >=? e) with false by (symmetry; apply geb_false; lia).
  rewrite (Hrun f Hf).
  pose proof (flat_Row _ Hflat) as Hrow.
  destruct tree as [[n0 n1 t cs]]. cbn [root interval0 interval1 tag children]
    in *.
  destruct (removeTagDFS_flat tg F n0 n1 t cs s e node' r Ht Hse Hrow
              (Hrun F (Nat.le_refl F))) as [-> ->].
  reflexivity.
Qed.

Lemma removeTag_on_flat_tree_witness :
  let t := addTag (addTag (createTaggedIntervalTree 0 20) "b" 2 10)
             "i" 12 18 in
  flat (root t) = true
  /\ tag_is (tag (root t)) "b" = false
  /\ 5 < 14
  /\ exists fuel,
      forall f, (fuel <= f)%nat ->
        removeTag f t "b" 5 14
        = Some (mkTree (mkNode 0 20 None
                          [mkNode 2 5 (Some "b"%string) [];
                           mkNode 12 18 (Some "i"%string) []]),
                true).
Proof.
  cbv zeta. split; [reflexivity|]. split; [reflexivity|]. split; [lia|].
  apply (removeTag_on_flat_tree
           (addTag (addTag (createTaggedIntervalTree 0 20) "b" 2 10)
              "i" 12 18) "b" 5 14);
    [reflexivity | reflexivity | lia].
Defined.

(** ** The tree that the removal leaves *)

Lemma leaf_good n0 n1 c :
  slotLeaf n0 n1 c ->
  within n0 n1 c = true /\ invariants c = true /\ proper c = true
  /\ hasChildren c = false.
Proof.
  destruct c as [c0 c1 t cs]. unfold slotLeaf. cbn.
  intros (-> & H0 & Hp & H1). cbn. unfold within. cbn.
  repeat split.
  - apply andb_true_iff. split; apply Z.leb_le; assumption.
  - apply andb_true_iff. split; [apply Z.ltb_lt; exact Hp|reflexivity].
Qed.

Lemma Row_siblingsOrdered n0 n1 cs : Row n0 n1 cs -> siblingsOrdered cs = true.
Proof.
  intros [Hall Hs].
  induction Hs as [|c rest Hs IH Hc]; [reflexivity|].
  inversion Hall as [|c' rest' Hcl Hrest]; subst.
  cbn [siblingsOrdered]. apply andb_true_iff. split; [|apply IH, Hrest].
  apply forallb_forall. intros d Hd.
  rewrite Forall_forall in Hc, Hrest.
  specialize (Hc d Hd). cbn in Hc.
  destruct Hcl as (_ & _ & Hcp & _).
  destruct (Hrest d Hd) as (_ & _ & Hdp & _).
  apply andb_true_iff. split; [apply Z.leb_le; lia|].
  apply negb_true_iff. unfold overlaps. apply andb_false_iff.
  right. apply Z.ltb_ge. lia.
Qed.

Lemma Row_flat n0 n1 t cs :
  n0 < n1 -> Row n0 n1 cs -> flat (mkNode n0 n1 t cs) = true.
Proof.
  intros Hp Hrow. unfold flat. cbn [invariants proper children].
  rewrite (Row_siblingsOrdered _ _ _ Hrow).
  replace (n0 <? n1) with true by (symmetry; apply Z.ltb_lt; lia).
  cbn [andb].
  assert (H : forall c, In c cs ->
                        within n0 n1 c = true /\ invariants c = true
                        /\ proper c = true /\ hasChildren c = false)
    by (intros c Hc; apply leaf_good, (Row_In n0 n1 cs); assumption).
  repeat (apply andb_true_iff; split); apply forallb_forall; intros c Hc;
    destruct (H c Hc) as (Hw & Hi & Hpc & Hl).
  - rewrite Hw, Hi. reflexivity.
  - exact Hpc.
  - rewrite Hl. reflexivity.
Qed.

Lemma flat_proper_root n : flat n = true -> interval0 n < interval1 n.
Proof.
  unfold flat. intros H.
  apply andb_true_iff in H. destruct H as [H _].
  apply andb_true_iff in H. destruct H as [_ H].
  apply proper_node in H. apply H.
Qed.

Lemma flat_good n : flat n = true -> invariants n = true /\ proper n = true.
Proof.
  unfold flat. intros H.
  apply andb_true_iff in H. destruct H as [H _].
  apply andb_true_iff in H. exact H.
Qed.

(** The tree that [removeTag] leaves of a flat tree, by
    [removeTag_on_flat_tree]. *)
Lemma flat_after (n : IntervalNode) (tg : string) (s e : Z) :
  flat n = true -> s < e ->
  flat (set_children n (cut tg s e (children n))) = true.
Proof.
  intros Hflat Hse. pose proof (flat_Row _ Hflat) as Hrow.
  pose proof (flat_proper_root _ Hflat) as Hp.
  destruct n as [n0 n1 t cs]. cbn in *.
  apply Row_flat; [exact Hp|]. apply cut_row; assumption.
Qed.

Lemma flat_removal_runs tree tg s e :
  flat (root tree) = true -> tag_is (tag (root tree)) tg = false -> s < e ->
  exists fuel tree' b,
    (forall f, (fuel <= f)%nat -> removeTag f tree tg s e = Some (tree', b))
    /\ root tree' = set_children (root tree)
                      (cut tg s e (children (root tree)))
    /\ b = existsb (touched tg s e) (children (root tree)).
Proof.
  intros Hflat Ht Hse.
  destruct (removeTagDFS_total tg (root tree) s e)
    as (F & node' & r & Hrun & _).
  pose proof (flat_Row _ Hflat) as Hrow.
  exists F, (mkTree (set_children (root tree)
                       (cut tg s e (children (root tree))))),
    (existsb (touched tg s e) (children (root tree))).
  split; [|split; reflexivity].
  intros f Hf. unfold removeTag.
  replace (s >=? e) with false by (symmetry; apply geb_false; lia).
  rewrite (Hrun f Hf).
  destruct tree as [[n0 n1 t cs]]. cbn [root interval0 interval1 tag children]
    in *.
  destruct (removeTagDFS_flat tg F n0 n1 t cs s e node' r Ht Hse Hrow
              (Hrun F (Nat.le_refl F))) as [-> ->].
  reflexivity.
Qed.

(** X24.  [removeTag] keeps a flat tree flat and in good order: the
    invariants hold again, no node is empty and the children of the root
    have no children. *)
Theorem removeTag_keeps_flat_tree_flat
        (tree : TaggedIntervalTree) (tg : string) (s e : Z) :
  flat (root tree) = true ->
  tag_is (tag (root tree)) tg = false ->
  exists fuel tree' b,
    (forall f, (fuel <= f)%nat -> removeTag f tree tg s e = Some (tree', b))
    /\ flat (root tree') = true.
Proof.
  intros Hflat Ht.
  destruct (Z_lt_le_dec s e) as [Hse|Hse].
  - destruct (flat_removal_runs tree tg s e Hflat Ht Hse)
      as (fuel & tree' & b & Hrun & Hroot & _).
    exists fuel, tree', b. split; [exact Hrun|].
    rewrite Hroot. apply flat_after; assumption.
  - exists O, tree, false. split; [|exact Hflat].
    intros f _. unfold removeTag.
    replace (s >=? e) with true by (symmetry; apply geb_true; lia).
    reflexivity.
Qed.

Lemma removeTag_keeps_flat_tree_flat_witness :
  let t := addTag (addTag (createTaggedIntervalTree 0 20) "b" 2 10)
             "i" 12 18 in
  flat (root t) = true
  /\ tag_is (tag (root t)) "b" = false
  /\ exists fuel tree' b,
      (forall f, (fuel <= f)%nat -> removeTag f t "b" 5 14 = Some (tree', b))
      /\ flat (root tree') = true.
Proof.
  cbv zeta. split; [reflexivity|]. split; [reflexivity|].
  apply (removeTag_keeps_flat_tree_flat
           (addTag (addTag (createTaggedIntervalTree 0 20) "b" 2 10)
              "i" 12 18) "b" 5 14); reflexivity.
Defined.

Lemma flat_subnodes n x :
  flat n = true -> In x (subnodes n) -> x = n \/ In x (children n).
Proof.
  intros Hflat Hx. pose proof (flat_Row _ Hflat) as Hrow.
  destruct (subnodes_inv _ _ Hx) as [->|(c & Hc & Hxc)]; [left; reflexivity|].
  right. destruct (Row_In _ _ _ _ Hrow Hc) as (Hleaf & _).
  destruct c as [c0 c1 ct ccs]. cbn in Hleaf. subst ccs.
  cbn in Hxc. destruct Hxc as [<-|[]]. exact Hc.
Qed.

(** X25.  After [removeTag] on a flat tree in good order the tag is gone
    from the interval: [hasTag] answers [false] for [s,e) and for every
    non-empty interval that meets [s,e). *)
Theorem removeTag_then_hasTag_false_on_flat_tree
        (tree : TaggedIntervalTree) (tg : string) (s e s' e' : Z) :
  flat (root tree) = true ->
  tag_is (tag (root tree)) tg = false ->
  s < e -> s' < e' -> Z.max s s' < Z.min e e' ->
  exists fuel tree' b,
    (forall f, (fuel <= f)%nat -> removeTag f tree tg s e = Some (tree', b))
    /\ hasTag tree' tg s' e' = false.
Proof.
  intros Hflat Ht Hse Hse' Hmeet.
  destruct (flat_removal_runs tree tg s e Hflat Ht Hse)
    as (fuel & tree' & b & Hrun & Hroot & _).
  exists fuel, tree', b. split; [exact Hrun|].
  destruct (hasTag tree' tg s' e') eqn:Ehas; [exfalso|reflexivity].
  unfold hasTag in Ehas.
  destruct (checkTagDFS_sound tg s' e' _ Ehas) as (x & Hx & Htx & H0 & H1).
  pose proof (flat_after (root tree) tg s e Hflat Hse) as Hflat'.
  rewrite <- Hroot in Hflat'.
  destruct (flat_subnodes _ _ Hflat' Hx) as [->|Hc].
  - rewrite Hroot in Htx. destruct (root tree) as [n0 n1 t cs].
    cbn in Htx, Ht. congruence.
  - rewrite Hroot in Hc. destruct (root tree) as [n0 n1 t cs].
    cbn [children set_children] in Hc.
    pose proof (cut_clean tg s e cs) as Hclean.
    rewrite Forall_forall in Hclean. specialize (Hclean x Hc).
    assert (Htou : touched tg s e x = true)
      by (apply touched_iff; repeat split; [exact Htx|lia|lia]).
    congruence.
Qed.

Lemma removeTag_then_hasTag_false_on_flat_tree_witness :
  let t := addTag (addTag (createTaggedIntervalTree 0 20) "b" 2 10)
             "i" 12 18 in
  flat (root t) = true
  /\ tag_is (tag (root t)) "b" = false
  /\ exists fuel tree' b,
      (forall f, (fuel <= f)%nat -> removeTag f t "b" 5 14 = Some (tree', b))
      /\ hasTag tree' "b" 4 6 = false.
Proof.
  cbv zeta. split; [reflexivity|]. split; [reflexivity|].
  apply (removeTag_then_hasTag_false_on_flat_tree
           (addTag (addTag (createTaggedIntervalTree 0 20) "b" 2 10)
              "i" 12 18) "b" 5 14 4 6);
    [reflexivity | reflexivity | lia | lia | lia].
Defined.

(** X26.  [removeTag] on a flat tree in good order keeps the coverage
    outside the interval, of the tag itself and of every other tag: when
    [hasTag] is true for some tag on a non-empty interval that does not
    meet [s,e), it is still true after the removal. *)
Theorem removeTag_keeps_coverage_outside_on_flat_tree
        (tree : TaggedIntervalTree) (tg tg' : string) (s e s' e' : Z) :
  flat (root tree) = true ->
  tag_is (tag (root tree)) tg = false ->
  s < e -> s' < e' -> e' <= s \/ e <= s' ->
  hasTag tree tg' s' e' = true ->
  exists fuel tree' b,
    (forall f, (fuel <= f)%nat -> removeTag f tree tg s e = Some (tree', b))
    /\ hasTag tree' tg' s' e' = true.
Proof.
  intros Hflat Ht Hse Hse' Hout Hhas.
  destruct (flat_removal_runs tree tg s e Hflat Ht Hse)
    as (fuel & tree' & b & Hrun & Hroot & _).
  exists fuel, tree', b. split; [exact Hrun|].
  pose proof (flat_after (root tree) tg s e Hflat Hse) as Hflat'.
  rewrite <- Hroot in Hflat'.
  destruct (flat_good _ Hflat') as [Hinv' Hprop'].
  unfold hasTag in *. apply checkTagDFS_complete; try assumption.
  destruct (checkTagDFS_sound tg' s' e' _ Hhas) as (x & Hx & Htx & H0 & H1).
  destruct (flat_subnodes _ _ Hflat Hx) as [->|Hc].
  - exists (root tree'). split; [apply subnodes_self|].
    rewrite Hroot. destruct (root tree) as [n0 n1 t cs]. cbn in *. auto.
  - assert (Hpiece : exists y, In y (remains tg s e x)
                               /\ tag_is (tag y) tg' = true
                               /\ interval0 y <= s' /\ e' <= interval1 y).
    { unfold remains. destruct (touched tg s e x) eqn:Etou.
      - apply touched_iff in Etou. destruct Etou as (Etx & _ & _).
        apply tag_is_Some in Etx.
        assert (Etg : tag_is (Some tg) tg' = true) by (rewrite <- Etx; exact Htx).
        destruct Hout as [Hl|Hr].
        + exists (mkNode (interval0 x) s (Some tg) []).
          replace (interval0 x <? s) with true
            by (symmetry; apply Z.ltb_lt; lia).
          split; [apply in_or_app; left; left; reflexivity|].
          cbn. repeat split; [exact Etg|lia|lia].
        + exists (mkNode e (interval1 x) (Some tg) []).
          replace (e <? interval1 x) with true
            by (symmetry; apply Z.ltb_lt; lia).
          split; [apply in_or_app; right; left; reflexivity|].
          cbn. repeat split; [exact Etg|lia|lia].
      - exists x. split; [left; reflexivity|]. auto. }
    destruct Hpiece as (y & Hy & Hty & Hy0 & Hy1).
    exists y. split; [|auto].
    apply (subnodes_child (root tree') y); [|apply subnodes_self].
    rewrite Hroot. destruct (root tree) as [n0 n1 t cs].
    cbn [children set_children] in *.
    unfold cut. apply in_flat_map. exists x. split; assumption.
Qed.

Lemma removeTag_keeps_coverage_outside_on_flat_tree_witness :
  let t := addTag (addTag (createTaggedIntervalTree 0 20) "b" 2 10)
             "i" 12 18 in
  flat (root t) = true
  /\ tag_is (tag (root t)) "b" = false
  /\ hasTag t "b" 2 5 = true
  /\ exists fuel tree' b,
      (forall f, (fuel <= f)%nat -> removeTag f t "b" 5 14 = Some (tree', b))
      /\ hasTag tree' "b" 2 5 = true.
Proof.
  cbv zeta. split; [reflexivity|]. split; [reflexivity|].
  split; [reflexivity|].
  apply (removeTag_keeps_coverage_outside_on_flat_tree
           (addTag (addTag (createTaggedIntervalTree 0 20) "b" 2 10)
              "i" 12 18) "b" "b" 5 14 2 5);
    [reflexivity | reflexivity | lia | lia | left; lia | reflexivity].
Defined.

(** X27.  Round trip on a fresh tree: after [addTag] of a tag on [a,b)
    inside the domain, [removeTag] of the tag on [a,b) returns [true] and
    leaves the fresh tree again. *)
Theorem add_then_remove_on_fresh_tree
        (A B a b : Z) (tg : string) :
  A <= a -> a < b -> b <= B ->
  exists fuel,
    forall f, (fuel <= f)%nat ->
      removeTag f (addTag (createTaggedIntervalTree A B) tg a b) tg a b
      = Some (createTaggedIntervalTree A B, true).
Proof.
  intros HA Hab HB.
  set (tree := addTag (createTaggedIntervalTree A B) tg a b).
  assert (Hroot : root tree = mkNode A B None [mkNode a b (Some tg) []]).
  { subst tree. unfold addTag, createTaggedIntervalTree, createIntervalNode.
    replace (a >=? b) with false by (symmetry; apply geb_false; lia).
    cbn [root]. apply addTagDFS_childless; [reflexivity|lia|lia|lia]. }
  assert (Hflat : flat (root tree) = true).
  { rewrite Hroot. apply Row_flat; [lia|]. apply Row_single.
    unfold slotLeaf. cbn. repeat split; lia. }
  assert (Ht : tag_is (tag (root tree)) tg = false)
    by (rewrite Hroot; reflexivity).
  destruct (flat_removal_runs tree tg a b Hflat Ht Hab)
    as (fuel & tree' & r & Hrun & Hroot' & Hr).
  exists fuel. intros f Hf. rewrite (Hrun f Hf).
  rewrite Hroot in Hroot', Hr.
  cbn [children set_children interval0 interval1 tag cut flat_map existsb]
    in Hroot', Hr.
  unfold remains in Hroot'. rewrite touched_tg_node in Hroot', Hr.
  replace (a <? b) with true in * by (symmetry; apply Z.ltb_lt; lia).
  cbn [andb orb interval0 interval1] in Hroot', Hr.
  rewrite !Z.ltb_irrefl in Hroot'. cbn [app] in Hroot'.
  destruct tree' as [root']. cbn [root] in Hroot'. subst root' r.
  reflexivity.
Qed.

Lemma add_then_remove_on_fresh_tree_witness :
  0 <= 2 /\ 2 < 10 /\ 10 <= 20
  /\ exists fuel,
      forall f, (fuel <= f)%nat ->
        removeTag f (addTag (createTaggedIntervalTree 0 20) "b" 2 10)
          "b" 2 10
        = Some (createTaggedIntervalTree 0 20, true).
Proof.
  split; [lia|]. split; [lia|]. split; [lia|].
  apply (add_then_remove_on_fresh_tree 0 20 2 10 "b"); lia.
Defined.

(** * A second interval with the same tag *)

Lemma fresh_tree_with_one_tag (A B a b : Z) (tg : string) :
  A <= a -> a < b -> b <= B ->
  root (addTag (createTaggedIntervalTree A B) tg a b)
  = mkNode A B None [mkNode a b (Some tg) []].
Proof.
  intros HA Hab HB.
  unfold addTag, createTaggedIntervalTree, createIntervalNode.
  replace (a >=? b) with false by (symmetry; apply geb_false; lia).
  cbn [root]. apply addTagDFS_childless; [reflexivity|lia|lia|lia].
Qed.

Lemma search_one_child (x : IntervalNode) (pos : Z) :
  findInsertionPoint [x] pos = if interval0 x <? pos then 1%nat else O.
Proof.
  assert (Hinc : StartsIncreasing [x]) by (repeat constructor).
  apply findInsertionPoint_is; [exact Hinc|].
  destruct (interval0 x <? pos) eqn:E.
  - apply Z.ltb_lt in E. repeat split; [cbn; lia| |].
    + intros j Hj. replace j with O by lia. exact E.
    + intros j Hj. cbn in Hj. lia.
  - apply Z.ltb_ge in E. repeat split; [cbn; lia| |].
    + intros j Hj. lia.
    + intros j Hj. cbn in Hj. replace j with O by lia. exact E.
Qed.

(** X28.  Same-tag intervals that overlap or touch on the right are merged
    into their union: on a fresh tree, after [addTag] of a tag on [a,b),
    [addTag] of the same tag on [c,d) with [a < c <= b] leaves one child,
    the node [a, max b d) with the tag. *)
Theorem addTag_extends_to_the_right
        (A B a b c d : Z) (tg : string) :
  A <= a -> a < b -> b <= B ->
  a < c -> c <= b -> c < d -> d <= B ->
  root (addTag (addTag (createTaggedIntervalTree A B) tg a b) tg c d)
  = mkNode A B None [mkNode a (Z.max b d) (Some tg) []].
Proof.
  intros HA Hab HB Hac Hcb Hcd HdB.
  unfold addTag at 1.
  replace (c >=? d) with false by (symmetry; apply geb_false; lia).
  cbn [root]. rewrite fresh_tree_with_one_tag by assumption.
  rewrite addTagDFS_unfold; [|discriminate|lia|lia|lia|reflexivity].
  rewrite tryMerge_unfold by discriminate.
  cbn [children]. rewrite search_one_child. cbn [interval0].
  replace (a <? c) with true by (symmetry; apply Z.ltb_lt; lia).
  cbn. unfold tag_is. rewrite String.eqb_refl.
  replace (b >=? c) with true by (symmetry; apply geb_true; lia).
  reflexivity.
Qed.

Lemma addTag_extends_to_the_right_witness :
  0 <= 2 /\ 2 < 10 /\ 10 <= 20 /\ 2 < 6 /\ 6 <= 10 /\ 6 < 15 /\ 15 <= 20
  /\ root (addTag (addTag (createTaggedIntervalTree 0 20) "b" 2 10)
             "b" 6 15)
     = mkNode 0 20 None [mkNode 2 (Z.max 10 15) (Some "b"%string) []].
Proof.
  repeat (split; [lia|]).
  apply (addTag_extends_to_the_right 0 20 2 10 6 15 "b"); lia.
Defined.

(** X29.  A second interval that starts at the start of the node or
    before it moves only the start: on a fresh tree, after [addTag] of a
    tag on [a,b), [addTag] of the same tag on [c,d) with [c <= a <= d]
    leaves the one child [c,b).  When [d] lies beyond [b], nothing is
    added there, and [hasTag] for [c,d) answers [false]. *)
Theorem addTag_from_the_left_moves_only_the_start
        (A B a b c d : Z) (tg : string) :
  A <= c -> c <= a -> a < b -> b <= B ->
  a <= d -> c < d -> d <= B ->
  root (addTag (addTag (createTaggedIntervalTree A B) tg a b) tg c d)
  = mkNode A B None [mkNode c b (Some tg) []]
  /\ (b < d ->
      hasTag (addTag (addTag (createTaggedIntervalTree A B) tg a b) tg c d)
        tg c d = false).
Proof.
  intros HA Hca Hab HB Had Hcd HdB.
  assert (Hroot :
            root (addTag (addTag (createTaggedIntervalTree A B) tg a b)
                    tg c d)
            = mkNode A B None [mkNode c b (Some tg) []]).
  { unfold addTag at 1.
    replace (c >=? d) with false by (symmetry; apply geb_false; lia).
    cbn [root]. rewrite fresh_tree_with_one_tag by (assumption || lia).
    rewrite addTagDFS_unfold; [|discriminate|lia|lia|lia|reflexivity].
    rewrite tryMerge_unfold by discriminate.
    cbn [children]. rewrite search_one_child. cbn [interval0].
    replace (a <? c) with false by (symmetry; apply Z.ltb_ge; lia).
    cbn. unfold tag_is. rewrite String.eqb_refl.
    replace (d >=? a) with true by (symmetry; apply geb_true; lia).
    cbn. rewrite Z.min_r by lia. reflexivity. }
  split; [exact Hroot|].
  intros Hbd. unfold hasTag. rewrite Hroot.
  cbn [checkTagDFS tag_is andb].
  unfold firstRelevant. rewrite search_one_child. cbn [interval0].
  rewrite Z.ltb_irrefl. cbn [Nat.ltb Nat.leb andb checkLoop].
  cbn [interval0 interval1].
  replace (d <=? c) with false by (symmetry; apply Z.leb_gt; lia).
  replace (c >=? b) with false by (symmetry; apply geb_false; lia).
  cbn [orb checkTagDFS].
  replace (b >=? d) with false by (symmetry; apply geb_false; lia).
  rewrite andb_false_r. reflexivity.
Qed.

Lemma addTag_from_the_left_moves_only_the_start_witness :
  0 <= 1 /\ 1 <= 2 /\ 2 < 10 /\ 10 <= 20 /\ 2 <= 15 /\ 1 < 15 /\ 15 <= 20
  /\ root (addTag (addTag (createTaggedIntervalTree 0 20) "b" 2 10)
             "b" 1 15)
     = mkNode 0 20 None [mkNode 1 10 (Some "b"%string) []]
  /\ (10 < 15 ->
      hasTag (addTag (addTag (createTaggedIntervalTree 0 20) "b" 2 10)
                "b" 1 15) "b" 1 15 = false).
Proof.
  repeat (split; [lia|]).
  apply (addTag_from_the_left_moves_only_the_start 0 20 2 10 1 15 "b"); lia.
Defined.

(** * Round trip in a gap of a flat tree *)

Lemma clearOf_sides tg a b c :
  clearOf tg a b c = true -> interval0 c < interval1 c -> a < b ->
  (interval0 c < a -> interval1 c <= a
                      /\ (tag_is (tag c) tg = true -> interval1 c < a))
  /\ (a <= interval0 c -> b <= interval0 c
                          /\ (tag_is (tag c) tg = true -> b < interval0 c)).
Proof.
  unfold clearOf. intros H Hp Hab.
  destruct (tag_is (tag c) tg); apply orb_true_iff in H;
    destruct H as [H|H];
    try apply Z.ltb_lt in H; try apply Z.leb_le in H;
    split; intros Hside; (split; [lia|intros Ht; try discriminate Ht; lia]).
Qed.

Lemma clearOf_untouched tg a b c :
  clearOf tg a b c = true -> touched tg a b c = false.
Proof.
  unfold clearOf, touched. destruct (tag_is (tag c) tg); [|reflexivity].
  intros H. apply orb_true_iff in H. cbn [andb].
  destruct H as [H|H]; apply Z.ltb_lt in H.
  - replace (a <? interval1 c) with false by (symmetry; apply Z.ltb_ge; lia).
    reflexivity.
  - replace (interval0 c <? b) with false by (symmetry; apply Z.ltb_ge; lia).
    apply andb_false_r.
Qed.

(** In a gap [addTag] stores one new node at the insertion point and
    changes nothing else. *)
Lemma addTagDFS_into_gap n0 n1 t cs tg a b :
  Row n0 n1 cs -> tag_is t tg = false ->
  n0 <= a -> a < b -> b <= n1 ->
  forallb (clearOf tg a b) cs = true ->
  addTagDFS (mkNode n0 n1 t cs) tg a b
  = mkNode n0 n1 t
      (insert_at (findInsertionPoint cs a) (mkNode a b (Some tg) []) cs).
Proof.
  intros Hrow Ht H0 Hab H1 Hclear.
  destruct cs as [|c0 rest0] eqn:Ecs.
  { rewrite addTagDFS_childless by assumption. reflexivity. }
  rewrite <- Ecs in *. assert (Hne : cs <> []) by (subst cs; discriminate).
  clear Ecs c0 rest0.
  pose proof (Row_starts _ _ _ Hrow) as Hinc.
  pose proof (findInsertionPoint_spec cs a Hinc) as Hk.
  set (k := findInsertionPoint cs a) in *.
  pose proof Hk as (Hkn & Hbefore & Hafter).
  rewrite forallb_forall in Hclear.
  assert (Hside : forall j, (j < length cs)%nat ->
             (interval0 (child_at cs j) < a ->
              interval1 (child_at cs j) <= a
              /\ (tag_is (tag (child_at cs j)) tg = true ->
                  interval1 (child_at cs j) < a))
             /\ (a <= interval0 (child_at cs j) ->
                 b <= interval0 (child_at cs j)
                 /\ (tag_is (tag (child_at cs j)) tg = true ->
                     b < interval0 (child_at cs j)))).
  { intros j Hj. pose proof (child_at_In j cs Hj) as Hin.
    apply clearOf_sides; [apply Hclear, Hin| |exact Hab].
    destruct (Row_In _ _ _ _ Hrow Hin) as (_ & _ & Hp & _). exact Hp. }
  assert (Hmerge : tryMergeWithNeighbors (mkNode n0 n1 t cs) a b tg
                   = (false, mkNode n0 n1 t cs)).
  { rewrite tryMerge_unfold by assumption. cbv zeta. cbn [children].
    fold k.
    assert (E1 : (0 <? k)%nat && tag_is (tag (child_at cs (k - 1))) tg
                 && (interval1 (child_at cs (k - 1)) >=? a) = false).
    { destruct (0 <? k)%nat eqn:Epos; [|reflexivity].
      apply Nat.ltb_lt in Epos. cbn [andb].
      destruct (tag_is (tag (child_at cs (k - 1))) tg) eqn:EtL;
        [|reflexivity].
      cbn [andb]. apply geb_false.
      destruct (Hside (k - 1)%nat ltac:(lia)) as [Hl _].
      apply Hl; [apply Hbefore; lia|exact EtL]. }
    rewrite E1.
    assert (E3 : (k <? length cs)%nat && tag_is (tag (child_at cs k)) tg
                 && (b >=? interval0 (child_at cs k)) = false).
    { destruct (k <? length cs)%nat eqn:Ekn; [|reflexivity].
      apply Nat.ltb_lt in Ekn. cbn [andb].
      destruct (tag_is (tag (child_at cs k)) tg) eqn:EtR; [|reflexivity].
      cbn [andb]. apply geb_false.
      destruct (Hside k Ekn) as [_ Hr].
      apply Hr; [apply Hafter; lia|exact EtR]. }
    rewrite E3. reflexivity. }
  rewrite addTagDFS_unfold by assumption. rewrite Hmerge.
  cbv beta iota zeta.
  assert (Hfirst : firstRelevant cs a = k).
  { destruct (firstRelevant_cases cs a k Hinc Hk)
      as [(Hpos & Hend & _)|(_ & Hfr)]; [exfalso|exact Hfr].
    destruct (Hside (k - 1)%nat ltac:(lia)) as [Hl _].
    specialize (Hbefore (k - 1)%nat ltac:(lia)).
    destruct (Hl Hbefore) as [Hle _]. lia. }
  rewrite Hfirst.
  destruct (Nat.ltb_spec k (length cs)) as [Ekn|Ekn]; cbn [andb].
  - destruct (Hside k Ekn) as [_ Hr].
    destruct (Hr (Hafter k ltac:(lia))) as [Hb _].
    replace (a <? interval0 (child_at cs k)) with true
      by (symmetry; apply Z.ltb_lt; lia).
    cbv beta iota zeta. rewrite Z.min_r by lia.
    rewrite addLoop_done by lia. cbv beta iota zeta.
    rewrite Z.ltb_irrefl. cbn [app rev applyInsertPoints].
    cbn [ip_start ip_end ip_index]. rewrite Hmerge.
    reflexivity.
  - cbv beta iota zeta.
    rewrite addLoop_before by (cbn; lia). cbv beta iota zeta.
    replace (a <? b) with true by (symmetry; apply Z.ltb_lt; lia).
    cbn [app rev applyInsertPoints].
    cbn [ip_start ip_end ip_index]. rewrite Hmerge.
    assert (Ek : k = length cs) by lia. rewrite Ek. reflexivity.
Qed.

(** X30.  Round trip in a gap: on a flat tree in good order whose root
    does not carry the tag, let [a,b) lie inside the domain, meet no
    child and touch no child that carries the tag.  Then [addTag] stores
    one new node at the insertion point and changes nothing else, and
    [removeTag] for the same tag and interval returns [true] and leaves
    the tree as it was before the insertion. *)
Theorem add_then_remove_in_a_gap
        (tree : TaggedIntervalTree) (tg : string) (a b : Z) :
  flat (root tree) = true ->
  tag_is (tag (root tree)) tg = false ->
  interval0 (root tree) <= a -> a < b -> b <= interval1 (root tree) ->
  forallb (clearOf tg a b) (children (root tree)) = true ->
  root (addTag tree tg a b)
  = set_children (root tree)
      (insert_at (findInsertionPoint (children (root tree)) a)
         (mkNode a b (Some tg) []) (children (root tree)))
  /\ exists fuel,
      forall f, (fuel <= f)%nat ->
        removeTag f (addTag tree tg a b) tg a b = Some (tree, true).
Proof.
  intros Hflat Ht H0 Hab H1 Hclear.
  pose proof (flat_Row _ Hflat) as Hrow.
  destruct tree as [[n0 n1 t cs]].
  cbn [root interval0 interval1 tag children set_children] in *.
  set (new := mkNode a b (Some tg) []).
  set (k := findInsertionPoint cs a).
  assert (Hroot : root (addTag (mkTree (mkNode n0 n1 t cs)) tg a b)
                  = mkNode n0 n1 t (insert_at k new cs)).
  { unfold addTag.
    replace (a >=? b) with false by (symmetry; apply geb_false; lia).
    cbn [root]. apply addTagDFS_into_gap; assumption. }
  split; [exact Hroot|].
  (* the row with the new node *)
  pose proof (Row_starts _ _ _ Hrow) as Hinc.
  pose proof (findInsertionPoint_spec cs a Hinc) as Hk. fold k in Hk.
  destruct Hk as (Hkn & Hbefore & Hafter).
  assert (Hun : Forall (fun c => touched tg a b c = false) cs).
  { rewrite Forall_forall. intros c Hc. apply clearOf_untouched.
    rewrite forallb_forall in Hclear. apply Hclear, Hc. }
  assert (Hcs : cs = firstn k cs ++ skipn k cs)
    by (symmetry; apply firstn_skipn).
  assert (Hrow2 : Row n0 n1 (firstn k cs ++ skipn k cs))
    by (rewrite <- Hcs; exact Hrow).
  destruct (proj1 (Row_app _ _ _ _) Hrow2) as (HrowL & HrowR & Hchain).
  assert (Hleft : forall x, In x (firstn k cs) -> interval1 x <= a).
  { intros x Hx.
    assert (Hin : In x cs)
      by (rewrite Hcs; apply in_or_app; left; exact Hx).
    destruct (In_nth _ _ dummyNode Hx) as (j & Hj & Hxj).
    rewrite length_firstn in Hj.
    assert (Hstart : interval0 x < a).
    { rewrite <- Hxj. rewrite nth_firstn.
      replace (j <? k)%nat with true by (symmetry; apply Nat.ltb_lt; lia).
      apply Hbefore. lia. }
    rewrite forallb_forall in Hclear.
    destruct (Row_In _ _ _ _ Hrow Hin) as (_ & _ & Hp & _).
    destruct (clearOf_sides tg a b x (Hclear x Hin) Hp Hab) as [Hl _].
    apply Hl, Hstart. }
  assert (Hright : forall y, In y (skipn k cs) -> b <= interval0 y).
  { intros y Hy.
    assert (Hin : In y cs)
      by (rewrite Hcs; apply in_or_app; right; exact Hy).
    destruct (In_nth _ _ dummyNode Hy) as (j & Hj & Hyj).
    rewrite length_skipn in Hj.
    assert (Hstart : a <= interval0 y).
    { rewrite <- Hyj. rewrite nth_skipn. apply (Hafter (k + j)%nat). lia. }
    rewrite forallb_forall in Hclear.
    destruct (Row_In _ _ _ _ Hrow Hin) as (_ & _ & Hp & _).
    destruct (clearOf_sides tg a b y (Hclear y Hin) Hp Hab) as [_ Hr].
    apply Hr, Hstart. }
  assert (Hrow' : Row n0 n1 (insert_at k new cs)).
  { unfold insert_at. apply Row_app. split; [exact HrowL|]. split.
    - change (new :: skipn k cs) with ([new] ++ skipn k cs).
      apply Row_app. split; [|split; [exact HrowR|]].
      + apply Row_single. unfold slotLeaf, new. cbn. repeat split; lia.
      + intros x y [<-|[]] Hy. cbn. apply Hright, Hy.
    - intros x y Hx [<-|Hy]; [cbn; apply Hleft, Hx|].
      apply Hchain; assumption. }
  assert (Hflat' : flat (root (addTag (mkTree (mkNode n0 n1 t cs)) tg a b))
                   = true).
  { rewrite Hroot. apply Row_flat; [lia|exact Hrow']. }
  assert (Ht' : tag_is (tag (root (addTag (mkTree (mkNode n0 n1 t cs))
                                     tg a b))) tg = false)
    by (rewrite Hroot; exact Ht).
  destruct (flat_removal_runs _ tg a b Hflat' Ht' Hab)
    as (fuel & tree' & r & Hrun & Hroot' & Hr).
  exists fuel. intros f Hf. rewrite (Hrun f Hf).
  rewrite Hroot in Hroot', Hr. cbn [children set_children
    interval0 interval1 tag] in Hroot', Hr.
  assert (Hnew : touched tg a b new = true).
  { unfold new. rewrite touched_tg_node.
    replace (a <? b) with true by (symmetry; apply Z.ltb_lt; lia).
    reflexivity. }
  assert (Hcut : cut tg a b (insert_at k new cs) = cs).
  { unfold insert_at. rewrite cut_app, cut_cons.
    assert (Hgone : remains tg a b new = []).
    { unfold remains. rewrite Hnew. unfold new. cbn [interval0 interval1].
      rewrite !Z.ltb_irrefl. reflexivity. }
    rewrite Hgone. cbn [app].
    rewrite <- cut_app, firstn_skipn. apply cut_untouched, Hun. }
  assert (Hflag : existsb (touched tg a b) (insert_at k new cs) = true).
  { unfold insert_at. rewrite existsb_app. cbn [existsb]. rewrite Hnew.
    rewrite orb_true_l. apply orb_true_r. }
  rewrite Hcut in Hroot'. rewrite Hflag in Hr.
  destruct tree' as [root']. cbn [root] in Hroot'. subst root' r.
  reflexivity.
Qed.

Lemma add_then_remove_in_a_gap_witness :
  let t := addTag (addTag (createTaggedIntervalTree 0 20) "b" 2 10)
             "i" 12 18 in
  flat (root t) = true
  /\ tag_is (tag (root t)) "b" = false
  /\ interval0 (root t) <= 10 /\ 10 < 12 /\ 12 <= interval1 (root t)
  /\ forallb (clearOf "i" 10 12) (children (root t)) = false
  /\ forallb (clearOf "u" 10 12) (children (root t)) = true
  /\ exists fuel,
      forall f, (fuel <= f)%nat ->
        removeTag f (addTag t "u" 10 12) "u" 10 12 = Some (t, true).
Proof.
  cbv zeta. split; [reflexivity|]. split; [reflexivity|].
  split; [apply Z.leb_le; reflexivity|]. split; [lia|].
  split; [apply Z.leb_le; reflexivity|].
  split; [reflexivity|]. split; [reflexivity|].
  apply (add_then_remove_in_a_gap
           (addTag (addTag (createTaggedIntervalTree 0 20) "b" 2 10)
              "i" 12 18) "u" 10 12);
    [reflexivity | reflexivity | apply Z.leb_le; reflexivity | lia
     | apply Z.leb_le; reflexivity | reflexivity].
Defined.
